(** * swim-js failure detector: a shallow embedding of [lib/failure-detector.js]

    The detector is a JavaScript object driven by the Node.js event loop.  The
    embedding keeps the object's fields, the runtime's timer table, the
    [setImmediate] and [process.nextTick] queues, the listeners registered on
    the transport and the log of what was sent and emitted in one record
    [World]; every method of the prototype is a function [World -> World], and
    one turn of the event loop is a [step].  Closures are defunctionalised: a
    closure is a constructor that carries the variables it captured. *)

From stdpp Require Import base gmap list strings sorting.
From Stdlib Require Import ZArith Lia.

Local Open Scope nat_scope.

(** ** Values exchanged with the collaborators *)

(** A member of the cluster; the detector only reads [member.host]. *)
Record Member := { host : string }.

(** Modelled from the spec: the message tags of [./message-type] and the event
    types [Net.EventType] of [./net], which are not among the sources; the
    spec's message table has the three kinds [Ping], [PingReq] and [Ack]. *)
Inductive MessageType := Ping | PingReq | Ack.

(** The [data] object of a message.  A field that the object literal does not
    mention is [undefined], here [None]. *)
Record Data := {
  data_seq : nat;
  data_host : option string;
  data_destination : option string
}.

Record Message := { msg_type : MessageType; msg_data : Data }.

(** The membership collaborator [swim.membership], a parameter of every turn
    of the event loop: what [membership.next()] and [membership.random(k)]
    answer when they are called in that turn. *)
Record Membership := {
  next : option Member;
  random : Z -> list Member
}.

(** ** Closures *)

(** The callback [pingReq] hands to every relay leg; it captures the round's
    suspicion timer [timeout]. *)
Inductive RoundCallback :=
| pingReqThroughMemberCallback (timeout : nat).

(** The functions stored in [seqToCallback]. *)
Inductive Callback :=
| pingReqAckReceiveCallback (seq : nat) (callback : RoundCallback)
| pingAckReceiveCallback (seq : nat) (data : Data) (host : string).

(** The functions handed to [setTimeout], [setInterval] and [setImmediate]. *)
Inductive TimerFn :=
| ping_bound                                        (* this.ping.bind(this) *)
| receiveTimeout_pingMember (seq : nat) (member : Member)
| pingReqTimeout_fn (member : Member)
| receiveTimeout_pingReqThroughMember (seq : nat)
| receiveTimeout_onPingReq (seq : nat).

(** An entry of the runtime's timer table: when it is due, whether it repeats
    ([setInterval]) and what it runs. *)
Record Timer := { due : nat; period : option nat; fn : TimerFn }.

(** ** Construction-time options *)

(** A numeric option value: an integer, or [NaN]. *)
Inductive Number := Num (z : Z) | NaN.

(** [opts]: a numeric option is a number or is not supplied ([undefined]). *)
Record Opts := {
  opt_interval : option Number;
  opt_pingTimeout : option Number;
  opt_pingReqTimeout : option Number;
  opt_pingReqGroupSize : option Number;
  debugIdentifier : string
}.

Module Default.
Definition interval : Z := 20.
Definition pingTimeout : Z := 4.
Definition pingReqTimeout : Z := 12.
Definition pingReqGroupSize : Z := 3.
End Default.

(** JavaScript's conversion of a number to a boolean: [0] and [NaN] are falsy,
    every other number is truthy. *)
Definition truthy (v : Number) : bool :=
  match v with
  | Num z => negb (Z.eqb z 0)
  | NaN => false
  end.

(** JavaScript's [a || b] where [a] is a number or [undefined] and [b] is one
    of the defaults: [a] when it is truthy, else [b]; [undefined] is falsy. *)
Definition js_or (a : option Number) (b : Z) : Z :=
  match a with
  | Some (Num z) => if truthy (Num z) then z else b
  | Some NaN => b
  | None => b
  end.

(** ** The state *)

(** [seq] counts up from 0 by [+= 1]; on the integers a detector can reach
    (below 2^53) JavaScript's addition is exact, and [seq] is a natural
    number here.  Timer handles are numbered in the order the runtime gives
    them out. *)
Record World := {
  (* fields of the detector *)
  interval : Z;
  pingTimeout : Z;
  pingReqTimeout : Z;
  pingReqGroupSize : Z;
  seq : nat;
  tickHandle : option nat;
  seqToTimeout : gmap nat nat;
  seqToCallback : gmap nat Callback;
  local : string;
  (* the transport [swim.net]: how often each bound listener is registered,
     and the messages handed to [sendMessage] with their destination *)
  pingListeners : nat;
  pingReqListeners : nat;
  ackListeners : nat;
  sent : list (Message * option string);
  (* the [Suspect] events the detector emitted *)
  emitted : list Member;
  (* the runtime *)
  clock : nat;
  nextId : nat;
  timers : gmap nat Timer;
  immediates : list TimerFn;
  nextTicks : list Callback
}.

Definition set_seq (v : nat) (w : World) : World :=
  {| interval := interval w; pingTimeout := pingTimeout w;
     pingReqTimeout := pingReqTimeout w; pingReqGroupSize := pingReqGroupSize w;
     seq := v; tickHandle := tickHandle w; seqToTimeout := seqToTimeout w;
     seqToCallback := seqToCallback w; local := local w;
     pingListeners := pingListeners w; pingReqListeners := pingReqListeners w;
     ackListeners := ackListeners w; sent := sent w; emitted := emitted w;
     clock := clock w; nextId := nextId w; timers := timers w;
     immediates := immediates w; nextTicks := nextTicks w |}.

Definition set_tickHandle (v : option nat) (w : World) : World :=
  {| interval := interval w; pingTimeout := pingTimeout w;
     pingReqTimeout := pingReqTimeout w; pingReqGroupSize := pingReqGroupSize w;
     seq := seq w; tickHandle := v; seqToTimeout := seqToTimeout w;
     seqToCallback := seqToCallback w; local := local w;
     pingListeners := pingListeners w; pingReqListeners := pingReqListeners w;
     ackListeners := ackListeners w; sent := sent w; emitted := emitted w;
     clock := clock w; nextId := nextId w; timers := timers w;
     immediates := immediates w; nextTicks := nextTicks w |}.

Definition set_seqToTimeout (v : gmap nat nat) (w : World) : World :=
  {| interval := interval w; pingTimeout := pingTimeout w;
     pingReqTimeout := pingReqTimeout w; pingReqGroupSize := pingReqGroupSize w;
     seq := seq w; tickHandle := tickHandle w; seqToTimeout := v;
     seqToCallback := seqToCallback w; local := local w;
     pingListeners := pingListeners w; pingReqListeners := pingReqListeners w;
     ackListeners := ackListeners w; sent := sent w; emitted := emitted w;
     clock := clock w; nextId := nextId w; timers := timers w;
     immediates := immediates w; nextTicks := nextTicks w |}.

Definition set_seqToCallback (v : gmap nat Callback) (w : World) : World :=
  {| interval := interval w; pingTimeout := pingTimeout w;
     pingReqTimeout := pingReqTimeout w; pingReqGroupSize := pingReqGroupSize w;
     seq := seq w; tickHandle := tickHandle w; seqToTimeout := seqToTimeout w;
     seqToCallback := v; local := local w;
     pingListeners := pingListeners w; pingReqListeners := pingReqListeners w;
     ackListeners := ackListeners w; sent := sent w; emitted := emitted w;
     clock := clock w; nextId := nextId w; timers := timers w;
     immediates := immediates w; nextTicks := nextTicks w |}.

Definition set_listeners (p q a : nat) (w : World) : World :=
  {| interval := interval w; pingTimeout := pingTimeout w;
     pingReqTimeout := pingReqTimeout w; pingReqGroupSize := pingReqGroupSize w;
     seq := seq w; tickHandle := tickHandle w; seqToTimeout := seqToTimeout w;
     seqToCallback := seqToCallback w; local := local w;
     pingListeners := p; pingReqListeners := q;
     ackListeners := a; sent := sent w; emitted := emitted w;
     clock := clock w; nextId := nextId w; timers := timers w;
     immediates := immediates w; nextTicks := nextTicks w |}.

Definition set_sent (v : list (Message * option string)) (w : World) : World :=
  {| interval := interval w; pingTimeout := pingTimeout w;
     pingReqTimeout := pingReqTimeout w; pingReqGroupSize := pingReqGroupSize w;
     seq := seq w; tickHandle := tickHandle w; seqToTimeout := seqToTimeout w;
     seqToCallback := seqToCallback w; local := local w;
     pingListeners := pingListeners w; pingReqListeners := pingReqListeners w;
     ackListeners := ackListeners w; sent := v; emitted := emitted w;
     clock := clock w; nextId := nextId w; timers := timers w;
     immediates := immediates w; nextTicks := nextTicks w |}.

Definition set_emitted (v : list Member) (w : World) : World :=
  {| interval := interval w; pingTimeout := pingTimeout w;
     pingReqTimeout := pingReqTimeout w; pingReqGroupSize := pingReqGroupSize w;
     seq := seq w; tickHandle := tickHandle w; seqToTimeout := seqToTimeout w;
     seqToCallback := seqToCallback w; local := local w;
     pingListeners := pingListeners w; pingReqListeners := pingReqListeners w;
     ackListeners := ackListeners w; sent := sent w; emitted := v;
     clock := clock w; nextId := nextId w; timers := timers w;
     immediates := immediates w; nextTicks := nextTicks w |}.

Definition set_clock (v : nat) (w : World) : World :=
  {| interval := interval w; pingTimeout := pingTimeout w;
     pingReqTimeout := pingReqTimeout w; pingReqGroupSize := pingReqGroupSize w;
     seq := seq w; tickHandle := tickHandle w; seqToTimeout := seqToTimeout w;
     seqToCallback := seqToCallback w; local := local w;
     pingListeners := pingListeners w; pingReqListeners := pingReqListeners w;
     ackListeners := ackListeners w; sent := sent w; emitted := emitted w;
     clock := v; nextId := nextId w; timers := timers w;
     immediates := immediates w; nextTicks := nextTicks w |}.

Definition set_nextId (v : nat) (w : World) : World :=
  {| interval := interval w; pingTimeout := pingTimeout w;
     pingReqTimeout := pingReqTimeout w; pingReqGroupSize := pingReqGroupSize w;
     seq := seq w; tickHandle := tickHandle w; seqToTimeout := seqToTimeout w;
     seqToCallback := seqToCallback w; local := local w;
     pingListeners := pingListeners w; pingReqListeners := pingReqListeners w;
     ackListeners := ackListeners w; sent := sent w; emitted := emitted w;
     clock := clock w; nextId := v; timers := timers w;
     immediates := immediates w; nextTicks := nextTicks w |}.

Definition set_timers (v : gmap nat Timer) (w : World) : World :=
  {| interval := interval w; pingTimeout := pingTimeout w;
     pingReqTimeout := pingReqTimeout w; pingReqGroupSize := pingReqGroupSize w;
     seq := seq w; tickHandle := tickHandle w; seqToTimeout := seqToTimeout w;
     seqToCallback := seqToCallback w; local := local w;
     pingListeners := pingListeners w; pingReqListeners := pingReqListeners w;
     ackListeners := ackListeners w; sent := sent w; emitted := emitted w;
     clock := clock w; nextId := nextId w; timers := v;
     immediates := immediates w; nextTicks := nextTicks w |}.

Definition set_immediates (v : list TimerFn) (w : World) : World :=
  {| interval := interval w; pingTimeout := pingTimeout w;
     pingReqTimeout := pingReqTimeout w; pingReqGroupSize := pingReqGroupSize w;
     seq := seq w; tickHandle := tickHandle w; seqToTimeout := seqToTimeout w;
     seqToCallback := seqToCallback w; local := local w;
     pingListeners := pingListeners w; pingReqListeners := pingReqListeners w;
     ackListeners := ackListeners w; sent := sent w; emitted := emitted w;
     clock := clock w; nextId := nextId w; timers := timers w;
     immediates := v; nextTicks := nextTicks w |}.

Definition set_nextTicks (v : list Callback) (w : World) : World :=
  {| interval := interval w; pingTimeout := pingTimeout w;
     pingReqTimeout := pingReqTimeout w; pingReqGroupSize := pingReqGroupSize w;
     seq := seq w; tickHandle := tickHandle w; seqToTimeout := seqToTimeout w;
     seqToCallback := seqToCallback w; local := local w;
     pingListeners := pingListeners w; pingReqListeners := pingReqListeners w;
     ackListeners := ackListeners w; sent := sent w; emitted := emitted w;
     clock := clock w; nextId := nextId w; timers := timers w;
     immediates := immediates w; nextTicks := v |}.

(** ** The runtime: timers, immediates, next ticks *)

(** Node coerces a delay below 1 or above 2^31-1 to 1. *)
Definition timer_delay (d : Z) : nat :=
  if (Z.leb 1 d && Z.leb d 2147483647)%bool then Z.to_nat d else 1.

(** [setTimeout(f, d)]: the handle is fresh. *)
Definition setTimeout (f : TimerFn) (d : Z) (w : World) : nat * World :=
  let id := nextId w in
  (id, set_nextId (S id)
         (set_timers (<[id := {| due := clock w + timer_delay d;
                                 period := None; fn := f |}]> (timers w)) w)).

(** [setInterval(f, d)]. *)
Definition setInterval (f : TimerFn) (d : Z) (w : World) : nat * World :=
  let id := nextId w in
  (id, set_nextId (S id)
         (set_timers (<[id := {| due := clock w + timer_delay d;
                                 period := Some (timer_delay d); fn := f |}]>
                        (timers w)) w)).

(** [clearTimeout(h)]; [h] is [undefined] when the table lookup that produced
    it found nothing, and clearing [undefined] or a timer that is gone does
    nothing.  Node's [clearInterval] is the same function. *)
Definition clearTimeout (h : option nat) (w : World) : World :=
  set_timers (match h with
              | Some id => delete id (timers w)
              | None => timers w
              end) w.

Definition clearInterval (h : option nat) (w : World) : World := clearTimeout h w.

Definition setImmediate (f : TimerFn) (w : World) : World :=
  set_immediates (immediates w ++ [f]) w.

Definition nextTick (cb : Callback) (w : World) : World :=
  set_nextTicks (nextTicks w ++ [cb]) w.

(** ** The transport and the detector's own events *)

(** Modelled from the spec: the transport [swim.net] ([./net] is not among the
    sources), with the contract subscribe, unsubscribe, send.  The detector
    calls them by the names of Node's event emitter: [net.on(type, listener)]
    appends the listener once more, also when it is registered already. *)
Definition net_on (ty : MessageType) (w : World) : World :=
  match ty with
  | Ping => set_listeners (S (pingListeners w)) (pingReqListeners w) (ackListeners w) w
  | PingReq => set_listeners (pingListeners w) (S (pingReqListeners w)) (ackListeners w) w
  | Ack => set_listeners (pingListeners w) (pingReqListeners w) (S (ackListeners w)) w
  end.

(** Modelled from the spec: unsubscribe, [net.removeListener(type, listener)]
    ([./net] is not among the sources); as in Node's event emitter it removes
    at most one instance of the listener. *)
Definition net_removeListener (ty : MessageType) (w : World) : World :=
  match ty with
  | Ping => set_listeners (pred (pingListeners w)) (pingReqListeners w) (ackListeners w) w
  | PingReq => set_listeners (pingListeners w) (pred (pingReqListeners w)) (ackListeners w) w
  | Ack => set_listeners (pingListeners w) (pingReqListeners w) (pred (ackListeners w)) w
  end.

(** Modelled from the spec: send, [net.sendMessage(message, host)] ([./net] is
    not among the sources): fire and forget; the world logs the message and
    its destination. *)
Definition sendMessage (m : Message) (to : option string) (w : World) : World :=
  set_sent (sent w ++ [(m, to)]) w.

(** [self.emit(FailureDetector.EventType.Suspect, member)]. *)
Definition emit_Suspect (member : Member) (w : World) : World :=
  set_emitted (emitted w ++ [member]) w.

(** ** The detector *)

(** [new FailureDetector(opts)], in a runtime whose clock shows [t0]. *)
Definition FailureDetector (opts : Opts) (t0 : nat) : World :=
  {| interval := js_or (opt_interval opts) Default.interval;
     pingTimeout := js_or (opt_pingTimeout opts) Default.pingTimeout;
     pingReqTimeout := js_or (opt_pingReqTimeout opts) Default.pingReqTimeout;
     pingReqGroupSize := js_or (opt_pingReqGroupSize opts) Default.pingReqGroupSize;
     seq := 0; tickHandle := None; seqToTimeout := ∅; seqToCallback := ∅;
     local := debugIdentifier opts;
     pingListeners := 0; pingReqListeners := 0; ackListeners := 0;
     sent := []; emitted := [];
     clock := t0; nextId := 0; timers := ∅; immediates := []; nextTicks := [] |}.

(** The methods of the prototype, in the order of the source where Rocq
    allows it. *)

Definition clearSeq (s : nat) (w : World) : World :=
  let w := clearTimeout (seqToTimeout w !! s) w in
  let w := set_seqToCallback (delete s (seqToCallback w)) w in
  set_seqToTimeout (delete s (seqToTimeout w)) w.

Definition tick (w : World) : World :=
  let w := setImmediate ping_bound w in
  let '(h, w) := setInterval ping_bound (interval w) w in
  set_tickHandle (Some h) w.

Definition start (w : World) : World :=
  tick (net_on Ack (net_on PingReq (net_on Ping w))).

(** [Object.keys] of a table whose keys are sequence numbers lists them in
    ascending order. *)
Definition keys {A} (m : gmap nat A) : list nat :=
  merge_sort Nat.le (map_to_list m).*1.

Definition clearTimeoutWithDeletion (w : World) (s : nat) : World :=
  let w := clearTimeout (seqToTimeout w !! s) w in
  set_seqToTimeout (delete s (seqToTimeout w)) w.

Definition clearCallback (w : World) (s : nat) : World :=
  set_seqToCallback (delete s (seqToCallback w)) w.

Definition stop (w : World) : World :=
  let w := clearInterval (tickHandle w) w in
  let w := set_tickHandle None w in
  let w := net_removeListener Ping w in
  let w := net_removeListener PingReq w in
  let w := net_removeListener Ack w in
  let w := foldl clearTimeoutWithDeletion w (keys (seqToTimeout w)) in
  foldl clearCallback w (keys (seqToCallback w)).

Definition pingMember (member : option Member) (w : World) : World :=
  let s := seq w in
  match member with
  | None => w
  | Some member =>
    let w := set_seq (s + 1) w in
    let '(h, w) := setTimeout (receiveTimeout_pingMember s member) (pingTimeout w) w in
    let w := set_seqToTimeout (<[s := h]> (seqToTimeout w)) w in
    sendMessage {| msg_type := Ping;
                   msg_data := {| data_seq := s; data_host := Some (local w);
                                  data_destination := None |} |}
                (Some (host member)) w
  end.

Definition ping (mb : Membership) (w : World) : World :=
  pingMember (next mb) w.

Definition pingReqThroughMember (member relayMember : Member)
    (callback : RoundCallback) (w : World) : World :=
  let s := seq w in
  let w := set_seq (s + 1) w in
  let '(h, w) := setTimeout (receiveTimeout_pingReqThroughMember s) (pingReqTimeout w) w in
  let w := set_seqToTimeout (<[s := h]> (seqToTimeout w)) w in
  let w := set_seqToCallback (<[s := pingReqAckReceiveCallback s callback]> (seqToCallback w)) w in
  sendMessage {| msg_type := PingReq;
                 msg_data := {| data_seq := s; data_host := Some (local w);
                                data_destination := Some (host member) |} |}
              (Some (host relayMember)) w.

Definition pingReq (mb : Membership) (member : Member) (w : World) : World :=
  let relayMembers := random mb (pingReqGroupSize w) in
  if length relayMembers =? 0 then w
  else
    let '(timeout, w) := setTimeout (pingReqTimeout_fn member) (pingReqTimeout w) w in
    foldl (fun w relayMember =>
             pingReqThroughMember member relayMember
               (pingReqThroughMemberCallback timeout) w)
          w relayMembers.

Definition onPing (data : Data) (from : string) (w : World) : World :=
  sendMessage {| msg_type := Ack;
                 msg_data := {| data_seq := data_seq data; data_host := Some (local w);
                                data_destination := None |} |}
              (Some from) w.

Definition onPingReq (data : Data) (from : string) (w : World) : World :=
  let s := seq w in
  let w := set_seq (s + 1) w in
  let '(h, w) := setTimeout (receiveTimeout_onPingReq s) (pingTimeout w) w in
  let w := set_seqToTimeout (<[s := h]> (seqToTimeout w)) w in
  let w := set_seqToCallback (<[s := pingAckReceiveCallback s data from]> (seqToCallback w)) w in
  sendMessage {| msg_type := Ping;
                 msg_data := {| data_seq := s; data_host := data_destination data;
                                data_destination := None |} |}
              (data_destination data) w.

Definition onAck (data : Data) (w : World) : World :=
  let callback := seqToCallback w !! data_seq data in
  let w := match callback with
           | Some cb => nextTick cb w
           | None => w
           end in
  clearSeq (data_seq data) w.

(** ** Running closures *)

Definition run_RoundCallback (cb : RoundCallback) (w : World) : World :=
  match cb with
  | pingReqThroughMemberCallback timeout => clearTimeout (Some timeout) w
  end.

Definition run_Callback (cb : Callback) (w : World) : World :=
  match cb with
  | pingReqAckReceiveCallback s callback =>
      run_RoundCallback callback (clearSeq s w)
  | pingAckReceiveCallback s data from =>
      sendMessage {| msg_type := Ack;
                     msg_data := {| data_seq := data_seq data; data_host := None;
                                    data_destination := None |} |}
                  (Some from) (clearSeq s w)
  end.

Definition run_TimerFn (mb : Membership) (f : TimerFn) (w : World) : World :=
  match f with
  | ping_bound => ping mb w
  | receiveTimeout_pingMember s member => pingReq mb member (clearSeq s w)
  | pingReqTimeout_fn member => emit_Suspect member w
  | receiveTimeout_pingReqThroughMember s => clearSeq s w
  | receiveTimeout_onPingReq s => clearSeq s w
  end.

(** ** The event loop *)

(** The [process.nextTick] queue is run after the current operation; no
    callback of the detector queues another one. *)
Definition drain (w : World) : World :=
  foldl (fun w cb => run_Callback cb w) (set_nextTicks [] w) (nextTicks w).

(** The transport delivers a message: every registered instance of the
    listener for its type is called, in the same turn. *)
Definition net_emit (ty : MessageType) (data : Data) (from : string) (w : World) : World :=
  match ty with
  | Ping => Nat.iter (pingListeners w) (onPing data from) w
  | PingReq => Nat.iter (pingReqListeners w) (onPingReq data from) w
  | Ack => Nat.iter (ackListeners w) (onAck data) w
  end.

Inductive Event :=
| CallStart
| CallStop
| Advance (dt : nat)
| RunImmediate (mb : Membership)
| Fire (id : nat) (mb : Membership)
| Recv (ty : MessageType) (data : Data) (from : string).

(** One turn of the event loop; [None] when the runtime cannot take it (no
    immediate is queued, the timer is not in the table or not yet due).  A
    timer may fire late, never early.  A one-shot timer leaves the table
    before its function runs; a repeating timer stays with its next deadline
    (Node re-arms it after the function ran, which is the same here since
    [ping] clears no timer). *)
Definition step (e : Event) (w : World) : option World :=
  match e with
  | CallStart => Some (drain (start w))
  | CallStop => Some (drain (stop w))
  | Advance dt => Some (set_clock (clock w + dt) w)
  | RunImmediate mb =>
      match immediates w with
      | [] => None
      | f :: rest => Some (drain (run_TimerFn mb f (set_immediates rest w)))
      end
  | Fire id mb =>
      match timers w !! id with
      | None => None
      | Some tm =>
          if due tm <=? clock w then
            let w := match period tm with
                     | Some p => set_timers (<[id := {| due := clock w + p; period := Some p;
                                                        fn := fn tm |}]> (timers w)) w
                     | None => set_timers (delete id (timers w)) w
                     end in
            Some (drain (run_TimerFn mb (fn tm) w))
          else None
      end
  | Recv ty data from => Some (drain (net_emit ty data from w))
  end.

Fixpoint run (evs : list Event) (w : World) : option World :=
  match evs with
  | [] => Some w
  | e :: rest =>
      match step e w with
      | Some w' => run rest w'
      | None => None
      end
  end.

(** * Vocabulary of the verification *)

(** ** Simplification *)

(** Projections of a chain of field updates. *)
Ltac fields :=
  cbn [interval pingTimeout pingReqTimeout pingReqGroupSize seq tickHandle
       seqToTimeout seqToCallback local pingListeners pingReqListeners
       ackListeners sent emitted clock nextId timers immediates nextTicks
       set_seq set_tickHandle set_seqToTimeout set_seqToCallback set_listeners
       set_sent set_emitted set_clock set_nextId set_timers set_immediates
       set_nextTicks fst snd due period fn] in *.

(** The methods and the runtime primitives, down to field updates. *)
Ltac unfold_ops :=
  unfold clearSeq, pingMember, pingReqThroughMember, onPing, onPingReq, onAck,
    tick, start, clearTimeoutWithDeletion, clearCallback, ping,
    run_Callback, run_RoundCallback, emit_Suspect, sendMessage, nextTick,
    setImmediate, clearInterval, clearTimeout, setTimeout, setInterval,
    net_on, net_removeListener in *.

(** ** Who may cancel a timer *)

(** A timer belongs to the repeating schedule, to one sequence number (its
    function clears that sequence) or to an indirect-probe round. *)
Inductive Owner := OwnTick | OwnSeq (s : nat) | OwnRound.

Definition owner (f : TimerFn) : Owner :=
  match f with
  | ping_bound => OwnTick
  | receiveTimeout_pingMember s _ => OwnSeq s
  | pingReqTimeout_fn _ => OwnRound
  | receiveTimeout_pingReqThroughMember s => OwnSeq s
  | receiveTimeout_onPingReq s => OwnSeq s
  end.

(** The sequence number a stored callback captured, and the suspicion timer it
    cancels, if any. *)
Definition cb_seq (cb : Callback) : nat :=
  match cb with
  | pingReqAckReceiveCallback s _ => s
  | pingAckReceiveCallback s _ _ => s
  end.

Definition cb_timeout (cb : Callback) : option nat :=
  match cb with
  | pingReqAckReceiveCallback _ (pingReqThroughMemberCallback t) => Some t
  | pingAckReceiveCallback _ _ _ => None
  end.

(** The sequence numbers the detector allocated, read off the messages it
    sent: every allocation is followed by a [Ping] or a [PingReq] that carries
    it; an [Ack] carries a sequence number of the peer. *)
Definition allocated_seq (m : Message * option string) : option nat :=
  match msg_type (fst m) with
  | Ack => None
  | _ => Some (data_seq (msg_data (fst m)))
  end.

Definition allocated (l : list (Message * option string)) : list nat :=
  omap allocated_seq l.

(** ** The invariant of the detector *)

(** Every handle in [seqToTimeout] and every sequence in the tables is one the
    detector gave out; a handle that is still in the timer table runs the
    function of the place that holds it: [seqToTimeout] at [k] a timeout that
    clears [k], a relay callback the suspicion timer of a round, [tickHandle]
    the repeating schedule; a timeout that clears [k] is the one
    [seqToTimeout] holds at [k]; the schedule repeats; only [ping] is queued
    as an immediate; and the allocated sequence numbers increase up to
    [seq]. *)
Record Inv (w : World) : Prop := {
  inv_timeout : forall k id, seqToTimeout w !! k = Some id ->
      k < seq w /\ id < nextId w /\
      forall tm, timers w !! id = Some tm -> owner (fn tm) = OwnSeq k;
  inv_callback : forall k cb, seqToCallback w !! k = Some cb ->
      k < seq w /\ cb_seq cb = k /\
      forall t, cb_timeout cb = Some t ->
        t < nextId w /\ forall tm, timers w !! t = Some tm -> owner (fn tm) = OwnRound;
  inv_timers : forall id tm, timers w !! id = Some tm ->
      id < nextId w /\
      forall k, owner (fn tm) = OwnSeq k -> seqToTimeout w !! k = Some id;
  inv_tick : forall h, tickHandle w = Some h ->
      h < nextId w /\ forall tm, timers w !! h = Some tm -> owner (fn tm) = OwnTick;
  inv_period : forall id tm, timers w !! id = Some tm ->
      owner (fn tm) = OwnTick -> is_Some (period tm);
  inv_immediates : Forall (eq ping_bound) (immediates w);
  inv_alloc : StronglySorted lt (allocated (sent w) ++ [seq w])
}.

(** Between two turns of the event loop the next-tick queue is empty. *)
Definition Stable (w : World) : Prop := Inv w /\ nextTicks w = [].

(** A world the detector can be in: some turns of the event loop after its
    construction. *)
Definition reachable (w : World) : Prop :=
  exists opts t0 evs, run evs (FailureDetector opts t0) = Some w.

(** ** Relations between worlds *)

(** A repeating timer that fired: it is still in the table, with the same
    function and period. *)
Definition rearmed (o o' : option Timer) : Prop :=
  exists tm tm', o = Some tm /\ o' = Some tm' /\ is_Some (period tm) /\
                 period tm' = period tm /\ fn tm' = fn tm.

(** Timer handles are fresh and the clock does not go back: from [w] to [w']
    a handle the runtime had given out has lost its timer, or has the timer it
    had, or has its repeating timer re-armed.  In particular a handle whose
    timer has gone never returns to the table. *)
Definition grows (w w' : World) : Prop :=
  nextId w <= nextId w' /\ clock w <= clock w' /\
  forall id, id < nextId w ->
    timers w' !! id = None \/ timers w' !! id = timers w !! id \/
    rearmed (timers w !! id) (timers w' !! id).

(** A timer [t] is guarded when [seqToTimeout] holds its handle only at a
    sequence number in [K]. *)
Definition guarded (t : nat) (K : nat -> Prop) (w : World) : Prop :=
  t < nextId w /\ forall k, seqToTimeout w !! k = Some t -> K k.

(** [w'] still has timer [t] as [w] had it, [t] is still guarded, nothing was
    queued for the next tick and [tickHandle] is what it was. *)
Definition keeps (t : nat) (K : nat -> Prop) (w w' : World) : Prop :=
  timers w' !! t = timers w !! t /\ guarded t K w' /\
  nextTicks w' = nextTicks w /\ tickHandle w' = tickHandle w.

(** [tickHandle] after the turn [e]. *)
Definition tick_after (e : Event) (w : World) : option nat :=
  match e with
  | CallStart => Some (nextId w)
  | CallStop => None
  | _ => tickHandle w
  end.

(** The conditions under which the turn [e] leaves a guarded timer alone. *)
Definition spares (t : nat) (K : nat -> Prop) (w : World) (e : Event) : Prop :=
  match e with
  | CallStop => tickHandle w <> Some t /\ forall k, ~ K k
  | Fire id _ => forall tm s, timers w !! id = Some tm -> owner (fn tm) = OwnSeq s -> ~ K s
  | RunImmediate _ => forall f s, f ∈ immediates w -> owner f = OwnSeq s -> ~ K s
  | Recv Ack data _ =>
      0 < ackListeners w ->
      ~ K (data_seq data) /\
      forall cb, seqToCallback w !! data_seq data = Some cb ->
        cb_timeout cb <> Some t /\ cb_seq cb = data_seq data
  | _ => True
  end.

(** ** Turns and runs *)

(** The turn [e] fires timer [t]. *)
Definition is_Fire (t : nat) (e : Event) : bool :=
  match e with
  | Fire id _ => bool_decide (id = t)
  | _ => false
  end.

(** The turn [e] is [start()]. *)
Definition is_CallStart (e : Event) : bool :=
  match e with
  | CallStart => true
  | _ => false
  end.

(** The turn [e] is [stop()]. *)
Definition is_CallStop (e : Event) : bool :=
  match e with
  | CallStop => true
  | _ => false
  end.

(** The turn [e] delivers an [Ack] for sequence [s] to a registered
    listener. *)
Definition acks_seq (s : nat) (w : World) (e : Event) : bool :=
  match e with
  | Recv Ack data _ => (0 <? ackListeners w) && (data_seq data =? s)
  | _ => false
  end.

(** The turn [e] delivers an [Ack] whose completion callback is a relay leg of
    the round with suspicion timer [t]: the callback runs in this turn. *)
Definition acks_round (t : nat) (w : World) (e : Event) : bool :=
  match e with
  | Recv Ack data _ =>
      (0 <? ackListeners w) &&
      match seqToCallback w !! data_seq data with
      | Some cb => bool_decide (cb_timeout cb = Some t)
      | None => false
      end
  | _ => false
  end.

(** [P] holds of every turn of the run of [evs] from [w], each turn judged in
    the world it starts from. *)
Fixpoint along (P : World -> Event -> bool) (evs : list Event) (w : World) : bool :=
  match evs with
  | [] => true
  | e :: rest =>
      P w e && match step e w with
               | Some w' => along P rest w'
               | None => true
               end
  end.

(** ** Worlds and collaborators to run the detector on *)

Module Example.
Definition opts : Opts :=
  {| opt_interval := None; opt_pingTimeout := None; opt_pingReqTimeout := None;
     opt_pingReqGroupSize := None; debugIdentifier := "B" |}.
Definition M : Member := {| host := "M" |}.
Definition R1 : Member := {| host := "R1" |}.
Definition R2 : Member := {| host := "R2" |}.
(** The membership knows [M] and offers one relay. *)
Definition mb : Membership := {| next := Some M; random := fun _ => [R1] |}.
(** The membership offers two relays. *)
Definition mb2 : Membership := {| next := Some M; random := fun _ => [R1; R2] |}.
(** The membership offers no relay. *)
Definition alone : Membership := {| next := Some M; random := fun _ => [] |}.
(** Node B, just constructed. *)
Definition w0 : World := FailureDetector opts 0.
Definition ack (s : nat) : Data :=
  {| data_seq := s; data_host := None; data_destination := None |}.
(** Start, probe M, and relay a probe of C for A. *)
Definition probe_and_relay : list Event :=
  [CallStart; RunImmediate mb;
   Recv PingReq {| data_seq := 7; data_host := Some "A";
                   data_destination := Some "C" |} "A"].
End Example.

(** * Vocabulary of the further properties *)

(** The world after the statements of [stop] that come before its two
    loops. *)
Definition stop_head (w : World) : World :=
  net_removeListener Ack
    (net_removeListener PingReq
       (net_removeListener Ping
          (set_tickHandle None (clearInterval (tickHandle w) w)))).

(** ** Pending sequences *)

(** A timer fits the world when it is what the method that armed it left
    behind: every timeout is one-shot, the timeout of a direct probe has no
    callback under its sequence, the timeout of a relay leg has the leg's
    callback there and the timeout of a probe made on behalf of a peer the
    callback that forwards the [Ack]. *)
Definition fits (w : World) (tm : Timer) : Prop :=
  match fn tm with
  | ping_bound => True
  | receiveTimeout_pingMember s _ => period tm = None /\ seqToCallback w !! s = None
  | pingReqTimeout_fn _ => period tm = None
  | receiveTimeout_pingReqThroughMember s =>
      period tm = None /\
      exists t, seqToCallback w !! s
                = Some (pingReqAckReceiveCallback s (pingReqThroughMemberCallback t))
  | receiveTimeout_onPingReq s =>
      period tm = None /\
      exists data from, seqToCallback w !! s = Some (pingAckReceiveCallback s data from)
  end.

(** The tables hold nothing stale: the timer of every pending sequence is
    armed, every armed timer fits, and a callback is stored only under a
    sequence that has a timer. *)
Record Tidy (w : World) : Prop := {
  tidy_live : forall k id, seqToTimeout w !! k = Some id -> is_Some (timers w !! id);
  tidy_fits : forall id tm, timers w !! id = Some tm -> fits w tm;
  tidy_callback : forall k, is_Some (seqToCallback w !! k) -> is_Some (seqToTimeout w !! k)
}.

(** What holds between two turns of the event loop. *)
Definition Settled (w : World) : Prop := Inv w /\ Tidy w /\ nextTicks w = [].

(** ** Sequence numbers without gaps *)

(** The sequence numbers carried by the [Ping] and [PingReq] messages sent so
    far are 0, 1, ... up to [seq], each once and in this order. *)
Definition Dense (w : World) : Prop := allocated (sent w) = List.seq 0 (seq w).

(** ** What precedes a suspicion *)

(** The detector with identity [loc] has sent a direct probe to [member]. *)
Definition pinged (loc : string) (member : Member)
    (l : list (Message * option string)) : Prop :=
  exists s, ({| msg_type := Ping;
                msg_data := {| data_seq := s; data_host := Some loc;
                               data_destination := None |} |},
             Some (host member)) ∈ l.

(** It has asked a relay to probe [member]. *)
Definition relayed (loc : string) (member : Member)
    (l : list (Message * option string)) : Prop :=
  exists s relayMember,
    ({| msg_type := PingReq;
        msg_data := {| data_seq := s; data_host := Some loc;
                       data_destination := Some (host member) |} |},
     Some (host relayMember)) ∈ l.

(** What the log of sent messages holds when a timer function is armed. *)
Definition caused (loc : string) (l : list (Message * option string))
    (f : TimerFn) : Prop :=
  match f with
  | receiveTimeout_pingMember _ member => pinged loc member l
  | pingReqTimeout_fn member => pinged loc member l /\ relayed loc member l
  | _ => True
  end.

Record Caused (w : World) : Prop := {
  caused_timers : forall id tm, timers w !! id = Some tm ->
      caused (local w) (sent w) (fn tm);
  caused_emitted : forall member, member ∈ emitted w ->
      pinged (local w) member (sent w) /\ relayed (local w) member (sent w)
}.

(** ** More runs of the detector *)

Module Scenario.
(** Node B probes M, gets no answer, asks R1, gets no answer either, and
    suspects M. *)
Definition unanswered : list Event :=
  [CallStart; RunImmediate Example.mb; Advance 4; Fire 1 Example.mb;
   Advance 12; Fire 2 Example.mb].
(** The membership knows nobody. *)
Definition nobody : Membership := {| next := None; random := fun _ => [] |}.
End Scenario.

(** ** A detector at rest *)

(** No listener, no schedule, no pending sequence, no timer, nothing queued. *)
Definition Quiet (w : World) : Prop :=
  pingListeners w = 0 /\ pingReqListeners w = 0 /\ ackListeners w = 0 /\
  tickHandle w = None /\ seqToTimeout w = ∅ /\ seqToCallback w = ∅ /\
  timers w = ∅ /\ immediates w = [] /\ nextTicks w = [].

(** * Verification *)

(** ** The invariant of the detector *)

Lemma Inv_FailureDetector opts t0 : Inv (FailureDetector opts t0).
Proof.
  split; cbn; try (intros; simplify_map_eq; fail).
  - constructor.
  - repeat constructor.
Qed.

(** The invariant survives when timers and table entries are removed, as long
    as every timer left that clears a sequence is still the one the table
    holds for it. *)
Lemma Inv_shrink w w' :
  seq w' = seq w -> nextId w' = nextId w ->
  timers w' ⊆ timers w ->
  seqToTimeout w' ⊆ seqToTimeout w -> seqToCallback w' ⊆ seqToCallback w ->
  (tickHandle w' = tickHandle w \/ tickHandle w' = None) ->
  Forall (eq ping_bound) (immediates w') ->
  allocated (sent w') = allocated (sent w) ->
  (forall id tm k, timers w' !! id = Some tm -> owner (fn tm) = OwnSeq k ->
     seqToTimeout w !! k = Some id -> seqToTimeout w' !! k = Some id) ->
  Inv w -> Inv w'.
Proof.
  intros E1 E2 S1 S2 S3 E3 E4 E5 C [H1 H2 H3 H4 Hp H5 H6].
  split; rewrite ?E1, ?E2, ?E5; try done.
  - intros k id Hk. destruct (H1 k id) as (?&?&Ht); [by eapply lookup_weaken|].
    repeat split; try done. intros tm Htm. eapply Ht, lookup_weaken; eauto.
  - intros k cb Hk. destruct (H2 k cb) as (?&?&Ht); [by eapply lookup_weaken|].
    repeat split; try done.
    + by apply Ht.
    + intros tm Htm. eapply Ht, lookup_weaken; eauto.
  - intros id tm Htm. destruct (H3 id tm) as [? Hs]; [by eapply lookup_weaken|].
    split; [done|]. intros k Hk. eapply C; eauto.
  - intros h Hh. destruct E3 as [E3|E3]; rewrite E3 in Hh; [|done].
    destruct (H4 h Hh) as [? Ht]. split; [done|].
    intros tm Htm. eapply Ht, lookup_weaken; eauto.
  - intros id tm Htm. eapply Hp, lookup_weaken; eauto.
Qed.

(** The invariant only reads these fields. *)
Lemma Inv_ext w w' :
  seq w' = seq w -> nextId w' = nextId w -> timers w' = timers w ->
  seqToTimeout w' = seqToTimeout w -> seqToCallback w' = seqToCallback w ->
  tickHandle w' = tickHandle w -> immediates w' = immediates w ->
  allocated (sent w') = allocated (sent w) ->
  Inv w -> Inv w'.
Proof.
  intros E1 E2 E3 E4 E5 E6 E7 E8 H.
  apply (Inv_shrink w); rewrite ?E3, ?E4, ?E5, ?E7; auto.
  by destruct H.
Qed.

Lemma allocated_snoc_Ack l d to :
  allocated (l ++ [({| msg_type := Ack; msg_data := d |}, to)]) = allocated l.
Proof. unfold allocated. rewrite omap_app. cbn. apply app_nil_r. Qed.

Lemma allocated_snoc l ty d to :
  ty <> Ack ->
  allocated (l ++ [({| msg_type := ty; msg_data := d |}, to)]) = allocated l ++ [data_seq d].
Proof. unfold allocated. rewrite omap_app. intros H. cbn. by destruct ty. Qed.

Lemma alloc_sorted_snoc (l : list nat) n :
  StronglySorted lt (l ++ [n]) -> StronglySorted lt ((l ++ [n]) ++ [n + 1]).
Proof.
  induction l as [|a l IH]; cbn; intros H.
  - repeat constructor; lia.
  - apply StronglySorted_inv in H as [H1 H2]. constructor; [by apply IH|].
    apply Forall_app. split; [done|].
    apply Forall_app in H2 as [_ H3]. rewrite Forall_singleton in H3.
    apply Forall_singleton. lia.
Qed.

Lemma Inv_clearTimeout h w : Inv w -> Inv (clearTimeout h w).
Proof.
  intros H. apply (Inv_shrink w); unfold_ops; fields; auto.
  - destruct h; [apply delete_subseteq|done].
  - by destruct H.
Qed.

Lemma Inv_clearSeq s w : Inv w -> Inv (clearSeq s w).
Proof.
  intros H. apply (Inv_shrink w); unfold_ops; fields; auto.
  - destruct (seqToTimeout w !! s); [apply delete_subseteq|done].
  - apply delete_subseteq.
  - apply delete_subseteq.
  - by destruct H.
  - intros id tm k Htm Hown Hk. rewrite lookup_delete_ne; [done|].
    intros ->. rewrite Hk in Htm. by rewrite lookup_delete_eq in Htm.
Qed.

Lemma Inv_clearTimeoutWithDeletion w s : Inv w -> Inv (clearTimeoutWithDeletion w s).
Proof.
  intros H. apply (Inv_shrink w); unfold_ops; fields; auto.
  - destruct (seqToTimeout w !! s); [apply delete_subseteq|done].
  - apply delete_subseteq.
  - by destruct H.
  - intros id tm k Htm Hown Hk. rewrite lookup_delete_ne; [done|].
    intros ->. rewrite Hk in Htm. by rewrite lookup_delete_eq in Htm.
Qed.

Lemma Inv_clearCallback w s : Inv w -> Inv (clearCallback w s).
Proof.
  intros H. apply (Inv_shrink w); unfold_ops; fields; auto.
  - apply delete_subseteq.
  - by destruct H.
Qed.

(** A fresh sequence number with its timer, and possibly its callback. *)
Lemma Inv_allocate w w' tm (ocb : option Callback) :
  seq w' = seq w + 1 -> nextId w' = S (nextId w) ->
  timers w' = <[nextId w := tm]> (timers w) ->
  owner (fn tm) = OwnSeq (seq w) ->
  seqToTimeout w' = <[seq w := nextId w]> (seqToTimeout w) ->
  seqToCallback w' = match ocb with
                     | Some cb => <[seq w := cb]> (seqToCallback w)
                     | None => seqToCallback w
                     end ->
  (forall cb, ocb = Some cb -> cb_seq cb = seq w /\
     forall t, cb_timeout cb = Some t ->
       t < nextId w /\ forall tm', timers w !! t = Some tm' -> owner (fn tm') = OwnRound) ->
  tickHandle w' = tickHandle w -> immediates w' = immediates w ->
  allocated (sent w') = allocated (sent w) ++ [seq w] ->
  Inv w -> Inv w'.
Proof.
  intros E1 E2 E3 Hown E4 E5 Hcb E6 E7 E8 [H1 H2 H3 H4 Hp H5 H6].
  split; rewrite ?E1, ?E2, ?E3, ?E4, ?E6, ?E7, ?E8.
  - intros k id [[<- <-]|[Hne Hk]]%lookup_insert_Some.
    + rewrite lookup_insert_eq. split; [lia|]. split; [lia|]. by intros ? [= <-].
    + destruct (H1 k id Hk) as (?&?&Ht). split; [lia|]. split; [lia|].
      intros tm' Htm. rewrite lookup_insert_ne in Htm by lia. by apply Ht.
  - rewrite E5. intros k cb Hk.
    assert ((ocb = Some cb /\ k = seq w) \/ seqToCallback w !! k = Some cb) as [[-> ->]|Hk'].
    { destruct ocb; [|by right].
      apply lookup_insert_Some in Hk as [[<- <-]|[_ ?]]; [by left|by right]. }
    + destruct (Hcb cb eq_refl) as [? Ht]. split; [lia|]. split; [done|].
      intros t Hcbt. destruct (Ht t Hcbt) as [? Ht']. split; [lia|].
      intros tm' Htm. rewrite lookup_insert_ne in Htm by lia. by apply Ht'.
    + destruct (H2 k cb Hk') as (?&?&Ht). split; [lia|]. split; [done|].
      intros t Hcbt. destruct (Ht t Hcbt) as [? Ht']. split; [lia|].
      intros tm' Htm. rewrite lookup_insert_ne in Htm by lia. by apply Ht'.
  - intros id tm' [[<- <-]|[Hne Htm]]%lookup_insert_Some.
    + split; [lia|]. intros k Hk. rewrite Hown in Hk. injection Hk as <-.
      apply lookup_insert_eq.
    + destruct (H3 id tm' Htm) as [? Hs]. split; [lia|].
      intros k Hk. specialize (Hs k Hk). destruct (H1 k id Hs) as (?&_).
      rewrite lookup_insert_ne by lia. done.
  - intros h Hh. destruct (H4 h Hh) as [? Ht]. split; [lia|].
    intros tm' Htm. rewrite lookup_insert_ne in Htm by lia. by apply Ht.
  - intros id tm' [[<- <-]|[Hne Htm]]%lookup_insert_Some; [congruence|by eapply Hp].
  - done.
  - rewrite <- app_assoc. replace (allocated (sent w) ++ [seq w] ++ [seq w + 1])
      with ((allocated (sent w) ++ [seq w]) ++ [seq w + 1]) by (by rewrite <- app_assoc).
    by apply alloc_sorted_snoc.
Qed.

(** A fresh timer that belongs to no sequence number: the suspicion timer of
    a round, or the repeating schedule whose handle goes to [tickHandle]. *)
Lemma Inv_new_timer w w' tm :
  seq w' = seq w -> nextId w' = S (nextId w) ->
  timers w' = <[nextId w := tm]> (timers w) ->
  seqToTimeout w' = seqToTimeout w -> seqToCallback w' = seqToCallback w ->
  (owner (fn tm) = OwnRound /\ tickHandle w' = tickHandle w \/
   owner (fn tm) = OwnTick /\ is_Some (period tm) /\ tickHandle w' = Some (nextId w)) ->
  Forall (eq ping_bound) (immediates w') ->
  allocated (sent w') = allocated (sent w) ->
  Inv w -> Inv w'.
Proof.
  intros E1 E2 E3 E4 E5 Hown E7 E8 [H1 H2 H3 H4 Hp H5 H6].
  split; rewrite ?E1, ?E2, ?E3, ?E4, ?E5, ?E8; try done.
  - intros k id Hk. destruct (H1 k id Hk) as (?&?&Ht). split; [lia|]. split; [lia|].
    intros tm' Htm. rewrite lookup_insert_ne in Htm by lia. by apply Ht.
  - intros k cb Hk. destruct (H2 k cb Hk) as (?&?&Ht). split; [lia|]. split; [done|].
    intros t Hcbt. destruct (Ht t Hcbt) as [? Ht']. split; [lia|].
    intros tm' Htm. rewrite lookup_insert_ne in Htm by lia. by apply Ht'.
  - intros id tm' [[<- <-]|[Hne Htm]]%lookup_insert_Some.
    + split; [lia|]. intros k Hk. destruct Hown as [[Ho _]|[Ho _]]; congruence.
    + destruct (H3 id tm' Htm) as [? Hs]. split; [lia|]. done.
  - intros h Hh. destruct Hown as [[Ho Et]|(Ho & _ & Et)]; rewrite Et in Hh.
    + destruct (H4 h Hh) as [? Ht]. split; [lia|].
      intros tm' Htm. rewrite lookup_insert_ne in Htm by lia. by apply Ht.
    + injection Hh as <-. split; [lia|]. rewrite lookup_insert_eq. by intros ? [= <-].
  - intros id tm' [[<- <-]|[Hne Htm]]%lookup_insert_Some; [|by eapply Hp].
    destruct Hown as [[Ho _]|(_ & Ho & _)]; [congruence|done].
Qed.

(** *** Every method keeps the invariant *)

Lemma Inv_pingMember member w : Inv w -> Inv (pingMember member w).
Proof.
  intros H. destruct member as [m|]; [|done].
  eapply (Inv_allocate w _ _ None); unfold_ops; fields; try done.
  by rewrite allocated_snoc.
Qed.

Lemma Inv_pingReqThroughMember member relayMember t w :
  t < nextId w ->
  (forall tm, timers w !! t = Some tm -> owner (fn tm) = OwnRound) ->
  Inv w ->
  Inv (pingReqThroughMember member relayMember (pingReqThroughMemberCallback t) w).
Proof.
  intros Ht Hown H.
  eapply (Inv_allocate w _ _ (Some _)); unfold_ops; fields; try done.
  - intros cb [= <-]. split; [done|]. by intros t' [= <-].
  - by rewrite allocated_snoc.
Qed.

Lemma Inv_pingReq_legs member t relayMembers w :
  t < nextId w ->
  (forall tm, timers w !! t = Some tm -> owner (fn tm) = OwnRound) ->
  Inv w ->
  Inv (foldl (fun w relayMember =>
                pingReqThroughMember member relayMember
                  (pingReqThroughMemberCallback t) w) w relayMembers).
Proof.
  revert w. induction relayMembers as [|r l IH]; intros w Ht Hown H; [done|].
  cbn [foldl]. apply IH.
  - unfold_ops; fields. lia.
  - unfold_ops; fields. intros tm. rewrite lookup_insert_ne by lia. apply Hown.
  - by apply Inv_pingReqThroughMember.
Qed.

Lemma Inv_pingReq mb member w : Inv w -> Inv (pingReq mb member w).
Proof.
  intros H. unfold pingReq.
  destruct (length (random mb (pingReqGroupSize w)) =? 0); [done|].
  cbn [setTimeout]. apply Inv_pingReq_legs; fields.
  - lia.
  - intros tm. rewrite lookup_insert_eq. by intros [= <-].
  - eapply (Inv_new_timer w); fields; try done.
    + by left.
    + by destruct H.
Qed.

Lemma Inv_onPing data from w : Inv w -> Inv (onPing data from w).
Proof.
  apply Inv_ext; unfold_ops; fields; try done. apply allocated_snoc_Ack.
Qed.

Lemma Inv_onPingReq data from w : Inv w -> Inv (onPingReq data from w).
Proof.
  intros H.
  eapply (Inv_allocate w _ _ (Some _)); unfold_ops; fields; try done.
  - by intros cb [= <-].
  - by rewrite allocated_snoc.
Qed.

Lemma Inv_nextTick cb w : Inv w -> Inv (nextTick cb w).
Proof. by apply Inv_ext. Qed.

Lemma Inv_onAck data w : Inv w -> Inv (onAck data w).
Proof.
  intros H. unfold onAck. apply Inv_clearSeq.
  destruct (seqToCallback w !! data_seq data); [by apply Inv_nextTick|done].
Qed.

Lemma Inv_run_Callback cb w : Inv w -> Inv (run_Callback cb w).
Proof.
  intros H. destruct cb as [s [t]|s data from]; cbn [run_Callback run_RoundCallback].
  - by apply Inv_clearTimeout, Inv_clearSeq.
  - eapply Inv_ext; [..|by apply (Inv_clearSeq s)]; unfold_ops; fields; try done.
    apply allocated_snoc_Ack.
Qed.

Lemma Inv_run_TimerFn mb f w : Inv w -> Inv (run_TimerFn mb f w).
Proof.
  intros H. destruct f; cbn [run_TimerFn].
  - by apply Inv_pingMember.
  - by apply Inv_pingReq, Inv_clearSeq.
  - by apply (Inv_ext w).
  - by apply Inv_clearSeq.
  - by apply Inv_clearSeq.
Qed.

Lemma Inv_start w : Inv w -> Inv (start w).
Proof.
  intros H. eapply (Inv_new_timer w); unfold start; unfold_ops; fields; try done.
  - by right.
  - apply Forall_app. split; [by destruct H|by constructor].
Qed.

Lemma Inv_foldl {A} (f : World -> A -> World) l w :
  (forall w a, Inv w -> Inv (f w a)) -> Inv w -> Inv (foldl f w l).
Proof.
  intros Hf. revert w. induction l as [|a l IH]; intros w H; [done|].
  cbn [foldl]. by apply IH, Hf.
Qed.

Lemma Inv_stop w : Inv w -> Inv (stop w).
Proof.
  intros H. unfold stop.
  apply Inv_foldl; [apply Inv_clearCallback|].
  apply Inv_foldl; [apply Inv_clearTimeoutWithDeletion|].
  apply (Inv_shrink w); unfold_ops; fields; auto.
  - destruct (tickHandle w); [apply delete_subseteq|done].
  - by destruct H.
Qed.

Lemma nextTicks_run_Callback cb w : nextTicks (run_Callback cb w) = nextTicks w.
Proof. by destruct cb as [s [t]|s data from]. Qed.

Lemma Stable_drain w : Inv w -> Stable (drain w).
Proof.
  unfold drain. intros H.
  assert (Stable (set_nextTicks [] w)) as Hs by (split; [by apply (Inv_ext w)|done]).
  revert Hs. generalize (set_nextTicks [] w). clear H.
  induction (nextTicks w) as [|cb l IH]; intros w' [H E]; [done|].
  cbn [foldl]. apply IH. split; [by apply Inv_run_Callback|].
  by rewrite nextTicks_run_Callback.
Qed.

Lemma Inv_iter n (f : World -> World) w :
  (forall w, Inv w -> Inv (f w)) -> Inv w -> Inv (Nat.iter n f w).
Proof. intros Hf H. induction n; [done|]. by apply Hf. Qed.

Lemma Inv_net_emit ty data from w : Inv w -> Inv (net_emit ty data from w).
Proof.
  intros H. destruct ty; cbn [net_emit]; apply Inv_iter; try done.
  - apply Inv_onPing.
  - apply Inv_onPingReq.
  - apply Inv_onAck.
Qed.

(** The invariant holds after every turn of the event loop. *)
Lemma Stable_step e w w' : Stable w -> step e w = Some w' -> Stable w'.
Proof.
  intros [H E] Hstep. destruct e as [| |dt|mb|id mb|ty data from]; cbn [step] in Hstep.
  - injection Hstep as <-. by apply Stable_drain, Inv_start.
  - injection Hstep as <-. by apply Stable_drain, Inv_stop.
  - injection Hstep as <-. split; [by apply (Inv_ext w)|done].
  - destruct (immediates w) as [|f rest] eqn:Ei; [done|]. injection Hstep as <-.
    apply Stable_drain, Inv_run_TimerFn.
    apply (Inv_shrink w); fields; auto.
    destruct H as [_ _ _ _ _ H _]. rewrite Ei in H. by inversion H.
  - destruct (timers w !! id) as [tm|] eqn:Et; [|done].
    destruct (due tm <=? clock w); [|done]. injection Hstep as <-.
    apply Stable_drain, Inv_run_TimerFn.
    destruct (period tm) as [p|].
    + destruct H as [H1 H2 H3 H4 Hp H5 H6]. split; fields; try done.
      * intros k i Hk. destruct (H1 k i Hk) as (?&?&Ht). repeat split; try done.
        intros tm' [[<- <-]|[_ Htm]]%lookup_insert_Some; [by apply (Ht tm)|by apply Ht].
      * intros k cb Hk. destruct (H2 k cb Hk) as (?&?&Ht). repeat split; try done.
        { by apply Ht. }
        destruct (Ht t) as [_ Ht']; [done|].
        intros tm' [[<- <-]|[_ Htm]]%lookup_insert_Some; [by apply (Ht' tm)|by apply Ht'].
      * intros i tm' [[<- <-]|[_ Htm]]%lookup_insert_Some; [by apply (H3 id tm)|by apply H3].
      * intros h Hh. destruct (H4 h Hh) as [? Ht]. split; [done|].
        intros tm' [[<- <-]|[_ Htm]]%lookup_insert_Some; [by apply (Ht tm)|by apply Ht].
      * intros i tm' [[<- <-]|[_ Htm]]%lookup_insert_Some; [done|by eapply Hp].
    + apply (Inv_clearTimeout (Some id) w H).
  - injection Hstep as <-. by apply Stable_drain, Inv_net_emit.
Qed.

Lemma Stable_run evs w w' : Stable w -> run evs w = Some w' -> Stable w'.
Proof.
  revert w. induction evs as [|e evs IH]; intros w H Hrun; cbn [run] in Hrun.
  - by injection Hrun as <-.
  - destruct (step e w) as [w1|] eqn:E; [|done]. eauto using Stable_step.
Qed.

Lemma reachable_Stable w : reachable w -> Stable w.
Proof.
  intros (opts & t0 & evs & Hrun). eapply Stable_run; [|done].
  split; [apply Inv_FailureDetector|done].
Qed.

(** ** What happens to one timer *)

Lemma grows_refl w : grows w w.
Proof. split; [done|]. split; [done|]. intros id _. right. by left. Qed.

Lemma grows_trans w1 w2 w3 : grows w1 w2 -> grows w2 w3 -> grows w1 w3.
Proof.
  intros (H1 & C1 & H2) (H3 & C2 & H4). split; [lia|]. split; [lia|].
  intros id Hid.
  destruct (H4 id) as [N2|[E2|R2]]; [lia|by left|..];
    destruct (H2 id Hid) as [N1|[E1|R1]].
  - left. congruence.
  - right. left. congruence.
  - right. right. by rewrite E2.
  - destruct R2 as (tm & tm' & ? & _). congruence.
  - right. right. by rewrite <- E1.
  - right. right.
    destruct R1 as (a & b & Ea & Eb & Hp & Ep & Ef).
    destruct R2 as (b' & c & Eb' & Ec & _ & Ep' & Ef').
    exists a, c. repeat split; try done; congruence.
Qed.

Lemma grows_gone w w' id :
  grows w w' -> id < nextId w -> timers w !! id = None -> timers w' !! id = None.
Proof.
  intros (_ & _ & H) Hid Hd. destruct (H id Hid) as [N|[E|R]]; [done|congruence|].
  destruct R as (tm & tm' & ? & _). congruence.
Qed.

Lemma grows_once w w' id tm :
  grows w w' -> timers w !! id = Some tm -> id < nextId w -> period tm = None ->
  timers w' !! id = Some tm \/ timers w' !! id = None.
Proof.
  intros (_ & _ & H) Ht Hid Hp. destruct (H id Hid) as [N|[E|R]].
  - by right.
  - left. congruence.
  - destruct R as (a & b & Ea & _ & [p Hs] & _). congruence.
Qed.

Lemma grows_shrink w w' :
  nextId w' = nextId w -> clock w <= clock w' -> timers w' ⊆ timers w -> grows w w'.
Proof.
  intros E Hc Hs. split; [lia|]. split; [done|]. intros id _.
  destruct (timers w' !! id) eqn:E'; [|by left].
  right. left. by rewrite (lookup_weaken _ _ _ _ E' Hs).
Qed.

Lemma grows_new_timer w w' tm :
  nextId w' = S (nextId w) -> clock w' = clock w ->
  timers w' = <[nextId w := tm]> (timers w) -> grows w w'.
Proof.
  intros E1 Ec E2. split; [lia|]. split; [lia|].
  intros id Hid. right. left. rewrite E2, lookup_insert_ne by lia. done.
Qed.

Lemma grows_clearTimeout h w : grows w (clearTimeout h w).
Proof. apply grows_shrink; [done..|]. unfold_ops; fields. destruct h; [apply delete_subseteq|done]. Qed.

Lemma grows_clearSeq s w : grows w (clearSeq s w).
Proof.
  apply grows_shrink; [done..|]. unfold_ops; fields.
  destruct (seqToTimeout w !! s); [apply delete_subseteq|done].
Qed.

Lemma grows_pingMember member w : grows w (pingMember member w).
Proof.
  destruct member as [m|]; [|apply grows_refl].
  by eapply grows_new_timer; unfold_ops; fields.
Qed.

Lemma grows_pingReqThroughMember member relayMember cb w :
  grows w (pingReqThroughMember member relayMember cb w).
Proof. by eapply grows_new_timer; unfold_ops; fields. Qed.

Lemma grows_foldl {A} (f : World -> A -> World) l w :
  (forall w a, grows w (f w a)) -> grows w (foldl f w l).
Proof.
  intros Hf. revert w. induction l as [|a l IH]; intros w; [apply grows_refl|].
  cbn [foldl]. eapply grows_trans; [apply Hf|apply IH].
Qed.

Lemma grows_pingReq mb member w : grows w (pingReq mb member w).
Proof.
  unfold pingReq. destruct (length (random mb (pingReqGroupSize w)) =? 0); [apply grows_refl|].
  cbn [setTimeout]. eapply grows_trans; [|apply grows_foldl; intros; apply grows_pingReqThroughMember].
  by eapply grows_new_timer; fields.
Qed.

Lemma grows_onPing data from w : grows w (onPing data from w).
Proof. by apply grows_shrink. Qed.

Lemma grows_onPingReq data from w : grows w (onPingReq data from w).
Proof. by eapply grows_new_timer; unfold_ops; fields. Qed.

Lemma grows_onAck data w : grows w (onAck data w).
Proof.
  unfold onAck. destruct (seqToCallback w !! data_seq data).
  - eapply grows_trans; [|apply grows_clearSeq]. by apply grows_shrink.
  - apply grows_clearSeq.
Qed.

Lemma grows_run_Callback cb w : grows w (run_Callback cb w).
Proof.
  destruct cb as [s [t]|s data from]; cbn [run_Callback run_RoundCallback].
  - eapply grows_trans; [apply grows_clearSeq|apply grows_clearTimeout].
  - eapply grows_trans; [apply grows_clearSeq|]. by apply grows_shrink; unfold_ops; fields.
Qed.

Lemma grows_run_TimerFn mb f w : grows w (run_TimerFn mb f w).
Proof.
  destruct f; cbn [run_TimerFn].
  - apply grows_pingMember.
  - eapply grows_trans; [apply grows_clearSeq|apply grows_pingReq].
  - by apply grows_shrink.
  - apply grows_clearSeq.
  - apply grows_clearSeq.
Qed.

Lemma grows_start w : grows w (start w).
Proof. by eapply grows_new_timer; unfold start; unfold_ops; fields. Qed.

Lemma grows_stop w : grows w (stop w).
Proof.
  unfold stop.
  eapply grows_trans; [|apply grows_foldl; intros; by apply grows_shrink].
  eapply grows_trans; [|apply grows_foldl].
  - apply grows_shrink; unfold_ops; fields; [done..|].
    destruct (tickHandle w); [apply delete_subseteq|done].
  - intros w' s. apply grows_shrink; unfold_ops; fields; [done..|].
    destruct (seqToTimeout w' !! s); [apply delete_subseteq|done].
Qed.

Lemma grows_drain w : grows w (drain w).
Proof.
  unfold drain. eapply grows_trans; [|apply grows_foldl; intros; apply grows_run_Callback].
  by apply grows_shrink.
Qed.

Lemma grows_iter n (f : World -> World) w :
  (forall w, grows w (f w)) -> grows w (Nat.iter n f w).
Proof.
  intros Hf. induction n; [apply grows_refl|]. eapply grows_trans; [apply IHn|apply Hf].
Qed.

Lemma grows_net_emit ty data from w : grows w (net_emit ty data from w).
Proof.
  destruct ty; cbn [net_emit]; apply grows_iter; intros.
  - apply grows_onPing.
  - apply grows_onPingReq.
  - apply grows_onAck.
Qed.

Lemma grows_step e w w' : step e w = Some w' -> grows w w'.
Proof.
  intros Hstep. destruct e as [| |dt|mb|id mb|ty data from]; cbn [step] in Hstep.
  - injection Hstep as <-. eapply grows_trans; [apply grows_start|apply grows_drain].
  - injection Hstep as <-. eapply grows_trans; [apply grows_stop|apply grows_drain].
  - injection Hstep as <-. apply grows_shrink; fields; [done|lia|done].
  - destruct (immediates w) as [|f rest]; [done|]. injection Hstep as <-.
    eapply grows_trans; [|apply grows_drain].
    eapply grows_trans; [|apply grows_run_TimerFn]. by apply grows_shrink.
  - destruct (timers w !! id) as [tm|] eqn:Et; [|done].
    destruct (due tm <=? clock w); [|done]. injection Hstep as <-.
    eapply grows_trans; [|apply grows_drain].
    eapply grows_trans; [|apply grows_run_TimerFn].
    destruct (period tm) as [p|] eqn:Ep.
    + split; [done|]. split; [done|]. fields.
      intros i _. right. destruct (decide (id = i)) as [<-|Hne].
      * right. exists tm, {| due := clock w + p; period := Some p; fn := fn tm |}.
        rewrite lookup_insert_eq, Ep. by repeat split.
      * left. by rewrite lookup_insert_ne.
    + apply grows_shrink; fields; [done..|apply delete_subseteq].
  - injection Hstep as <-. eapply grows_trans; [apply grows_net_emit|apply grows_drain].
Qed.

Lemma gone_never_fires t evs w w' :
  t < nextId w -> timers w !! t = None -> run evs w = Some w' ->
  Forall (fun e => is_Fire t e = false) evs /\ timers w' !! t = None /\ t < nextId w'.
Proof.
  revert w. induction evs as [|e evs IH]; intros w Hid Hd Hrun; cbn [run] in Hrun.
  - injection Hrun as <-. by repeat split.
  - destruct (step e w) as [w1|] eqn:E; [|done].
    pose proof (grows_step _ _ _ E) as Hg. pose proof Hg as (Hn & _).
    destruct (IH w1) as (H1 & H2 & H3); [lia|by eapply grows_gone|done|].
    repeat split; try done. constructor; [|done].
    destruct e; try done. cbn [is_Fire step] in *. apply bool_decide_eq_false.
    intros ->. by rewrite Hd in E.
Qed.

Section Keeps.
Variable t : nat.
Variable K : nat -> Prop.

Lemma keeps_refl w : guarded t K w -> keeps t K w w.
Proof. by split. Qed.

Lemma keeps_trans w1 w2 w3 :
  keeps t K w1 w2 -> (guarded t K w2 -> keeps t K w2 w3) -> keeps t K w1 w3.
Proof.
  intros (H1 & H2 & H3 & H4) H. destruct (H H2) as (H5 & H6 & H7 & H8).
  split; [congruence|]. split; [done|]. split; congruence.
Qed.

Lemma keeps_intro w w' :
  guarded t K w -> nextId w <= nextId w' ->
  timers w' !! t = timers w !! t ->
  (forall k, seqToTimeout w' !! k = Some t -> seqToTimeout w !! k = Some t) ->
  nextTicks w' = nextTicks w -> tickHandle w' = tickHandle w ->
  keeps t K w w'.
Proof.
  intros (H1 & H3) Hn Ht Hs Hq Hh. split; [done|]. split; [|done].
  split; [lia|]. eauto.
Qed.

Lemma keeps_clearTimeout h w :
  h <> Some t -> guarded t K w -> keeps t K w (clearTimeout h w).
Proof.
  intros Hh G. apply keeps_intro; unfold_ops; fields; try done.
  destruct h as [id|]; [|done]. apply lookup_delete_ne. congruence.
Qed.

Lemma keeps_clearSeq s w :
  ~ K s -> guarded t K w -> keeps t K w (clearSeq s w).
Proof.
  intros Hs G. apply keeps_intro; unfold_ops; fields; try done.
  - destruct (seqToTimeout w !! s) as [id|] eqn:E; [|done].
    apply lookup_delete_ne. intros ->. by apply Hs, G.
  - by intros k [_ ?]%lookup_delete_Some.
Qed.

Lemma keeps_pingMember member w :
  guarded t K w -> keeps t K w (pingMember member w).
Proof.
  intros G. destruct member as [m|]; [|by apply keeps_refl].
  pose proof G as (H1 & H3).
  apply keeps_intro; unfold_ops; fields; try done.
  - lia.
  - apply lookup_insert_ne. lia.
  - intros k [[_ ?]|[_ ?]]%lookup_insert_Some; [lia|done].
Qed.

Lemma keeps_pingReqThroughMember member relayMember cb w :
  guarded t K w -> keeps t K w (pingReqThroughMember member relayMember cb w).
Proof.
  intros G. pose proof G as (H1 & H3).
  apply keeps_intro; unfold_ops; fields; try done.
  - lia.
  - apply lookup_insert_ne. lia.
  - intros k [[_ ?]|[_ ?]]%lookup_insert_Some; [lia|done].
Qed.

Lemma keeps_foldl {A} (f : World -> A -> World) l w :
  (forall w a, guarded t K w -> keeps t K w (f w a)) ->
  guarded t K w -> keeps t K w (foldl f w l).
Proof.
  intros Hf. revert w. induction l as [|a l IH]; intros w G; [by apply keeps_refl|].
  cbn [foldl]. eapply keeps_trans; [by apply Hf|apply IH].
Qed.

Lemma keeps_pingReq mb member w :
  guarded t K w -> keeps t K w (pingReq mb member w).
Proof.
  intros G. unfold pingReq.
  destruct (length (random mb (pingReqGroupSize w)) =? 0); [by apply keeps_refl|].
  cbn [setTimeout].
  match goal with |- keeps _ _ _ (foldl _ ?W _) => apply (keeps_trans w W) end.
  - pose proof G as (H1 & H3).
    apply keeps_intro; fields; try done; [lia|].
    apply lookup_insert_ne. lia.
  - apply keeps_foldl. intros. by apply keeps_pingReqThroughMember.
Qed.

Lemma keeps_onPing data from w :
  guarded t K w -> keeps t K w (onPing data from w).
Proof. intros G. by apply keeps_intro; unfold_ops; fields. Qed.

Lemma keeps_onPingReq data from w :
  guarded t K w -> keeps t K w (onPingReq data from w).
Proof.
  intros G. pose proof G as (H1 & H3).
  apply keeps_intro; unfold_ops; fields; try done.
  - lia.
  - apply lookup_insert_ne. lia.
  - intros k [[_ ?]|[_ ?]]%lookup_insert_Some; [lia|done].
Qed.

Lemma keeps_run_Callback cb w :
  cb_timeout cb <> Some t -> ~ K (cb_seq cb) ->
  guarded t K w -> keeps t K w (run_Callback cb w).
Proof.
  intros Hcb Hs G. destruct cb as [s [t']|s data from]; cbn [run_Callback run_RoundCallback].
  - eapply keeps_trans; [by apply keeps_clearSeq|].
    apply keeps_clearTimeout. cbn in Hcb. congruence.
  - eapply keeps_trans; [by apply keeps_clearSeq|]. intros G'.
    by apply keeps_intro; unfold_ops; fields.
Qed.

Lemma keeps_run_TimerFn mb f w :
  (forall s, owner f = OwnSeq s -> ~ K s) ->
  guarded t K w -> keeps t K w (run_TimerFn mb f w).
Proof.
  intros Hs G. destruct f; cbn [run_TimerFn].
  - by apply keeps_pingMember.
  - eapply keeps_trans; [apply keeps_clearSeq; [by apply Hs|done]|apply keeps_pingReq].
  - by apply keeps_intro; unfold_ops; fields.
  - apply keeps_clearSeq; [by apply Hs|done].
  - apply keeps_clearSeq; [by apply Hs|done].
Qed.

Lemma keeps_iter n (f : World -> World) w :
  (forall w, guarded t K w -> keeps t K w (f w)) ->
  guarded t K w -> keeps t K w (Nat.iter n f w).
Proof.
  intros Hf G. induction n; [by apply keeps_refl|].
  cbn [Nat.iter]. eapply keeps_trans; [apply IHn|apply Hf].
Qed.

(** [start()] and [stop()] set [tickHandle]. *)
Lemma start_keeps w :
  guarded t K w ->
  timers (start w) !! t = timers w !! t /\ guarded t K (start w) /\
  nextTicks (start w) = nextTicks w /\ tickHandle (start w) = Some (nextId w).
Proof.
  intros (H1 & H3). unfold start; unfold_ops; fields.
  split; [apply lookup_insert_ne; lia|]. split; [|done]. split; fields; [lia|done].
Qed.

Lemma stop_keeps w :
  tickHandle w <> Some t -> (forall k, ~ K k) -> guarded t K w ->
  timers (stop w) !! t = timers w !! t /\ guarded t K (stop w) /\
  nextTicks (stop w) = nextTicks w /\ tickHandle (stop w) = None.
Proof.
  intros Hh HK G. unfold stop. cbv zeta.
  match goal with
  | |- context [foldl _ (foldl _ ?W ?l) _] =>
      assert (timers W !! t = timers w !! t /\ guarded t K W /\
              nextTicks W = nextTicks w /\ tickHandle W = None) as (E1 & G1 & Q1 & T1);
        [|assert (keeps t K W (foldl clearTimeoutWithDeletion W l)) as (E2 & G2 & Q2 & T2);
           [|match goal with
             | |- context [foldl clearCallback ?W2 ?l2] =>
                 assert (keeps t K W2 (foldl clearCallback W2 l2)) as (E3 & G3 & Q3 & T3)
             end]]
  end.
  - unfold_ops; fields. split; [|done].
    destruct (tickHandle w) as [h|] eqn:E; [|done].
    apply lookup_delete_ne. congruence.
  - apply keeps_foldl; [|done]. intros w' s G'. pose proof G' as (H1 & H3).
    apply keeps_intro; unfold_ops; fields; try done.
    + destruct (seqToTimeout w' !! s) as [id|] eqn:E; [|done].
      apply lookup_delete_ne. intros ->. by eapply HK, H3.
    + by intros k [_ ?]%lookup_delete_Some.
  - apply keeps_foldl; [|done]. intros w' s G'.
    by apply keeps_intro; unfold_ops; fields.
  - split; [congruence|]. split; [done|]. split; congruence.
Qed.
End Keeps.

(** ** Turns of the event loop, computed *)

Lemma drain_nil w : nextTicks w = [] -> drain w = w.
Proof. unfold drain. intros H. rewrite H. destruct w; fields. by subst. Qed.

Lemma clearSeq_idem s w : clearSeq s (clearSeq s w) = clearSeq s w.
Proof.
  unfold_ops. destruct w; fields. by rewrite !lookup_delete_eq, !delete_delete_eq.
Qed.

Lemma clearSeq_unknown s w :
  seqToTimeout w !! s = None -> seqToCallback w !! s = None -> clearSeq s w = w.
Proof.
  intros H1 H2. unfold_ops. destruct w; fields. by rewrite H1, !delete_id.
Qed.

Lemma clearSeq_cleared s w :
  seqToTimeout (clearSeq s w) !! s = None /\ seqToCallback (clearSeq s w) !! s = None.
Proof. unfold_ops; fields. by rewrite !lookup_delete_eq. Qed.

Lemma onAck_unknown data w :
  seqToTimeout w !! data_seq data = None -> seqToCallback w !! data_seq data = None ->
  onAck data w = w.
Proof. intros H1 H2. unfold onAck. rewrite H2. by apply clearSeq_unknown. Qed.

Lemma iter_fixed n (f : World -> World) w : f w = w -> Nat.iter n f w = w.
Proof. intros H. induction n; [done|]. by rewrite Nat.iter_succ, IHn. Qed.

(** However often the listener is registered, an [Ack] is handled once: the
    first call clears the sequence and the others find nothing. *)
Lemma net_emit_Ack data from w :
  0 < ackListeners w -> net_emit Ack data from w = onAck data w.
Proof.
  intros Hn. cbn [net_emit]. destruct (ackListeners w) as [|n]; [lia|].
  rewrite Nat.iter_succ_r. apply iter_fixed.
  unfold onAck at 2 3.
  destruct (clearSeq_cleared (data_seq data)
              (match seqToCallback w !! data_seq data with
               | Some cb => nextTick cb w
               | None => w
               end)) as [H1 H2].
  by apply onAck_unknown.
Qed.

Lemma drain_onAck data w :
  nextTicks w = [] ->
  drain (onAck data w) =
  match seqToCallback w !! data_seq data with
  | Some cb => run_Callback cb (clearSeq (data_seq data) w)
  | None => clearSeq (data_seq data) w
  end.
Proof.
  intros Hq. unfold onAck, drain.
  destruct (seqToCallback w !! data_seq data) as [cb|].
  - unfold_ops; fields. rewrite Hq. cbn [app foldl]. f_equal.
    destruct w; fields. by subst.
  - unfold_ops; fields. rewrite Hq. cbn [foldl]. destruct w; fields. by subst.
Qed.

Lemma drain_net_emit_Ack data from w :
  nextTicks w = [] ->
  drain (net_emit Ack data from w) =
  if ackListeners w =? 0 then w
  else match seqToCallback w !! data_seq data with
       | Some cb => run_Callback cb (clearSeq (data_seq data) w)
       | None => clearSeq (data_seq data) w
       end.
Proof.
  intros Hq. destruct (ackListeners w =? 0) eqn:E.
  - apply Nat.eqb_eq in E. unfold net_emit. rewrite E. by apply drain_nil.
  - apply Nat.eqb_neq in E. rewrite net_emit_Ack by lia. by apply drain_onAck.
Qed.

Lemma step_Recv_Ack data from w :
  nextTicks w = [] ->
  step (Recv Ack data from) w =
  Some (if ackListeners w =? 0 then w
        else match seqToCallback w !! data_seq data with
             | Some cb => run_Callback cb (clearSeq (data_seq data) w)
             | None => clearSeq (data_seq data) w
             end).
Proof.
  intros Hq. rewrite <- (drain_net_emit_Ack data from) by done. reflexivity.
Qed.

(** ** The fate of a timer over one turn *)

Lemma keeps_drain_nil t K w w' :
  nextTicks w = [] -> keeps t K w w' -> keeps t K w (drain w').
Proof.
  intros Hq H. rewrite drain_nil; [done|]. destruct H as (_ & _ & -> & _). done.
Qed.

Lemma step_keeps t K e w w' :
  nextTicks w = [] -> guarded t K w -> spares t K w e ->
  is_Fire t e = false -> step e w = Some w' ->
  timers w' !! t = timers w !! t /\ guarded t K w' /\
  nextTicks w' = [] /\ tickHandle w' = tick_after e w.
Proof.
  intros Hq G Hsp Hf Hstep.
  assert (forall w1, keeps t K w w1 ->
            timers w1 !! t = timers w !! t /\ guarded t K w1 /\
            nextTicks w1 = [] /\ tickHandle w1 = tickHandle w) as Hk.
  { intros w1 (H1 & H2 & H3 & H4). split; [done|]. split; [done|]. split; congruence. }
  destruct e as [| |dt|mb|id mb|ty data from]; cbn [step spares tick_after] in *.
  - injection Hstep as <-. destruct (start_keeps t K w G) as (H1 & H2 & H3 & H4).
    rewrite drain_nil by congruence. split; [done|]. split; [done|]. split; congruence.
  - injection Hstep as <-. destruct Hsp as [Hh HK].
    destruct (stop_keeps t K w Hh HK G) as (H1 & H2 & H3 & H4).
    rewrite drain_nil by congruence. split; [done|]. split; [done|]. split; congruence.
  - injection Hstep as <-. apply Hk. by apply keeps_intro.
  - destruct (immediates w) as [|f rest] eqn:Ei; [done|]. injection Hstep as <-.
    apply Hk, keeps_drain_nil; [done|].
    apply (keeps_trans t K w (set_immediates rest w)).
    + by apply keeps_intro.
    + apply keeps_run_TimerFn. intros s. apply Hsp. left.
  - destruct (timers w !! id) as [tm|] eqn:Et; [|done].
    destruct (due tm <=? clock w); [|done]. injection Hstep as <-.
    apply bool_decide_eq_false in Hf.
    apply Hk, keeps_drain_nil; [done|].
    match goal with |- keeps _ _ _ (run_TimerFn _ _ ?W) => apply (keeps_trans t K w W) end.
    + apply keeps_intro; try done; destruct (period tm); fields; try done;
        [by apply lookup_insert_ne|by apply lookup_delete_ne].
    + apply keeps_run_TimerFn. by eauto.
  - injection Hstep as <-. apply Hk. destruct ty.
    + cbn [net_emit]. apply keeps_drain_nil; [done|].
      apply keeps_iter; [|done]. intros. by apply keeps_onPing.
    + cbn [net_emit]. apply keeps_drain_nil; [done|].
      apply keeps_iter; [|done]. intros. by apply keeps_onPingReq.
    + rewrite drain_net_emit_Ack by done.
      destruct (ackListeners w =? 0) eqn:En; [by apply keeps_refl|].
      apply Nat.eqb_neq in En. destruct Hsp as [HK Hcb]; [lia|].
      destruct (seqToCallback w !! data_seq data) as [cb|].
      * destruct (Hcb cb eq_refl) as [Hc1 Hc2].
        eapply keeps_trans; [by apply keeps_clearSeq|].
        apply keeps_run_Callback; [done|by rewrite Hc2].
      * by apply keeps_clearSeq.
Qed.

(** A repeating timer that fires stays in the table. *)
Lemma step_Fire_periodic t K mb w w' tm p :
  nextTicks w = [] -> guarded t K w ->
  timers w !! t = Some tm -> period tm = Some p -> fn tm = ping_bound ->
  step (Fire t mb) w = Some w' ->
  timers w' !! t = Some {| due := clock w + p; period := Some p; fn := ping_bound |} /\
  guarded t K w' /\ nextTicks w' = [] /\ tickHandle w' = tickHandle w.
Proof.
  intros Hq G Ht Hp Hf Hstep. cbn [step] in Hstep. rewrite Ht, Hp, Hf in Hstep.
  destruct (due tm <=? clock w); [|done]. injection Hstep as <-.
  match goal with |- context [ping _ ?W] => set (w1 := W) end.
  assert (keeps t K w1 (drain (run_TimerFn mb ping_bound w1))) as (H1 & H2 & H3 & H4).
  { apply keeps_drain_nil; [done|]. apply keeps_run_TimerFn; [done|]. apply G. }
  cbn [run_TimerFn] in *. rewrite H1, H3, H4. subst w1; fields.
  by rewrite lookup_insert_eq.
Qed.


(** ** Runs *)

Lemma grows_run evs w w' : run evs w = Some w' -> grows w w'.
Proof.
  revert w. induction evs as [|e evs IH]; intros w Hrun; cbn [run] in Hrun.
  - injection Hrun as <-. apply grows_refl.
  - destruct (step e w) as [w1|] eqn:E; [|done].
    eapply grows_trans; [by eapply grows_step|by apply IH].
Qed.

Lemma run_cons e evs w :
  run (e :: evs) w = match step e w with
                     | Some w' => run evs w'
                     | None => None
                     end.
Proof. reflexivity. Qed.

Lemma step_CallStart w : nextTicks w = [] -> step CallStart w = Some (start w).
Proof. intros Hq. unfold step. by rewrite drain_nil. Qed.

(** [start()] puts a fresh repeating timer that runs [ping] in [tickHandle]. *)
Lemma start_schedule w :
  tickHandle (start w) = Some (nextId w) /\
  timers (start w) !! nextId w
  = Some {| due := clock w + timer_delay (interval w);
            period := Some (timer_delay (interval w)); fn := ping_bound |}.
Proof.
  split; [reflexivity|]. unfold start; unfold_ops; fields. apply lookup_insert_eq.
Qed.

Lemma run_app evs1 evs2 w :
  run (evs1 ++ evs2) w = match run evs1 w with
                         | Some w1 => run evs2 w1
                         | None => None
                         end.
Proof.
  revert w. induction evs1 as [|e evs1 IH]; intros w; cbn [run app]; [done|].
  by destruct (step e w).
Qed.

(** A one-shot timer is not fired before it is due. *)
Lemma not_due_not_fired t tm evs w w' :
  timers w !! t = Some tm -> t < nextId w -> period tm = None ->
  run evs w = Some w' -> clock w' < due tm ->
  Forall (fun e => is_Fire t e = false) evs.
Proof.
  revert w. induction evs as [|e evs IH]; intros w Ht Hid Hp Hrun Hc; [constructor|].
  cbn [run] in Hrun. destruct (step e w) as [w1|] eqn:E; [|done].
  pose proof (grows_step _ _ _ E) as G1. pose proof (grows_run _ _ _ Hrun) as (_ & C2 & _).
  constructor.
  - destruct e; try done. cbn [is_Fire]. apply bool_decide_eq_false. intros ->.
    cbn [step] in E. rewrite Ht in E.
    destruct (due tm <=? clock w) eqn:Ed; [|done].
    apply Nat.leb_le in Ed. destruct G1 as (_ & C1 & _). lia.
  - destruct (grows_once _ _ _ _ G1 Ht Hid Hp) as [Hk|Hg].
    + apply (IH w1); try done. destruct G1 as (? & _). lia.
    + eapply gone_never_fires; [|exact Hg|exact Hrun]. destruct G1 as (? & _). lia.
Qed.

(** *** Guards from the invariant *)

Lemma guarded_round t tm w :
  Inv w -> timers w !! t = Some tm -> owner (fn tm) = OwnRound ->
  guarded t (fun _ => False) w /\ tickHandle w <> Some t.
Proof.
  intros H Ht Hown. split; [split; [by apply (inv_timers w H t tm)|]|].
  - intros k Hk. destruct (inv_timeout w H k t Hk) as (_ & _ & Ho).
    specialize (Ho tm Ht). congruence.
  - intros Hh. destruct (inv_tick w H t Hh) as [_ Ho]. specialize (Ho tm Ht). congruence.
Qed.

Lemma guarded_tick t tm w :
  Inv w -> timers w !! t = Some tm -> owner (fn tm) = OwnTick ->
  guarded t (fun _ => False) w.
Proof.
  intros H Ht Hown. split; [by apply (inv_timers w H t tm)|].
  intros k Hk. destruct (inv_timeout w H k t Hk) as (_ & _ & Ho).
  specialize (Ho tm Ht). congruence.
Qed.

Lemma guarded_seq t tm s w :
  Inv w -> timers w !! t = Some tm -> owner (fn tm) = OwnSeq s ->
  guarded t (fun k => k = s) w.
Proof.
  intros H Ht Hown. split; [by apply (inv_timers w H t tm)|].
  intros k Hk. destruct (inv_timeout w H k t Hk) as (_ & _ & Ho).
  specialize (Ho tm Ht). congruence.
Qed.

(** *** The suspicion timer of a round *)

(** Only its own firing and the callback of one of its relay legs take a
    suspicion timer out of the table. *)
Lemma round_timer_step t tm e w w' :
  Stable w -> timers w !! t = Some tm -> owner (fn tm) = OwnRound ->
  is_Fire t e = false -> acks_round t w e = false ->
  step e w = Some w' -> timers w' !! t = Some tm.
Proof.
  intros [H Hq] Ht Hown Hf Ha Hstep.
  destruct (guarded_round t tm w H Ht Hown) as [G Hh].
  destruct (step_keeps t (fun _ => False) e w w') as (E & _); try done.
  - destruct e as [| |dt|mb|id mb|ty data from]; cbn [spares]; auto.
    destruct ty; [done..|]. intros Hn. split; [auto|]. intros cb Hcb.
    destruct (inv_callback w H _ cb Hcb) as (_ & Hs & _). split; [|done].
    cbn [acks_round] in Ha. rewrite Hcb in Ha.
    apply Nat.ltb_lt in Hn. rewrite Hn in Ha. by apply bool_decide_eq_false in Ha.
  - congruence.
Qed.

Lemma round_timer_run t tm evs w w' :
  Stable w -> timers w !! t = Some tm -> owner (fn tm) = OwnRound ->
  run evs w = Some w' ->
  Forall (fun e => is_Fire t e = false) evs ->
  along (fun w e => negb (acks_round t w e)) evs w = true ->
  timers w' !! t = Some tm.
Proof.
  revert w. induction evs as [|e evs IH]; intros w Hs Ht Hown Hrun Hf Ha;
    cbn [run along] in *.
  - by injection Hrun as <-.
  - destruct (step e w) as [w1|] eqn:E; [|done].
    apply andb_true_iff in Ha as [Ha1 Ha2]. apply negb_true_iff in Ha1.
    apply Forall_cons in Hf as [Hf1 Hf2].
    apply (IH w1); try done; [by eapply Stable_step|by eapply round_timer_step].
Qed.

(** The callback of a relay leg cancels the suspicion timer of its round. *)
Lemma acks_round_cancels t e w w' :
  nextTicks w = [] -> acks_round t w e = true -> step e w = Some w' ->
  timers w' !! t = None.
Proof.
  intros Hq Ha Hstep. destruct e as [| |dt|mb|id mb|ty data from]; try done.
  destruct ty; try done. cbn [acks_round] in Ha.
  apply andb_true_iff in Ha as [Hn Ha]. apply Nat.ltb_lt in Hn.
  destruct (seqToCallback w !! data_seq data) as [cb|] eqn:Hcb; [|done].
  apply bool_decide_eq_true in Ha.
  rewrite step_Recv_Ack in Hstep by done.
  destruct (ackListeners w =? 0) eqn:E; [apply Nat.eqb_eq in E; lia|].
  rewrite Hcb in Hstep. injection Hstep as <-.
  destruct cb as [s [t']|s d f]; [|done]. injection Ha as ->.
  unfold_ops; fields. apply lookup_delete_eq.
Qed.

(** *** A repeating timer that [tickHandle] no longer holds *)

Lemma interval_step h tm e w w' :
  Stable w -> timers w !! h = Some tm -> fn tm = ping_bound ->
  is_CallStop e = false \/ tickHandle w <> Some h ->
  step e w = Some w' ->
  (exists tm', timers w' !! h = Some tm' /\ fn tm' = ping_bound /\
               period tm' = period tm) /\
  tickHandle w' = tick_after e w.
Proof.
  intros [H Hq] Ht Hfn Hh Hstep.
  assert (owner (fn tm) = OwnTick) as Hown by (by rewrite Hfn).
  pose proof (guarded_tick h tm w H Ht Hown) as G.
  destruct (is_Fire h e) eqn:Hf.
  - destruct e; try done. cbn [is_Fire] in Hf. apply bool_decide_eq_true in Hf as ->.
    destruct (inv_period w H h tm Ht Hown) as [p Hp].
    destruct (step_Fire_periodic h _ mb w w' tm p Hq G Ht Hp Hfn Hstep)
      as (E & _ & _ & T).
    split; [|done]. eexists. split; [exact E|]. by cbn.
  - destruct (step_keeps h (fun _ => False) e w w') as (E & _ & _ & T); try done.
    + destruct e as [| |dt|mb|id mb|ty data from]; cbn [spares]; auto.
      * destruct Hh as [?|?]; [done|]. split; auto.
      * destruct ty; [done..|]. intros Hn. split; [auto|]. intros cb Hcb.
        destruct (inv_callback w H _ cb Hcb) as (_ & Hs & Hc). split; [|done].
        intros Hcbt. destruct (Hc h Hcbt) as [_ Ho]. specialize (Ho tm Ht). congruence.
    + split; [|done]. exists tm. by rewrite E.
Qed.

(** While [tickHandle] holds a live schedule and neither [start()] nor
    [stop()] is called, it keeps holding it. *)
Lemma active_schedule_run h tm evs w w' :
  Stable w -> tickHandle w = Some h -> timers w !! h = Some tm ->
  Forall (fun e => is_CallStart e = false /\ is_CallStop e = false) evs ->
  run evs w = Some w' ->
  tickHandle w' = Some h /\ is_Some (timers w' !! h).
Proof.
  revert w tm. induction evs as [|e evs IH]; intros w tm Hs Hh Ht Hf Hrun;
    cbn [run] in Hrun.
  - injection Hrun as <-. by split.
  - destruct (step e w) as [w1|] eqn:E; [|done].
    apply Forall_cons in Hf as [[Hf1 Hf2] Hf3].
    destruct (inv_tick w (proj1 Hs) h Hh) as [_ Hown]. specialize (Hown tm Ht).
    assert (fn tm = ping_bound) as Hfn by (by destruct (fn tm)).
    destruct (interval_step h tm e w w1) as [(tm1 & H1 & _) H2]; try done; [by left|].
    apply (IH w1 tm1); try done; [by eapply Stable_step|].
    rewrite H2. by destruct e.
Qed.

Lemma leaked_interval_step h tm e w w' :
  Stable w -> timers w !! h = Some tm -> fn tm = ping_bound ->
  tickHandle w <> Some h -> step e w = Some w' ->
  exists tm', timers w' !! h = Some tm' /\ fn tm' = ping_bound /\
              period tm' = period tm /\ tickHandle w' <> Some h.
Proof.
  intros Hs Ht Hfn Hh Hstep.
  destruct (interval_step h tm e w w') as [(tm' & H1 & H2 & H3) H4]; try done; [by right|].
  exists tm'. repeat split; try done. rewrite H4.
  destruct (inv_timers w (proj1 Hs) h tm Ht) as [Hlt _].
  destruct e; cbn [tick_after]; try done. intros [= ?]. lia.
Qed.

Lemma leaked_interval_run h tm evs w w' :
  Stable w -> timers w !! h = Some tm -> fn tm = ping_bound ->
  tickHandle w <> Some h -> run evs w = Some w' ->
  exists tm', timers w' !! h = Some tm' /\ fn tm' = ping_bound /\
              period tm' = period tm /\ tickHandle w' <> Some h.
Proof.
  revert w tm. induction evs as [|e evs IH]; intros w tm Hs Ht Hfn Hh Hrun;
    cbn [run] in Hrun.
  - injection Hrun as <-. by exists tm.
  - destruct (step e w) as [w1|] eqn:E; [|done].
    destruct (leaked_interval_step h tm e w w1) as (tm1 & H1 & H2 & H3 & H4); try done.
    destruct (IH w1 tm1) as (tm' & H5 & H6 & H7 & H8); try done.
    + by eapply Stable_step.
    + exists tm'. repeat split; try done. congruence.
Qed.

(** *** The timer of a direct probe *)

Lemma probe_timer_step t tm s e w w' :
  Stable w -> timers w !! t = Some tm -> owner (fn tm) = OwnSeq s ->
  is_Fire t e = false -> is_CallStop e = false -> acks_seq s w e = false ->
  step e w = Some w' -> timers w' !! t = Some tm.
Proof.
  intros [H Hq] Ht Hown Hf Hst Ha Hstep.
  destruct (step_keeps t (fun k => k = s) e w w') as (E & _); try done.
  - by eapply guarded_seq.
  - destruct e as [| |dt|mb|id mb|ty data from]; cbn [spares]; try done.
    + intros f s' Hin Ho ->.
      pose proof (inv_immediates w H) as Hi. rewrite Forall_forall in Hi.
      rewrite <- (Hi f Hin) in Ho. done.
    + intros tm' s' Ht' Ho ->.
      destruct (inv_timers w H id tm' Ht') as [_ H1]. specialize (H1 s Ho).
      destruct (inv_timers w H t tm Ht) as [_ H2]. specialize (H2 s Hown).
      cbn [is_Fire] in Hf. apply bool_decide_eq_false in Hf. congruence.
    + destruct ty; [done..|]. intros Hn. cbn [acks_seq] in Ha.
      apply Nat.ltb_lt in Hn. rewrite Hn in Ha. cbn in Ha. apply Nat.eqb_neq in Ha.
      split; [done|]. intros cb Hcb.
      destruct (inv_callback w H _ cb Hcb) as (_ & Hs & Hc). split; [|done].
      intros Hcbt. destruct (Hc t Hcbt) as [_ Ho]. specialize (Ho tm Ht). congruence.
  - congruence.
Qed.

Lemma probe_timer_run t tm s evs w w' :
  Stable w -> timers w !! t = Some tm -> owner (fn tm) = OwnSeq s ->
  run evs w = Some w' ->
  along (fun w e => negb (is_Fire t e) && negb (is_CallStop e) && negb (acks_seq s w e))
        evs w = true ->
  timers w' !! t = Some tm.
Proof.
  revert w. induction evs as [|e evs IH]; intros w Hs Ht Hown Hrun Ha;
    cbn [run along] in *.
  - by injection Hrun as <-.
  - destruct (step e w) as [w1|] eqn:E; [|done].
    apply andb_true_iff in Ha as [Ha1 Ha2].
    apply andb_true_iff in Ha1 as [Ha1 Ha3]. apply andb_true_iff in Ha1 as [Ha1 Ha4].
    apply negb_true_iff in Ha1, Ha3, Ha4.
    apply (IH w1); try done; [by eapply Stable_step|by eapply probe_timer_step].
Qed.

(** *** Firing a one-shot timer *)

Lemma nextTicks_foldl {A} (f : World -> A -> World) l w :
  (forall w a, nextTicks (f w a) = nextTicks w) -> nextTicks (foldl f w l) = nextTicks w.
Proof.
  intros Hf. revert w. induction l as [|a l IH]; intros w; [done|].
  cbn [foldl]. by rewrite IH, Hf.
Qed.

Lemma nextTicks_pingReq mb member w : nextTicks (pingReq mb member w) = nextTicks w.
Proof.
  unfold pingReq. destruct (length (random mb (pingReqGroupSize w)) =? 0); [done|].
  cbn [setTimeout]. by rewrite nextTicks_foldl.
Qed.

Lemma nextTicks_run_TimerFn mb f w : nextTicks (run_TimerFn mb f w) = nextTicks w.
Proof.
  destruct f; cbn [run_TimerFn]; try done.
  - unfold ping. by destruct (next mb).
  - by rewrite nextTicks_pingReq.
Qed.

Lemma step_Fire_once t tm mb w :
  nextTicks w = [] -> timers w !! t = Some tm -> period tm = None ->
  due tm <= clock w ->
  step (Fire t mb) w = Some (run_TimerFn mb (fn tm) (clearTimeout (Some t) w)).
Proof.
  intros Hq Ht Hp Hd. cbn [step]. rewrite Ht, Hp.
  apply Nat.leb_le in Hd. rewrite Hd. f_equal. apply drain_nil.
  by rewrite nextTicks_run_TimerFn.
Qed.

(** *** What [stop()] cancels *)

Lemma foldl_preserves {A} (P : World -> Prop) (f : World -> A -> World) l w :
  (forall w a, P w -> P (f w a)) -> P w -> P (foldl f w l).
Proof.
  intros Hf. revert w. induction l as [|a l IH]; intros w H; [done|].
  cbn [foldl]. by apply IH, Hf.
Qed.

Lemma stop_cancels_schedule h w :
  tickHandle w = Some h ->
  tickHandle (stop w) = None /\ timers (stop w) !! h = None.
Proof.
  intros Hh. unfold stop. cbv zeta.
  apply (foldl_preserves (fun w => tickHandle w = None /\ timers w !! h = None)).
  { intros w' s [H1 H2]. by unfold_ops; fields. }
  apply (foldl_preserves (fun w => tickHandle w = None /\ timers w !! h = None)).
  { intros w' s [H1 H2]. unfold_ops; fields. split; [done|].
    destruct (seqToTimeout w' !! s); [|done]. apply lookup_delete_None. by right. }
  unfold_ops; fields. rewrite Hh. split; [done|]. apply lookup_delete_eq.
Qed.

(** *** The log of [Suspect] events *)

Lemma emitted_foldl {A} (f : World -> A -> World) l w :
  (forall w a, emitted (f w a) = emitted w) -> emitted (foldl f w l) = emitted w.
Proof.
  intros Hf. revert w. induction l as [|a l IH]; intros w; [done|].
  cbn [foldl]. by rewrite IH, Hf.
Qed.

Lemma emitted_iter n (f : World -> World) w :
  (forall w, emitted (f w) = emitted w) -> emitted (Nat.iter n f w) = emitted w.
Proof. intros Hf. induction n; [done|]. by rewrite Nat.iter_succ, Hf. Qed.

Lemma emitted_pingReq mb member w : emitted (pingReq mb member w) = emitted w.
Proof.
  unfold pingReq. destruct (length (random mb (pingReqGroupSize w)) =? 0); [done|].
  cbn [setTimeout]. by rewrite emitted_foldl.
Qed.

Lemma emitted_stop w : emitted (stop w) = emitted w.
Proof. unfold stop. cbv zeta. by rewrite !emitted_foldl. Qed.

Lemma emitted_run_Callback cb w : emitted (run_Callback cb w) = emitted w.
Proof. by destruct cb as [s [t]|s data from]. Qed.

Lemma emitted_drain w : emitted (drain w) = emitted w.
Proof. unfold drain. rewrite emitted_foldl; [done|]. intros. apply emitted_run_Callback. Qed.

Lemma emitted_net_emit ty data from w : emitted (net_emit ty data from w) = emitted w.
Proof.
  destruct ty; cbn [net_emit]; apply emitted_iter; intros w'; try done.
  unfold onAck. by destruct (seqToCallback w' !! data_seq data).
Qed.

(** [Suspect] is emitted by the firing of a suspicion timer and by nothing
    else. *)
Lemma step_emitted e w w' :
  Inv w -> step e w = Some w' ->
  emitted w' = emitted w \/
  exists id mb tm member,
    e = Fire id mb /\ timers w !! id = Some tm /\ fn tm = pingReqTimeout_fn member /\
    emitted w' = emitted w ++ [member].
Proof.
  intros H Hstep. destruct e as [| |dt|mb|id mb|ty data from]; cbn [step] in Hstep.
  - injection Hstep as <-. left. by rewrite emitted_drain.
  - injection Hstep as <-. left. by rewrite emitted_drain, emitted_stop.
  - injection Hstep as <-. by left.
  - destruct (immediates w) as [|f rest] eqn:Ei; [done|]. injection Hstep as <-.
    rewrite emitted_drain. pose proof (inv_immediates w H) as Hi.
    rewrite Ei in Hi. apply Forall_cons in Hi as [<- _]. cbn [run_TimerFn].
    left. unfold ping. by destruct (next mb).
  - destruct (timers w !! id) as [tm|] eqn:Et; [|done].
    destruct (due tm <=? clock w); [|done]. injection Hstep as <-.
    rewrite emitted_drain.
    assert (forall w1, emitted w1 = emitted w ->
              emitted (run_TimerFn mb (fn tm) w1) = emitted w \/
              exists member, fn tm = pingReqTimeout_fn member /\
                emitted (run_TimerFn mb (fn tm) w1) = emitted w ++ [member]) as Hrun.
    { intros w1 E1. destruct (fn tm) as [|s m|m|s|s]; cbn [run_TimerFn].
      - left. unfold ping. by destruct (next mb).
      - left. by rewrite emitted_pingReq.
      - right. exists m. split; [done|]. unfold_ops; fields. by rewrite E1.
      - by left.
      - by left. }
    match goal with |- context [run_TimerFn mb (fn tm) ?W] =>
      destruct (Hrun W) as [E|(m & Hm & E)] end.
    + by destruct (period tm).
    + by left.
    + right. exists id, mb, tm, m. done.
  - injection Hstep as <-. left. by rewrite emitted_drain, emitted_net_emit.
Qed.

(** *** The relay legs of a round *)

Lemma legs_below member callback l w k :
  k < seq w ->
  seqToCallback (foldl (fun w relayMember =>
                          pingReqThroughMember member relayMember callback w) w l) !! k
  = seqToCallback w !! k.
Proof.
  revert w. induction l as [|r l IH]; intros w Hk; [done|].
  cbn [foldl]. rewrite IH by (unfold_ops; fields; lia).
  unfold_ops; fields. apply lookup_insert_ne. lia.
Qed.

Lemma legs_callbacks member callback l w i relayMember :
  l !! i = Some relayMember ->
  seqToCallback (foldl (fun w relayMember =>
                          pingReqThroughMember member relayMember callback w) w l)
    !! (seq w + i)
  = Some (pingReqAckReceiveCallback (seq w + i) callback).
Proof.
  revert w i. induction l as [|r l IH]; intros w i Hi; [done|].
  cbn [foldl]. destruct i as [|i].
  - rewrite Nat.add_0_r, legs_below by (unfold_ops; fields; lia).
    unfold_ops; fields. apply lookup_insert_eq.
  - cbn in Hi.
    replace (seq w + S i) with (seq (pingReqThroughMember member r callback w) + i)
      by (unfold_ops; fields; lia).
    by apply IH.
Qed.

(** What [pingReq] sets up when there is a relay. *)
Lemma pingReq_round mb member w :
  Inv w -> random mb (pingReqGroupSize w) <> [] ->
  timers (pingReq mb member w) !! nextId w
    = Some {| due := clock w + timer_delay (pingReqTimeout w); period := None;
              fn := pingReqTimeout_fn member |} /\
  forall i relayMember,
    random mb (pingReqGroupSize w) !! i = Some relayMember ->
    seqToCallback (pingReq mb member w) !! (seq w + i)
    = Some (pingReqAckReceiveCallback (seq w + i)
              (pingReqThroughMemberCallback (nextId w))).
Proof.
  intros H Hne. unfold pingReq.
  destruct (random mb (pingReqGroupSize w)) as [|r l] eqn:Er; [done|].
  cbn [length Nat.eqb setTimeout]. split.
  - match goal with |- timers (foldl ?f ?W ?l) !! _ = _ =>
      destruct (keeps_foldl (nextId w) (fun _ => False) f l W) as (E & _)
    end.
    + intros w' a G. by apply keeps_pingReqThroughMember.
    + split; fields; [lia|].
      intros k Hk. destruct (inv_timeout w H _ _ Hk) as (_ & ? & _). lia.
    + rewrite E. fields. apply lookup_insert_eq.
  - intros i relayMember Hi.
    match goal with |- seqToCallback (foldl ?f ?W ?l) !! _ = _ =>
      change (seq w) with (seq W)
    end.
    by eapply legs_callbacks.
Qed.

(** An indirect-probe round sends one [PingReq] per relay and nothing else. *)
Lemma legs_sent member callback l w :
  exists msgs,
    sent (foldl (fun w relayMember =>
                   pingReqThroughMember member relayMember callback w) w l)
    = sent w ++ msgs /\
    Forall (fun m => msg_type (fst m) = PingReq) msgs /\ length msgs = length l.
Proof.
  revert w. induction l as [|r l IH]; intros w.
  - exists []. by rewrite app_nil_r.
  - cbn [foldl]. destruct (IH (pingReqThroughMember member r callback w))
      as (msgs & E & HF & HL).
    eexists (_ :: msgs). rewrite E. unfold_ops; fields. rewrite <- app_assoc.
    split; [reflexivity|]. split; [by constructor|]. cbn. by rewrite HL.
Qed.

Lemma pingReq_sent mb member w :
  exists msgs,
    sent (pingReq mb member w) = sent w ++ msgs /\
    Forall (fun m => msg_type (fst m) = PingReq) msgs /\
    length msgs = length (random mb (pingReqGroupSize w)).
Proof.
  unfold pingReq. destruct (random mb (pingReqGroupSize w)) as [|r l] eqn:E.
  - exists []. by rewrite app_nil_r.
  - cbn [length Nat.eqb setTimeout].
    match goal with |- context [foldl ?f ?W (r :: l)] =>
      destruct (legs_sent member (pingReqThroughMemberCallback (nextId w)) (r :: l) W)
        as (msgs & Es & HF & HL)
    end.
    exists msgs. by rewrite Es.
Qed.

(** * The claims *)

(** ** Construction (C9) *)

(** C9, as stated, fails: an option supplied as [0] does not override the
    default, because [0 || d] is [d]. *)
Lemma FailureDetector_zero_option_ignored :
  ~ (forall opts t0 v, opt_interval opts = Some (Num v) ->
       interval (FailureDetector opts t0) = v).
Proof.
  intros H.
  specialize (H {| opt_interval := Some (Num 0); opt_pingTimeout := None;
                   opt_pingReqTimeout := None; opt_pingReqGroupSize := None;
                   debugIdentifier := "B" |} 0 0%Z eq_refl).
  discriminate H.
Qed.

(** C9, amended: every option supplied with a truthy value overrides its
    default; an option that is not supplied, or is supplied with a falsy
    value ([0] or [NaN]), leaves the default: interval 20, pingTimeout 4,
    pingReqTimeout 12, pingReqGroupSize 3. *)
Theorem FailureDetector_options (opts : Opts) (t0 : nat) :
  (forall v, opt_interval opts = Some v -> truthy v = true ->
     Num (interval (FailureDetector opts t0)) = v) /\
  (forall v, opt_pingTimeout opts = Some v -> truthy v = true ->
     Num (pingTimeout (FailureDetector opts t0)) = v) /\
  (forall v, opt_pingReqTimeout opts = Some v -> truthy v = true ->
     Num (pingReqTimeout (FailureDetector opts t0)) = v) /\
  (forall v, opt_pingReqGroupSize opts = Some v -> truthy v = true ->
     Num (pingReqGroupSize (FailureDetector opts t0)) = v) /\
  (opt_interval opts = None \/
   (exists v, opt_interval opts = Some v /\ truthy v = false) ->
     interval (FailureDetector opts t0) = 20%Z) /\
  (opt_pingTimeout opts = None \/
   (exists v, opt_pingTimeout opts = Some v /\ truthy v = false) ->
     pingTimeout (FailureDetector opts t0) = 4%Z) /\
  (opt_pingReqTimeout opts = None \/
   (exists v, opt_pingReqTimeout opts = Some v /\ truthy v = false) ->
     pingReqTimeout (FailureDetector opts t0) = 12%Z) /\
  (opt_pingReqGroupSize opts = None \/
   (exists v, opt_pingReqGroupSize opts = Some v /\ truthy v = false) ->
     pingReqGroupSize (FailureDetector opts t0) = 3%Z).
Proof.
  assert (forall a b v, a = Some v -> truthy v = true -> Num (js_or a b) = v) as Hset.
  { intros a b [z|] -> Hv; [|discriminate Hv]. unfold js_or. by rewrite Hv. }
  assert (forall a b, a = None \/ (exists v, a = Some v /\ truthy v = false) ->
                      js_or a b = b) as Hdef.
  { intros a b [->|([z|] & -> & Hv)]; [done| |done]. unfold js_or. by rewrite Hv. }
  cbn [FailureDetector interval pingTimeout pingReqTimeout pingReqGroupSize].
  split; [intros v; apply Hset|]. split; [intros v; apply Hset|].
  split; [intros v; apply Hset|]. split; [intros v; apply Hset|].
  split; [apply Hdef|]. split; [apply Hdef|]. split; [apply Hdef|apply Hdef].
Qed.

Lemma FailureDetector_options_witness :
  let opts := {| opt_interval := Some (Num 50); opt_pingTimeout := Some (Num 0);
                 opt_pingReqTimeout := Some NaN; opt_pingReqGroupSize := None;
                 debugIdentifier := "B" |} in
  Num (interval (FailureDetector opts 0)) = Num 50 /\
  pingTimeout (FailureDetector opts 0) = 4%Z /\
  pingReqTimeout (FailureDetector opts 0) = 12%Z /\
  pingReqGroupSize (FailureDetector opts 0) = 3%Z.
Proof.
  intros opts.
  destruct (FailureDetector_options opts 0) as (H1 & _ & _ & _ & _ & H6 & H7 & H8).
  split; [apply (H1 (Num 50)); reflexivity|].
  split; [apply H6; right; exists (Num 0); split; reflexivity|].
  split; [apply H7; right; exists NaN; split; reflexivity|].
  apply H8; left; reflexivity.
Defined.

(** ** No relay (C7) *)

(** C7: when the membership returns no relay peer, [pingReq(member)] changes
    nothing: no suspicion timer, no relay transaction, no message, no
    [Suspect]. *)
Theorem pingReq_no_relays (mb : Membership) (member : Member) (w : World) :
  random mb (pingReqGroupSize w) = [] ->
  pingReq mb member w = w /\
  timers (pingReq mb member w) = timers w /\
  seqToTimeout (pingReq mb member w) = seqToTimeout w /\
  seqToCallback (pingReq mb member w) = seqToCallback w /\
  sent (pingReq mb member w) = sent w /\
  emitted (pingReq mb member w) = emitted w.
Proof.
  intros H. assert (pingReq mb member w = w) as ->; [|done].
  unfold pingReq. by rewrite H.
Qed.

Lemma pingReq_no_relays_witness :
  pingReq Example.alone Example.M Example.w0 = Example.w0.
Proof.
  apply (pingReq_no_relays Example.alone Example.M Example.w0). reflexivity.
Defined.

(** ** Clearing a sequence (C5) *)

Lemma cleared_run_Callback cb s w :
  seqToTimeout w !! s = None -> seqToCallback w !! s = None ->
  seqToTimeout (run_Callback cb w) !! s = None /\
  seqToCallback (run_Callback cb w) !! s = None.
Proof.
  intros H1 H2.
  destruct cb as [s' [t]|s' data from]; unfold_ops; fields;
    split; apply lookup_delete_None; by right.
Qed.

Lemma cleared_after_Ack data from w w' :
  nextTicks w = [] -> 0 < ackListeners w ->
  step (Recv Ack data from) w = Some w' ->
  seqToTimeout w' !! data_seq data = None /\
  seqToCallback w' !! data_seq data = None /\
  nextTicks w' = [].
Proof.
  intros Hq Hn. rewrite step_Recv_Ack by done.
  destruct (ackListeners w =? 0) eqn:E; [apply Nat.eqb_eq in E; lia|].
  intros [= <-]. destruct (clearSeq_cleared (data_seq data) w) as [H1 H2].
  destruct (seqToCallback w !! data_seq data) as [cb|].
  - destruct (cleared_run_Callback cb _ _ H1 H2) as [H3 H4].
    by rewrite nextTicks_run_Callback.
  - done.
Qed.

(** C5: [clearSeq] is total and idempotent: once or many times gives the same
    world; on a sequence that is in neither table it changes nothing; after
    it, an [Ack] for that sequence changes nothing (no callback runs); and
    once an [Ack] has been handled, a second one for the same sequence changes
    nothing, so a completion callback runs at most once. *)
Theorem clearSeq_idempotent (s : nat) (w : World) :
  (forall n, Nat.iter (S n) (clearSeq s) w = clearSeq s w) /\
  (seqToTimeout w !! s = None -> seqToCallback w !! s = None ->
     forall n, Nat.iter n (clearSeq s) w = w) /\
  (seqToTimeout (clearSeq s w) !! s = None /\
   seqToCallback (clearSeq s w) !! s = None) /\
  (nextTicks w = [] -> forall data from, data_seq data = s ->
     step (Recv Ack data from) (clearSeq s w) = Some (clearSeq s w)) /\
  (nextTicks w = [] -> forall data from w', data_seq data = s ->
     step (Recv Ack data from) w = Some w' ->
     forall from', step (Recv Ack data from') w' = Some w').
Proof.
  split; [|split; [|split; [|split]]].
  - intros n. rewrite Nat.iter_succ_r. apply iter_fixed, clearSeq_idem.
  - intros H1 H2 n. by apply iter_fixed, clearSeq_unknown.
  - apply clearSeq_cleared.
  - intros Hq data from <-. rewrite step_Recv_Ack by done.
    destruct (clearSeq_cleared (data_seq data) w) as [H1 H2].
    rewrite H2, clearSeq_idem. by destruct (_ =? 0).
  - intros Hq data from w' <- Hstep from'.
    destruct (ackListeners w) as [|n] eqn:En.
    + rewrite step_Recv_Ack in Hstep by done. rewrite En in Hstep.
      injection Hstep as <-. rewrite step_Recv_Ack by done. by rewrite En.
    + destruct (cleared_after_Ack data from w w') as (H1 & H2 & H3); [done|lia|done|].
      rewrite step_Recv_Ack by done. rewrite H2, clearSeq_unknown by done.
      by destruct (_ =? 0).
Qed.

Lemma clearSeq_idempotent_witness :
  let d := {| data_seq := 7; data_host := Some "A"; data_destination := Some "C" |} in
  let w := onPingReq d "A" (start Example.w0) in
  (seqToTimeout w !! 0 = Some 1 /\
   seqToCallback w !! 0 = Some (pingAckReceiveCallback 0 d "A") /\
   is_Some (timers w !! 1) /\ ackListeners w = 1) /\
  (timers (clearSeq 0 w) !! 1 = None /\
   Nat.iter 3 (clearSeq 0) w = clearSeq 0 w) /\
  (seqToTimeout (clearSeq 0 w) !! 0 = None /\
   seqToCallback (clearSeq 0 w) !! 0 = None) /\
  step (Recv Ack (Example.ack 0) "C") (clearSeq 0 w) = Some (clearSeq 0 w) /\
  (exists w',
     step (Recv Ack (Example.ack 0) "C") w = Some w' /\
     sent w' = sent w ++ [({| msg_type := Ack; msg_data := Example.ack 7 |}, Some "A")] /\
     step (Recv Ack (Example.ack 0) "X") w' = Some w') /\
  Nat.iter 3 (clearSeq 7) w = w.
Proof.
  intros d w.
  destruct (clearSeq_idempotent 0 w) as (H1 & _ & H3 & H4 & H5).
  destruct (clearSeq_idempotent 7 w) as (_ & H2 & _).
  split.
  { split; [vm_compute; reflexivity|]. split; [vm_compute; reflexivity|].
    split; [vm_compute; by eexists|vm_compute; reflexivity]. }
  split; [split; [vm_compute; reflexivity|exact (H1 2)]|].
  split; [exact H3|].
  split; [apply H4; [vm_compute; reflexivity|reflexivity]|].
  split.
  - assert (nextTicks w = []) as Hq by (vm_compute; reflexivity).
    eexists. split; [vm_compute; reflexivity|]. split; [vm_compute; reflexivity|].
    apply (H5 Hq (Example.ack 0) "C"); [reflexivity|vm_compute; reflexivity].
  - apply H2; vm_compute; reflexivity.
Defined.

(** ** The host field of a [Ping] (C8) *)

(** The direct probe tags its [Ping] with the local identity. *)
Lemma pingMember_sent (member : Member) (w : World) :
  sent (pingMember (Some member) w) =
  sent w ++ [({| msg_type := Ping;
                 msg_data := {| data_seq := seq w; data_host := Some (local w);
                                data_destination := None |} |},
              Some (host member))].
Proof. reflexivity. Qed.

(** The on-behalf relay handler tags its [Ping] with the destination. *)
Lemma onPingReq_sent (data : Data) (from : string) (w : World) :
  sent (onPingReq data from w) =
  sent w ++ [({| msg_type := Ping;
                 msg_data := {| data_seq := seq w; data_host := data_destination data;
                                data_destination := None |} |},
              data_destination data)].
Proof. reflexivity. Qed.

(** C8 fails on the relay path: node B, asked by A to probe C, sends C a
    [Ping] whose host field is C, not B. *)
Theorem onPingReq_Ping_host_is_not_local :
  local Example.w0 = "B" /\
  sent (onPingReq {| data_seq := 7; data_host := Some "A";
                     data_destination := Some "C" |} "A" Example.w0) =
  [({| msg_type := Ping;
       msg_data := {| data_seq := 0; data_host := Some "C";
                      data_destination := None |} |}, Some "C")].
Proof. split; reflexivity. Qed.

(** ** [stop()] (C2) *)

(** [stop()] spares the suspicion timer of every round in flight. *)
Lemma stop_keeps_round_timer (t : nat) (tm : Timer) (w : World) :
  Inv w -> timers w !! t = Some tm -> owner (fn tm) = OwnRound ->
  timers (stop w) !! t = Some tm.
Proof.
  intros H Ht Hown. destruct (guarded_round t tm w H Ht Hown) as [G Hh].
  destruct (stop_keeps t (fun _ => False) w) as (E & _); [done|by auto|done|congruence].
Qed.

(** C2 fails.  A direct probe of M times out and a round with one relay
    starts; [stop()] is called; twelve time units later the round's suspicion
    timer (handle 2) is still in the table, fires and emits [Suspect(M)].
    And [stop()] right after [start()] leaves the immediate probe queued: it
    runs and a [Ping] is sent. *)
Theorem stop_leaves_suspicion_timer_and_immediate :
  (emitted <$> run [CallStart; RunImmediate Example.mb; Advance 4; Fire 1 Example.mb;
                    CallStop] Example.w0) = Some [] /\
  (emitted <$> run [CallStart; RunImmediate Example.mb; Advance 4; Fire 1 Example.mb;
                    CallStop; Advance 12; Fire 2 Example.mb] Example.w0)
    = Some [Example.M] /\
  (sent <$> run [CallStart; CallStop] Example.w0) = Some [] /\
  (sent <$> run [CallStart; CallStop; RunImmediate Example.mb] Example.w0)
    = Some [({| msg_type := Ping;
                msg_data := {| data_seq := 0; data_host := Some "B";
                               data_destination := None |} |}, Some "M")].
Proof. repeat split; vm_compute; reflexivity. Qed.

(** ** The on-behalf relay (C4) *)

(** C4: [onPingReq(data, H)] stores under its fresh sequence [s3] a callback
    that captures [data] and [H]; while that transaction is pending, the
    [Ack] for [s3] makes the detector send exactly one message, an [Ack] to
    [H] that carries [data.seq], the sequence of the request; the entry is
    gone afterwards, so a repeated [Ack] sends nothing. *)
Theorem onPingReq_forwards_original_seq (data : Data) (H : string) (w : World) :
  seqToCallback (onPingReq data H w) !! seq w
    = Some (pingAckReceiveCallback (seq w) data H) /\
  forall w2 ack from,
    nextTicks w2 = [] -> 0 < ackListeners w2 ->
    seqToCallback w2 !! seq w = Some (pingAckReceiveCallback (seq w) data H) ->
    data_seq ack = seq w ->
    exists w3,
      step (Recv Ack ack from) w2 = Some w3 /\
      sent w3 = sent w2 ++ [({| msg_type := Ack;
                                msg_data := {| data_seq := data_seq data;
                                               data_host := None;
                                               data_destination := None |} |},
                             Some H)] /\
      seqToCallback w3 !! seq w = None /\
      forall from', step (Recv Ack ack from') w3 = Some w3.
Proof.
  split.
  - unfold_ops; fields. apply lookup_insert_eq.
  - intros w2 ack from Hq Hn Hcb Hs.
    pose proof (step_Recv_Ack ack from w2 Hq) as Hstep.
    destruct (ackListeners w2 =? 0) eqn:E; [apply Nat.eqb_eq in E; lia|].
    rewrite Hs, Hcb in Hstep.
    set (w3 := run_Callback (pingAckReceiveCallback (seq w) data H)
                 (clearSeq (seq w) w2)) in *.
    assert (sent w3 = sent w2 ++ [({| msg_type := Ack;
                                      msg_data := {| data_seq := data_seq data;
                                                     data_host := None;
                                                     data_destination := None |} |},
                                   Some H)]) as Hsent by reflexivity.
    clearbody w3. exists w3. split; [exact Hstep|]. split; [exact Hsent|].
    destruct (cleared_after_Ack ack from w2 _ Hq Hn Hstep) as (H1 & H2 & H3).
    rewrite Hs in H1, H2. split; [done|].
    intros from'. rewrite step_Recv_Ack by done. rewrite Hs, H2.
    rewrite clearSeq_unknown by done. by destruct (ackListeners w3 =? 0).
Qed.

Lemma onPingReq_forwards_original_seq_witness :
  let data := {| data_seq := 7; data_host := Some "A"; data_destination := Some "C" |} in
  exists w3,
    step (Recv Ack (Example.ack 0) "C") (onPingReq data "A" (start Example.w0)) = Some w3 /\
    sent w3 = sent (onPingReq data "A" (start Example.w0))
              ++ [({| msg_type := Ack; msg_data := Example.ack 7 |}, Some "A")] /\
    seqToCallback w3 !! 0 = None /\
    forall from', step (Recv Ack (Example.ack 0) from') w3 = Some w3.
Proof.
  intros data.
  destruct (onPingReq_forwards_original_seq data "A" (start Example.w0)) as [_ H].
  apply (H (onPingReq data "A" (start Example.w0)) (Example.ack 0) "C").
  - reflexivity.
  - cbn. lia.
  - reflexivity.
  - reflexivity.
Defined.

(** ** Sequence numbers (C6) *)

Lemma StronglySorted_snoc_inv (l : list nat) (n : nat) :
  StronglySorted lt (l ++ [n]) -> StronglySorted lt l /\ Forall (fun s => s < n) l.
Proof.
  induction l as [|a l IH]; cbn; intros H.
  - split; constructor.
  - apply StronglySorted_inv in H as [H1 H2]. destruct (IH H1) as [H3 H4].
    apply Forall_app in H2 as [H5 H6]. rewrite Forall_singleton in H6.
    split; constructor; done.
Qed.

(** C6: in a world the detector can be in, the sequence numbers it allocated
    are strictly increasing and all below [seq]; every sequence still in a
    table is below [seq]; and each of the three allocating methods takes
    [seq] as the new sequence and moves [seq] one up.  So a new sequence is
    above all earlier ones and is not pending. *)
Theorem sequence_numbers_increase (w : World) :
  reachable w ->
  StronglySorted lt (allocated (sent w)) /\
  Forall (fun s => s < seq w) (allocated (sent w)) /\
  (forall k, is_Some (seqToTimeout w !! k) \/ is_Some (seqToCallback w !! k) ->
     k < seq w) /\
  (forall member,
     allocated (sent (pingMember (Some member) w)) = allocated (sent w) ++ [seq w] /\
     seqToTimeout (pingMember (Some member) w) !! seq w = Some (nextId w) /\
     seq (pingMember (Some member) w) = seq w + 1) /\
  (forall member relayMember callback,
     let w' := pingReqThroughMember member relayMember callback w in
     allocated (sent w') = allocated (sent w) ++ [seq w] /\
     seqToTimeout w' !! seq w = Some (nextId w) /\
     seqToCallback w' !! seq w = Some (pingReqAckReceiveCallback (seq w) callback) /\
     seq w' = seq w + 1) /\
  (forall data from,
     let w' := onPingReq data from w in
     allocated (sent w') = allocated (sent w) ++ [seq w] /\
     seqToTimeout w' !! seq w = Some (nextId w) /\
     seqToCallback w' !! seq w = Some (pingAckReceiveCallback (seq w) data from) /\
     seq w' = seq w + 1).
Proof.
  intros [H _]%reachable_Stable.
  destruct (StronglySorted_snoc_inv _ _ (inv_alloc w H)) as [H1 H2].
  split; [done|]. split; [done|]. split; [|split; [|split]].
  - intros k [[id Hk]|[cb Hk]].
    + by destruct (inv_timeout w H k id Hk).
    + by destruct (inv_callback w H k cb Hk).
  - intros member. unfold_ops; fields. rewrite allocated_snoc by done.
    by rewrite lookup_insert_eq.
  - intros member relayMember callback w'. subst w'. unfold_ops; fields.
    rewrite allocated_snoc by done. by rewrite !lookup_insert_eq.
  - intros data from w'. subst w'. unfold_ops; fields.
    rewrite allocated_snoc by done. by rewrite !lookup_insert_eq.
Qed.

Lemma sequence_numbers_increase_witness :
  exists w,
    run Example.probe_and_relay Example.w0 = Some w /\
    allocated (sent w) = [0; 1] /\
    StronglySorted lt (allocated (sent w)) /\
    Forall (fun s => s < seq w) (allocated (sent w)).
Proof.
  eexists. split; [vm_compute; reflexivity|]. split; [vm_compute; reflexivity|].
  match goal with |- StronglySorted _ (allocated (sent ?w)) /\ _ =>
    destruct (sequence_numbers_increase w) as (H1 & H2 & _)
  end.
  - exists Example.opts, 0, Example.probe_and_relay. vm_compute. reflexivity.
  - split; [exact H1|exact H2].
Defined.

(** ** [start()] twice (C10) *)

(** With the schedule [h] of an earlier [start()] live in [tickHandle], a
    second [start()] leaks it. *)
Lemma second_start_leaks_schedule (w : World) (h : nat) (tm : Timer) :
  reachable w -> tickHandle w = Some h -> timers w !! h = Some tm ->
  exists w1,
    step CallStart w = Some w1 /\
    pingListeners w1 = S (pingListeners w) /\
    pingReqListeners w1 = S (pingReqListeners w) /\
    ackListeners w1 = S (ackListeners w) /\
    tickHandle w1 = Some (nextId w) /\ nextId w <> h /\
    is_Some (timers w1 !! nextId w) /\
    (exists w2, step CallStop w1 = Some w2 /\ tickHandle w2 = None /\
                timers w2 !! nextId w = None /\ is_Some (timers w2 !! h)) /\
    forall evs w3, run evs w1 = Some w3 ->
      exists tm', timers w3 !! h = Some tm' /\ fn tm' = ping_bound /\
                  is_Some (period tm') /\ tickHandle w3 <> Some h /\
                  forall mb, due tm' <= clock w3 ->
                    exists w4, step (Fire h mb) w3 = Some w4 /\
                               exists w3', w4 = drain (ping mb w3').
Proof.
  intros Hr Hh Ht. pose proof (reachable_Stable w Hr) as [H Hq].
  destruct (inv_tick w H h Hh) as [Hlt Hown]. specialize (Hown tm Ht).
  assert (fn tm = ping_bound) as Hfn by (by destruct (fn tm)).
  destruct (inv_period w H h tm Ht Hown) as [p Hp].
  assert (Stable (drain (start w))) as Hs1 by (by apply Stable_drain, Inv_start).
  assert (drain (start w) = start w) as E1 by (by apply drain_nil).
  rewrite E1 in Hs1.
  assert (timers (start w) !! h = Some tm) as Ht1.
  { unfold start; unfold_ops; fields. rewrite lookup_insert_ne by lia. done. }
  assert (tickHandle (start w) <> Some h) as Hh1.
  { unfold start; unfold_ops; fields. intros [= ?]. lia. }
  exists (start w). cbn [step]. rewrite E1.
  split; [done|]. split; [done|]. split; [done|]. split; [done|].
  split; [done|]. split; [lia|]. split.
  { unfold start; unfold_ops; fields. rewrite lookup_insert_eq. by eexists. }
  split.
  - destruct (leaked_interval_step h tm CallStop (start w) (drain (stop (start w))))
      as (tm' & H1 & _ & _ & _); try done.
    exists (drain (stop (start w))). split; [done|].
    assert (nextTicks (stop (start w)) = []) as Q2.
    { destruct (stop_keeps h (fun _ => False) (start w)) as (_ & _ & Q & _).
      - exact Hh1.
      - intros k Hk. exact Hk.
      - eapply guarded_tick; [apply Hs1|exact Ht1|by rewrite Hfn].
      - rewrite Q. exact Hq. }
    rewrite (drain_nil _ Q2) in *.
    destruct (stop_cancels_schedule (nextId w) (start w)) as [E3 E4]; [done|].
    split; [done|]. split; [done|]. by eexists.
  - intros evs w3 Hrun.
    destruct (leaked_interval_run h tm evs (start w) w3) as (tm' & H1 & H2 & H3 & H4);
      try done.
    exists tm'. split; [done|]. split; [done|]. split; [by rewrite H3, Hp|].
    split; [done|]. intros mb Hd.
    cbn [step]. rewrite H1, H2. apply Nat.leb_le in Hd. rewrite Hd.
    rewrite H3, Hp. eexists. split; [done|]. by eexists.
Qed.

(** C10: [start()] is called, and then, with no [stop()] and no [start()] in
    between, [start()] is called again.  Before the second call [tickHandle]
    holds the first schedule [h], live.  The second call registers each of the
    three listeners once more and overwrites [tickHandle] with a new handle;
    a [stop()] then cancels the new schedule only; and whatever happens after
    the second call, [stop()] included, the schedule [h] stays in the timer
    table, repeating, and each time it is due it fires and runs [ping]. *)
Theorem start_twice_leaks_interval (w0 : World) (evs1 : list Event) (w : World) :
  reachable w0 ->
  Forall (fun e => is_CallStart e = false /\ is_CallStop e = false) evs1 ->
  run (CallStart :: evs1) w0 = Some w ->
  let h := nextId w0 in
  tickHandle w = Some h /\ is_Some (timers w !! h) /\
  exists w1,
    step CallStart w = Some w1 /\
    pingListeners w1 = S (pingListeners w) /\
    pingReqListeners w1 = S (pingReqListeners w) /\
    ackListeners w1 = S (ackListeners w) /\
    tickHandle w1 = Some (nextId w) /\ nextId w <> h /\
    is_Some (timers w1 !! nextId w) /\
    (exists w2, step CallStop w1 = Some w2 /\ tickHandle w2 = None /\
                timers w2 !! nextId w = None /\ is_Some (timers w2 !! h)) /\
    forall evs w3, run evs w1 = Some w3 ->
      exists tm', timers w3 !! h = Some tm' /\ fn tm' = ping_bound /\
                  is_Some (period tm') /\ tickHandle w3 <> Some h /\
                  forall mb, due tm' <= clock w3 ->
                    exists w4, step (Fire h mb) w3 = Some w4 /\
                               exists w3', w4 = drain (ping mb w3').
Proof.
  intros Hr Hf Hrun h. pose proof (reachable_Stable w0 Hr) as [H0 Hq0].
  assert (reachable w) as Hrw.
  { destruct Hr as (opts & t0 & evs0 & Hr). exists opts, t0, (evs0 ++ CallStart :: evs1).
    by rewrite run_app, Hr. }
  rewrite run_cons, step_CallStart in Hrun by done.
  assert (Stable (start w0)) as Hs by (split; [by apply Inv_start|done]).
  destruct (start_schedule w0) as [Hh0 Ht0].
  destruct (active_schedule_run h _ evs1 (start w0) w Hs Hh0 Ht0 Hf Hrun)
    as [Hh [tm Ht]].
  split; [exact Hh|]. split; [by exists tm|].
  exact (second_start_leaks_schedule w h tm Hrw Hh Ht).
Qed.

Lemma start_twice_leaks_interval_witness :
  exists w w1,
    run [CallStart; RunImmediate Example.mb; Advance 5] Example.w0 = Some w /\
    step CallStart w = Some w1 /\
    tickHandle w = Some 0 /\ tickHandle w1 = Some 2 /\ ackListeners w1 = 2 /\
    forall evs w3, run evs w1 = Some w3 -> is_Some (timers w3 !! 0).
Proof.
  destruct (run [CallStart; RunImmediate Example.mb; Advance 5] Example.w0)
    as [w|] eqn:Hrun; [|vm_compute in Hrun; discriminate Hrun].
  assert (nextId w = 2 /\ ackListeners w = 1) as [Hn Ha].
  { vm_compute in Hrun. injection Hrun as <-. split; reflexivity. }
  destruct (start_twice_leaks_interval Example.w0
              [RunImmediate Example.mb; Advance 5] w)
    as (Hh & _ & w1 & Hstep & _ & _ & Ha1 & Hh1 & _ & _ & _ & Hforever).
  - exists Example.opts, 0, []. reflexivity.
  - repeat constructor.
  - exact Hrun.
  - exists w, w1. split; [reflexivity|]. split; [exact Hstep|]. split; [exact Hh|].
    split; [by rewrite Hh1, Hn|]. split; [by rewrite Ha1, Ha|].
    intros evs w3 Hevs. destruct (Hforever evs w3 Hevs) as (tm' & Ht & _).
    exists tm'. exact Ht.
Defined.

(** ** The suspicion timer of a round (C1) *)

(** C1: [pingReq(member)] with at least one relay arms the suspicion timer
    [t], due [pingReqTimeout] from now, and gives every relay leg a callback
    that cancels [t].  Take any run from there to a world [w2].  While the
    clock is before the deadline [t] has not fired.  If [t] has not fired and
    no leg's callback has run, [t] is still armed, and when it is due its
    firing emits [Suspect(member)] once and it never fires again.  If [t] has
    not fired and a turn runs a leg's callback, that turn emits nothing and
    [t] never fires: no [Suspect] for this round. *)
Theorem pingReq_suspect_unless_leg_acks
    (w : World) (mb : Membership) (member : Member) :
  reachable w -> random mb (pingReqGroupSize w) <> [] ->
  let w1 := pingReq mb member w in
  let t := nextId w in
  let tm := {| due := clock w + timer_delay (pingReqTimeout w); period := None;
               fn := pingReqTimeout_fn member |} in
  timers w1 !! t = Some tm /\
  (forall i relayMember,
     random mb (pingReqGroupSize w) !! i = Some relayMember ->
     seqToCallback w1 !! (seq w + i)
     = Some (pingReqAckReceiveCallback (seq w + i) (pingReqThroughMemberCallback t))) /\
  forall evs w2, run evs w1 = Some w2 ->
    (clock w2 < due tm -> Forall (fun e => is_Fire t e = false) evs) /\
    (Forall (fun e => is_Fire t e = false) evs ->
       (along (fun w e => negb (acks_round t w e)) evs w1 = true ->
          timers w2 !! t = Some tm /\
          forall mb', due tm <= clock w2 ->
            exists w3,
              step (Fire t mb') w2 = Some w3 /\
              emitted w3 = emitted w2 ++ [member] /\
              forall evs' w4, run evs' w3 = Some w4 ->
                Forall (fun e => is_Fire t e = false) evs') /\
       (forall e w3, acks_round t w2 e = true -> step e w2 = Some w3 ->
          emitted w3 = emitted w2 /\
          forall evs' w4, run evs' w3 = Some w4 ->
            Forall (fun e => is_Fire t e = false) evs')).
Proof.
  intros Hr Hne w1 t tm. pose proof (reachable_Stable w Hr) as [H Hq].
  destruct (pingReq_round mb member w H Hne) as [Ht Hlegs].
  assert (Stable w1) as Hs1.
  { split; [by apply Inv_pingReq|]. subst w1. by rewrite nextTicks_pingReq. }
  assert (t < nextId w1) as Hid1 by (by apply (inv_timers w1 (proj1 Hs1) t tm)).
  split; [exact Ht|]. split; [exact Hlegs|].
  fold w1 t in Ht, Hlegs. clearbody w1 t. clear Hlegs.
  intros evs w2 Hrun. pose proof (Stable_run evs w1 w2 Hs1 Hrun) as [H2 Hq2].
  pose proof (grows_run evs w1 w2 Hrun) as (Hn2 & _).
  split; [intros Hc; by eapply (not_due_not_fired t tm evs w1 w2)|].
  intros Hnf. split.
  - intros Hna.
    assert (timers w2 !! t = Some tm) as Ht2 by (by eapply round_timer_run).
    split; [exact Ht2|]. intros mb' Hd.
    rewrite (step_Fire_once t tm mb' w2) by done. eexists. split; [reflexivity|].
    split; [reflexivity|]. intros evs' w4 Hrun'.
    eapply gone_never_fires; [| |exact Hrun'].
    + change (t < nextId w2). lia.
    + apply lookup_delete_eq.
  - intros e w3 Ha Hstep. split.
    + destruct (step_emitted e w2 w3 H2 Hstep) as [E|(id & mb' & _ & _ & -> & _)];
        [done|]. done.
    + intros evs' w4 Hrun'. eapply gone_never_fires; [| |exact Hrun'].
      * pose proof (grows_step e w2 w3 Hstep) as (? & _). lia.
      * by eapply acks_round_cancels.
Qed.

Lemma pingReq_suspect_unless_leg_acks_witness :
  let w1 := pingReq Example.mb2 Example.M (drain (start Example.w0)) in
  (exists w2 w3,
     run [Advance 12] w1 = Some w2 /\
     step (Fire 1 Example.mb2) w2 = Some w3 /\
     emitted w3 = emitted w2 ++ [Example.M]) /\
  (exists w2 w3,
     run [Advance 5] w1 = Some w2 /\
     step (Recv Ack (Example.ack 1) "R2") w2 = Some w3 /\
     emitted w3 = emitted w2 /\
     forall evs' w4, run evs' w3 = Some w4 ->
       Forall (fun e => is_Fire 1 e = false) evs').
Proof.
  intros w1.
  destruct (pingReq_suspect_unless_leg_acks (drain (start Example.w0))
              Example.mb2 Example.M) as (_ & _ & Hrun).
  - exists Example.opts, 0, [CallStart]. reflexivity.
  - discriminate.
  - split.
    + destruct (Hrun [Advance 12] (set_clock (clock w1 + 12) w1) eq_refl) as [_ Hb].
      destruct Hb as [Hnone _]; [repeat constructor|].
      destruct Hnone as [_ Hfire]; [vm_compute; reflexivity|].
      destruct (Hfire Example.mb2) as (w3 & Hs & He & _); [vm_compute; lia|].
      exists (set_clock (clock w1 + 12) w1), w3.
      split; [reflexivity|]. split; [exact Hs|exact He].
    + destruct (Hrun [Advance 5] (set_clock (clock w1 + 5) w1) eq_refl) as [_ Hb].
      destruct Hb as [_ Hack]; [repeat constructor|].
      destruct (Hack (Recv Ack (Example.ack 1) "R2")
                  (drain (net_emit Ack (Example.ack 1) "R2"
                            (set_clock (clock w1 + 5) w1))))
        as [He Hnever]; [vm_compute; reflexivity|reflexivity|].
      exists (set_clock (clock w1 + 5) w1). eexists.
      split; [reflexivity|]. split; [reflexivity|]. split; [exact He|exact Hnever].
Defined.

(** ** The timeout of a direct probe (C3) *)

(** C3: [pingMember(member)] sends one [Ping] with a fresh sequence [s] and
    arms a timer [t], due [pingTimeout] from now.  As long as [t] has not
    fired, [stop()] was not called and no [Ack] for [s] was delivered, [t] is
    still armed; when it is due, its firing is exactly: the runtime drops
    [t], [clearSeq(s)] empties both tables at [s], then [pingReq(member)]
    runs once.  That turn sends no [Ping], and [t] never fires again. *)
Theorem pingMember_timeout_escalates (w : World) (member : Member) :
  reachable w ->
  let w1 := pingMember (Some member) w in
  let s := seq w in
  let t := nextId w in
  let tm := {| due := clock w + timer_delay (pingTimeout w); period := None;
               fn := receiveTimeout_pingMember s member |} in
  timers w1 !! t = Some tm /\ seqToTimeout w1 !! s = Some t /\
  forall evs w2, run evs w1 = Some w2 ->
    along (fun w e => negb (is_Fire t e) && negb (is_CallStop e) && negb (acks_seq s w e))
          evs w1 = true ->
    timers w2 !! t = Some tm /\ seqToTimeout w2 !! s = Some t /\
    forall mb, due tm <= clock w2 ->
      let w' := clearSeq s (clearTimeout (Some t) w2) in
      step (Fire t mb) w2 = Some (pingReq mb member w') /\
      seqToTimeout w' !! s = None /\ seqToCallback w' !! s = None /\
      (exists l, sent (pingReq mb member w') = sent w2 ++ l /\
                 Forall (fun m => msg_type (fst m) = PingReq) l /\
                 length l = length (random mb (pingReqGroupSize w2))) /\
      forall evs' w4, run evs' (pingReq mb member w') = Some w4 ->
        Forall (fun e => is_Fire t e = false) evs'.
Proof.
  intros Hr w1 s t tm. pose proof (reachable_Stable w Hr) as [H Hq].
  assert (Stable w1) as Hs1 by (split; [by apply Inv_pingMember|done]).
  assert (timers w1 !! t = Some tm) as Ht
    by (subst w1; unfold_ops; fields; apply lookup_insert_eq).
  assert (seqToTimeout w1 !! s = Some t) as Hst
    by (subst w1; unfold_ops; fields; apply lookup_insert_eq).
  split; [exact Ht|]. split; [exact Hst|].
  clearbody w1 t s. intros evs w2 Hrun Ha.
  pose proof (Stable_run evs w1 w2 Hs1 Hrun) as [H2 Hq2].
  assert (timers w2 !! t = Some tm) as Ht2 by (by eapply probe_timer_run).
  destruct (inv_timers w2 H2 t tm Ht2) as [Hid2 Hs2]. specialize (Hs2 s eq_refl).
  split; [exact Ht2|]. split; [exact Hs2|]. intros mb Hd w'.
  split; [by rewrite (step_Fire_once t tm mb w2)|].
  destruct (clearSeq_cleared s (clearTimeout (Some t) w2)) as [E1 E2].
  split; [exact E1|]. split; [exact E2|]. split.
  - destruct (pingReq_sent mb member w') as (l & E & HF & HL).
    exists l. split; [exact E|]. split; [exact HF|exact HL].
  - intros evs' w4 Hrun'. eapply gone_never_fires; [| |exact Hrun'].
    + pose proof (grows_pingReq mb member w') as (? & _).
      assert (nextId w' = nextId w2) by done. lia.
    + eapply grows_gone; [apply grows_pingReq|by change (t < nextId w2)|].
      subst w'. unfold_ops; fields. rewrite Hs2. apply lookup_delete_None. by left.
Qed.

Lemma pingMember_timeout_escalates_witness :
  let w1 := pingMember (Some Example.M) (drain (start Example.w0)) in
  exists w2,
    run [Advance 4] w1 = Some w2 /\
    timers w2 !! 1 = Some {| due := 4; period := None;
                             fn := receiveTimeout_pingMember 0 Example.M |} /\
    step (Fire 1 Example.mb) w2
    = Some (pingReq Example.mb Example.M (clearSeq 0 (clearTimeout (Some 1) w2))).
Proof.
  intros w1.
  destruct (pingMember_timeout_escalates (drain (start Example.w0)) Example.M)
    as (_ & _ & Hrun).
  - exists Example.opts, 0, [CallStart]. reflexivity.
  - destruct (Hrun [Advance 4] (set_clock (clock w1 + 4) w1) eq_refl)
      as (Ht & _ & Hfire); [vm_compute; reflexivity|].
    destruct (Hfire Example.mb) as (Hs & _); [vm_compute; lia|].
    exists (set_clock (clock w1 + 4) w1).
    split; [reflexivity|]. split; [exact Ht|exact Hs].
Defined.

(** * Further properties of the detector *)

(** Two worlds with the same fields are the same world. *)
Lemma World_eq (w w' : World) :
  interval w = interval w' -> pingTimeout w = pingTimeout w' ->
  pingReqTimeout w = pingReqTimeout w' -> pingReqGroupSize w = pingReqGroupSize w' ->
  seq w = seq w' -> tickHandle w = tickHandle w' ->
  seqToTimeout w = seqToTimeout w' -> seqToCallback w = seqToCallback w' ->
  local w = local w' -> pingListeners w = pingListeners w' ->
  pingReqListeners w = pingReqListeners w' -> ackListeners w = ackListeners w' ->
  sent w = sent w' -> emitted w = emitted w' -> clock w = clock w' ->
  nextId w = nextId w' -> timers w = timers w' -> immediates w = immediates w' ->
  nextTicks w = nextTicks w' -> w = w'.
Proof. destruct w, w'; cbn. intros. by subst. Qed.

(** ** [onPing] *)

Lemma iter_onPing n data from w :
  Nat.iter n (onPing data from) w
  = set_sent (sent w ++ replicate n
                ({| msg_type := Ack;
                    msg_data := {| data_seq := data_seq data; data_host := Some (local w);
                                   data_destination := None |} |}, Some from)) w.
Proof.
  induction n as [|n IH].
  - cbn [Nat.iter replicate]. rewrite app_nil_r. by destruct w.
  - rewrite Nat.iter_succ, IH, replicate_S_end, app_assoc. reflexivity.
Qed.

(** X1: a delivered [Ping] is answered in the same turn with one [Ack] per
    registered instance of the ping listener, each carrying the sequence of
    the [Ping] and the local identity, addressed to the host the [Ping] came
    from; nothing else in the world changes: no sequence is allocated, no
    timer armed, no table entry made. *)
Theorem onPing_replies (data : Data) (from : string) (w : World) :
  nextTicks w = [] ->
  step (Recv Ping data from) w
  = Some (set_sent (sent w ++ replicate (pingListeners w)
                      ({| msg_type := Ack;
                          msg_data := {| data_seq := data_seq data;
                                         data_host := Some (local w);
                                         data_destination := None |} |}, Some from)) w).
Proof.
  intros Hq. unfold step, net_emit. rewrite iter_onPing. f_equal. by apply drain_nil.
Qed.

Lemma onPing_replies_witness :
  sent <$> step (Recv Ping (Example.ack 5) "A") (start Example.w0)
  = Some [({| msg_type := Ack;
              msg_data := {| data_seq := 5; data_host := Some "B";
                             data_destination := None |} |}, Some "A")].
Proof.
  rewrite (onPing_replies (Example.ack 5) "A" (start Example.w0)); reflexivity.
Defined.

(** ** [stop] *)

Lemma elem_of_keys {A} (m : gmap nat A) k : k ∈ keys m <-> is_Some (m !! k).
Proof.
  unfold keys. rewrite merge_sort_Permutation, list_elem_of_fmap. split.
  - intros ([k' x] & -> & Hx). apply elem_of_map_to_list in Hx. by exists x.
  - intros [x Hx]. exists (k, x). split; [done|]. by apply elem_of_map_to_list.
Qed.

Lemma keys_empty {A} : keys (∅ : gmap nat A) = [].
Proof. unfold keys. by rewrite map_to_list_empty. Qed.

(** The first loop of [stop]: what it leaves of the tables and the timers. *)
Lemma foldl_clearTimeoutWithDeletion l w :
  (forall k, seqToTimeout (foldl clearTimeoutWithDeletion w l) !! k
             = if bool_decide (k ∈ l) then None else seqToTimeout w !! k) /\
  (forall k id, k ∈ l -> seqToTimeout w !! k = Some id ->
                timers (foldl clearTimeoutWithDeletion w l) !! id = None) /\
  timers (foldl clearTimeoutWithDeletion w l) ⊆ timers w /\
  seqToCallback (foldl clearTimeoutWithDeletion w l) = seqToCallback w.
Proof.
  revert w. induction l as [|s l IH]; intros w.
  - cbn [foldl]. split; [|split; [|split]]; [|intros k id Hk|done|done].
    + intros k. rewrite bool_decide_eq_false_2; [done|]. apply not_elem_of_nil.
    + by apply not_elem_of_nil in Hk.
  - cbn [foldl]. destruct (IH (clearTimeoutWithDeletion w s)) as (H1 & H2 & H3 & H4).
    assert (timers (clearTimeoutWithDeletion w s) ⊆ timers w) as Hsub.
    { unfold_ops; fields. destruct (seqToTimeout w !! s); [apply delete_subseteq|done]. }
    split; [|split; [|split]].
    + intros k. rewrite H1. unfold_ops; fields.
      destruct (decide (k = s)) as [->|Hne].
      * rewrite lookup_delete_eq. rewrite (bool_decide_eq_true_2 (s ∈ s :: l)) by left.
        by destruct (bool_decide (s ∈ l)).
      * rewrite lookup_delete_ne by done.
        destruct (bool_decide (k ∈ l)) eqn:E.
        -- apply bool_decide_eq_true in E. rewrite bool_decide_eq_true_2; [done|by right].
        -- apply bool_decide_eq_false in E. rewrite bool_decide_eq_false_2; [done|].
           intros [?|?]%elem_of_cons; done.
    + intros k id Hk Hid.
      destruct (decide (k = s)) as [->|Hne].
      * destruct (timers (foldl clearTimeoutWithDeletion (clearTimeoutWithDeletion w s) l)
                    !! id) as [tm|] eqn:E; [|done].
        apply (lookup_weaken _ _ _ _ E) in H3. revert H3.
        unfold_ops; fields. rewrite Hid. by rewrite lookup_delete_eq.
      * apply elem_of_cons in Hk as [?|Hk]; [done|]. apply (H2 k id Hk).
        unfold_ops; fields. by rewrite lookup_delete_ne.
    + by etrans.
    + by rewrite H4.
Qed.

Lemma foldl_clearCallback l w :
  (forall k, seqToCallback (foldl clearCallback w l) !! k
             = if bool_decide (k ∈ l) then None else seqToCallback w !! k) /\
  timers (foldl clearCallback w l) = timers w /\
  seqToTimeout (foldl clearCallback w l) = seqToTimeout w.
Proof.
  revert w. induction l as [|s l IH]; intros w.
  - cbn [foldl]. split; [|done].
    intros k. rewrite bool_decide_eq_false_2; [done|]. apply not_elem_of_nil.
  - cbn [foldl]. destruct (IH (clearCallback w s)) as (H1 & H2 & H3).
    split; [|by rewrite H2, H3].
    intros k. rewrite H1. unfold_ops; fields.
    destruct (decide (k = s)) as [->|Hne].
    + rewrite lookup_delete_eq. rewrite (bool_decide_eq_true_2 (s ∈ s :: l)) by left.
      by destruct (bool_decide (s ∈ l)).
    + rewrite lookup_delete_ne by done.
      destruct (bool_decide (k ∈ l)) eqn:E.
      * apply bool_decide_eq_true in E. rewrite bool_decide_eq_true_2; [done|by right].
      * apply bool_decide_eq_false in E. rewrite bool_decide_eq_false_2; [done|].
        intros [?|?]%elem_of_cons; done.
Qed.

(** The fields [stop] does not touch. *)
Lemma stop_frame w :
  seq (stop w) = seq w /\ nextId (stop w) = nextId w /\ clock (stop w) = clock w /\
  sent (stop w) = sent w /\ emitted (stop w) = emitted w /\
  immediates (stop w) = immediates w /\ nextTicks (stop w) = nextTicks w /\
  local (stop w) = local w /\
  pingListeners (stop w) = pred (pingListeners w) /\
  pingReqListeners (stop w) = pred (pingReqListeners w) /\
  ackListeners (stop w) = pred (ackListeners w).
Proof.
  unfold stop. cbv zeta.
  apply (foldl_preserves (fun w' =>
    seq w' = seq w /\ nextId w' = nextId w /\ clock w' = clock w /\
    sent w' = sent w /\ emitted w' = emitted w /\
    immediates w' = immediates w /\ nextTicks w' = nextTicks w /\
    local w' = local w /\
    pingListeners w' = pred (pingListeners w) /\
    pingReqListeners w' = pred (pingReqListeners w) /\
    ackListeners w' = pred (ackListeners w))); [by intros w' s|].
  apply (foldl_preserves (fun w' =>
    seq w' = seq w /\ nextId w' = nextId w /\ clock w' = clock w /\
    sent w' = sent w /\ emitted w' = emitted w /\
    immediates w' = immediates w /\ nextTicks w' = nextTicks w /\
    local w' = local w /\
    pingListeners w' = pred (pingListeners w) /\
    pingReqListeners w' = pred (pingReqListeners w) /\
    ackListeners w' = pred (ackListeners w))); [by intros w' s|].
  by repeat split.
Qed.

Lemma stop_eq w :
  stop w = foldl clearCallback
             (foldl clearTimeoutWithDeletion (stop_head w)
                (keys (seqToTimeout (stop_head w))))
             (keys (seqToCallback
                      (foldl clearTimeoutWithDeletion (stop_head w)
                         (keys (seqToTimeout (stop_head w)))))).
Proof. reflexivity. Qed.

Lemma stop_tables w :
  seqToTimeout (stop w) = ∅ /\ seqToCallback (stop w) = ∅ /\
  (forall k id, seqToTimeout w !! k = Some id -> timers (stop w) !! id = None) /\
  (forall h, tickHandle w = Some h -> timers (stop w) !! h = None) /\
  timers (stop w) ⊆ timers w.
Proof.
  rewrite stop_eq.
  assert (seqToTimeout (stop_head w) = seqToTimeout w) as E1 by reflexivity.
  assert (timers (stop_head w) ⊆ timers w) as Hsub.
  { unfold stop_head. unfold_ops; fields.
    destruct (tickHandle w); [apply delete_subseteq|done]. }
  assert (forall h, tickHandle w = Some h -> timers (stop_head w) !! h = None) as Hh.
  { intros h Hh. unfold stop_head. unfold_ops; fields. rewrite Hh. apply lookup_delete_eq. }
  generalize dependent (stop_head w). intros w1 E1 Hsub Hh.
  destruct (foldl_clearTimeoutWithDeletion (keys (seqToTimeout w1)) w1)
    as (T1 & T2 & T3 & T4).
  generalize dependent (foldl clearTimeoutWithDeletion w1 (keys (seqToTimeout w1))).
  intros w2 T1 T2 T3 T4.
  destruct (foldl_clearCallback (keys (seqToCallback w2)) w2) as (C1 & C2 & C3).
  split; [|split; [|split; [|split]]].
  - rewrite C3. apply map_empty. intros k. rewrite T1.
    destruct (bool_decide (k ∈ keys (seqToTimeout w1))) eqn:E; [done|].
    apply bool_decide_eq_false in E. rewrite elem_of_keys in E.
    by apply eq_None_not_Some.
  - apply map_empty. intros k. rewrite C1.
    destruct (bool_decide (k ∈ keys (seqToCallback w2))) eqn:E; [done|].
    apply bool_decide_eq_false in E. rewrite elem_of_keys in E.
    by apply eq_None_not_Some.
  - intros k id Hk. rewrite C2. apply (T2 k id); [|by rewrite E1].
    apply elem_of_keys. exists id. by rewrite E1.
  - intros h Hh'. rewrite C2.
    destruct (timers w2 !! h) as [tm|] eqn:E; [|done].
    apply (lookup_weaken _ _ _ _ E) in T3. by rewrite (Hh h Hh') in T3.
  - rewrite C2. by etrans.
Qed.

Lemma tickHandle_stop w : tickHandle (stop w) = None.
Proof.
  rewrite stop_eq.
  apply (foldl_preserves (fun w' => tickHandle w' = None)); [by intros w' s|].
  by apply (foldl_preserves (fun w' => tickHandle w' = None)); [intros w' s|].
Qed.

(** X2: [stop()] empties both correlation tables and [tickHandle], takes out
    of the timer table the repeating schedule and every timer [seqToTimeout]
    held, creates no timer, removes one instance of each of the three
    listeners, and neither sends nor emits anything nor moves [seq]. *)
Theorem stop_clears_correlation_state (w : World) :
  seqToTimeout (stop w) = ∅ /\ seqToCallback (stop w) = ∅ /\
  tickHandle (stop w) = None /\
  (forall k id, seqToTimeout w !! k = Some id -> timers (stop w) !! id = None) /\
  (forall h, tickHandle w = Some h -> timers (stop w) !! h = None) /\
  timers (stop w) ⊆ timers w /\
  pingListeners (stop w) = pred (pingListeners w) /\
  pingReqListeners (stop w) = pred (pingReqListeners w) /\
  ackListeners (stop w) = pred (ackListeners w) /\
  sent (stop w) = sent w /\ emitted (stop w) = emitted w /\ seq (stop w) = seq w.
Proof.
  destruct (stop_frame w) as (Fs & _ & _ & Fm & Fe & _ & _ & _ & Lp & Lq & La).
  destruct (stop_tables w) as (T1 & T2 & T3 & T4 & T5).
  pose proof (tickHandle_stop w) as Hh.
  split; [exact T1|]. split; [exact T2|]. split; [exact Hh|]. split; [exact T3|].
  split; [exact T4|]. split; [exact T5|]. split; [exact Lp|]. split; [exact Lq|].
  split; [exact La|]. split; [exact Fm|]. split; [exact Fe|exact Fs].
Qed.

Lemma stop_clears_correlation_state_witness :
  let w := ping Example.mb (set_immediates [] (start Example.w0)) in
  timers (stop w) !! 1 = None /\ timers (stop w) !! 0 = None.
Proof.
  intros w.
  destruct (stop_clears_correlation_state w) as (_ & _ & _ & H1 & H2 & _).
  split.
  - apply (H1 0 1). vm_compute. reflexivity.
  - apply (H2 0). vm_compute. reflexivity.
Defined.

Lemma stop_head_stopped w :
  tickHandle w = None ->
  stop_head w = net_removeListener Ack
                  (net_removeListener PingReq (net_removeListener Ping w)).
Proof.
  intros Hh. unfold stop_head. unfold_ops. destruct w; fields. by subst.
Qed.

Lemma stop_no_tables w :
  seqToTimeout w = ∅ -> seqToCallback w = ∅ -> stop w = stop_head w.
Proof.
  intros H1 H2. rewrite stop_eq.
  assert (seqToTimeout (stop_head w) = ∅) as -> by exact H1.
  rewrite keys_empty. cbn [foldl].
  assert (seqToCallback (stop_head w) = ∅) as -> by exact H2.
  by rewrite keys_empty.
Qed.

Lemma no_listener_removed w :
  pingListeners w = 0 -> pingReqListeners w = 0 -> ackListeners w = 0 ->
  net_removeListener Ack (net_removeListener PingReq (net_removeListener Ping w)) = w.
Proof.
  intros H1 H2 H3. unfold_ops. destruct w; fields. by subst.
Qed.

(** X3: a second [stop()] in a row only removes one more instance of each
    listener; when each listener was registered at most once before the first
    [stop()], the second one changes nothing. *)
Theorem stop_twice (w : World) :
  stop (stop w)
  = net_removeListener Ack
      (net_removeListener PingReq (net_removeListener Ping (stop w))) /\
  (pingListeners w <= 1 -> pingReqListeners w <= 1 -> ackListeners w <= 1 ->
   stop (stop w) = stop w).
Proof.
  destruct (stop_tables w) as (T1 & T2 & _).
  destruct (stop_frame w) as (_ & _ & _ & _ & _ & _ & _ & _ & Lp & Lq & La).
  pose proof (tickHandle_stop w) as Hh.
  assert (stop (stop w)
          = net_removeListener Ack
              (net_removeListener PingReq (net_removeListener Ping (stop w)))) as E.
  { rewrite (stop_no_tables (stop w) T1 T2). by apply stop_head_stopped. }
  split; [exact E|]. intros H1 H2 H3. rewrite E.
  apply no_listener_removed; lia.
Qed.

Lemma stop_twice_witness : stop (stop (start Example.w0)) = stop (start Example.w0).
Proof.
  destruct (stop_twice (start Example.w0)) as [_ H].
  apply H; cbn; lia.
Defined.

Lemma net_emit_no_listener ty data from w :
  pingListeners w = 0 -> pingReqListeners w = 0 -> ackListeners w = 0 ->
  net_emit ty data from w = w.
Proof. intros H1 H2 H3. destruct ty; unfold net_emit; by rewrite ?H1, ?H2, ?H3. Qed.

(** X4: after [stop()] of a detector whose listeners were each registered at
    most once, no message the transport delivers does anything: a [Ping] is
    not answered, a [PingReq] is not relayed, an [Ack] runs no callback. *)
Theorem stopped_detector_ignores_messages
    (w : World) (ty : MessageType) (data : Data) (from : string) :
  nextTicks w = [] ->
  pingListeners w <= 1 -> pingReqListeners w <= 1 -> ackListeners w <= 1 ->
  step (Recv ty data from) (stop w) = Some (stop w).
Proof.
  intros Hq H1 H2 H3.
  destruct (stop_frame w) as (_ & _ & _ & _ & _ & _ & Fq & _ & Lp & Lq & La).
  unfold step. rewrite net_emit_no_listener by lia.
  f_equal. apply drain_nil. by rewrite Fq.
Qed.

Lemma stopped_detector_ignores_messages_witness :
  step (Recv Ping (Example.ack 5) "A") (stop (start Example.w0))
  = Some (stop (start Example.w0)).
Proof.
  apply (stopped_detector_ignores_messages (start Example.w0) Ping (Example.ack 5) "A").
  - reflexivity.
  - cbn; lia.
  - cbn; lia.
  - cbn; lia.
Defined.

(** X5: on a detector that is not running (no schedule in [tickHandle], both
    tables empty), [start()] followed at once by [stop()] restores the
    listeners, the tables and the timer table, but not everything: the
    immediate probe that [start()] queued is still queued, and one timer
    handle is used up. *)
Theorem start_stop_leaves_immediate (w : World) :
  tickHandle w = None -> seqToTimeout w = ∅ -> seqToCallback w = ∅ ->
  timers w !! nextId w = None ->
  stop (start w)
  = set_nextId (S (nextId w)) (set_immediates (immediates w ++ [ping_bound]) w).
Proof.
  intros Hh H1 H2 Ht.
  rewrite (stop_no_tables (start w)) by done.
  destruct w. cbn [tickHandle seqToTimeout seqToCallback timers nextId] in Hh, H1, H2, Ht.
  subst.
  cbv [stop_head start tick net_on net_removeListener setImmediate setInterval
       clearInterval clearTimeout
       set_tickHandle set_listeners set_nextId set_timers set_immediates
       interval pingTimeout pingReqTimeout pingReqGroupSize seq tickHandle
       seqToTimeout seqToCallback local pingListeners pingReqListeners
       ackListeners sent emitted clock nextId timers immediates nextTicks pred].
  f_equal. by apply delete_insert_id.
Qed.

Lemma start_stop_leaves_immediate_witness :
  immediates (stop (start Example.w0)) = [ping_bound] /\
  timers (stop (start Example.w0)) = ∅ /\
  ackListeners (stop (start Example.w0)) = 0.
Proof.
  rewrite (start_stop_leaves_immediate Example.w0); try reflexivity.
  repeat split.
Defined.

(** ** [pingReq] and its relay legs *)

(** What the loop of [pingReq] does, leg by leg. *)
Lemma legs_fan_out member callback l w :
  let w' := foldl (fun w relayMember =>
                     pingReqThroughMember member relayMember callback w) w l in
  sent w' = sent w ++
            imap (fun i relayMember =>
                    ({| msg_type := PingReq;
                        msg_data := {| data_seq := seq w + i;
                                       data_host := Some (local w);
                                       data_destination := Some (host member) |} |},
                     Some (host relayMember))) l /\
  seq w' = seq w + length l /\ nextId w' = nextId w + length l /\
  clock w' = clock w /\ local w' = local w /\ pingReqTimeout w' = pingReqTimeout w /\
  emitted w' = emitted w /\
  (forall i, i < length l ->
     seqToTimeout w' !! (seq w + i) = Some (nextId w + i) /\
     timers w' !! (nextId w + i)
     = Some {| due := clock w + timer_delay (pingReqTimeout w); period := None;
               fn := receiveTimeout_pingReqThroughMember (seq w + i) |}) /\
  (forall id, id < nextId w -> timers w' !! id = timers w !! id).
Proof.
  cbv zeta. induction l as [|r l IH] using rev_ind.
  - cbn [foldl imap length]. rewrite app_nil_r, !Nat.add_0_r.
    repeat split; try done; intros; lia.
  - rewrite foldl_app. cbn [foldl].
    destruct IH as (Es & Eq & En & Ec & El & Ep & Ee & Hleg & Hold).
    set (w1 := foldl _ w l) in *. clearbody w1.
    rewrite imap_app, length_app. cbn [imap length].
    unfold_ops; fields. rewrite Es, Eq, En, Ec, El, Ep, Ee, Nat.add_0_r.
    split; [by rewrite app_assoc|]. split; [lia|]. split; [lia|].
    split; [done|]. split; [done|]. split; [done|]. split; [done|]. split.
    + intros i Hi. destruct (decide (i = length l)) as [->|Hne].
      * by rewrite !lookup_insert_eq.
      * rewrite !lookup_insert_ne by lia. apply Hleg. lia.
    + intros id Hid. rewrite lookup_insert_ne by lia. by apply Hold.
Qed.

(** X6: with relays [l] = [random(pingReqGroupSize)], as many as the
    membership returns, [pingReq(member)] sends exactly one [PingReq] per
    relay, in the order of [l], the i-th with sequence [seq + i], the local
    identity as host and [member.host] as destination, addressed to the
    relay; it moves [seq] up by the number of relays, arms one suspicion timer
    and one timer per leg, all with the delay [pingReqTimeout], files each leg
    under its sequence in both tables, and emits nothing. *)
Theorem pingReq_fan_out (mb : Membership) (member : Member) (w : World) :
  random mb (pingReqGroupSize w) <> [] ->
  let l := random mb (pingReqGroupSize w) in
  let w' := pingReq mb member w in
  sent w' = sent w ++
            imap (fun i relayMember =>
                    ({| msg_type := PingReq;
                        msg_data := {| data_seq := seq w + i;
                                       data_host := Some (local w);
                                       data_destination := Some (host member) |} |},
                     Some (host relayMember))) l /\
  seq w' = seq w + length l /\
  nextId w' = S (nextId w) + length l /\
  emitted w' = emitted w /\
  timers w' !! nextId w
  = Some {| due := clock w + timer_delay (pingReqTimeout w); period := None;
            fn := pingReqTimeout_fn member |} /\
  forall i, i < length l ->
    seqToTimeout w' !! (seq w + i) = Some (S (nextId w) + i) /\
    timers w' !! (S (nextId w) + i)
    = Some {| due := clock w + timer_delay (pingReqTimeout w); period := None;
              fn := receiveTimeout_pingReqThroughMember (seq w + i) |} /\
    seqToCallback w' !! (seq w + i)
    = Some (pingReqAckReceiveCallback (seq w + i)
              (pingReqThroughMemberCallback (nextId w))).
Proof.
  intros Hne. cbv zeta. unfold pingReq.
  destruct (random mb (pingReqGroupSize w)) as [|r l] eqn:Er; [done|].
  cbn [length Nat.eqb setTimeout].
  set (w1 := set_nextId (S (nextId w)) _).
  destruct (legs_fan_out member (pingReqThroughMemberCallback (nextId w)) (r :: l) w1)
    as (Es & Eq & En & _ & _ & _ & Ee & Hleg & Hold).
  split; [exact Es|]. split; [exact Eq|]. split; [exact En|]. split; [exact Ee|].
  split.
  - rewrite (Hold (nextId w)) by (subst w1; fields; lia).
    subst w1; fields. apply lookup_insert_eq.
  - intros i Hi. destruct (Hleg i Hi) as [H1 H2].
    split; [exact H1|]. split; [exact H2|].
    destruct (lookup_lt_is_Some_2 (r :: l) i Hi) as [relayMember Hr].
    exact (legs_callbacks member (pingReqThroughMemberCallback (nextId w))
             (r :: l) w1 i relayMember Hr).
Qed.

Lemma pingReq_fan_out_witness :
  sent (pingReq Example.mb2 Example.M Example.w0)
  = [({| msg_type := PingReq;
         msg_data := {| data_seq := 0; data_host := Some "B";
                        data_destination := Some "M" |} |}, Some "R1");
     ({| msg_type := PingReq;
         msg_data := {| data_seq := 1; data_host := Some "B";
                        data_destination := Some "M" |} |}, Some "R2")] /\
  seq (pingReq Example.mb2 Example.M Example.w0) = 2.
Proof.
  destruct (pingReq_fan_out Example.mb2 Example.M Example.w0) as (Es & Eq & _).
  - discriminate.
  - split; [exact Es|exact Eq].
Defined.

(** ** No stale entry in the tables *)

Lemma fits_ext w w' tm :
  (forall s, owner (fn tm) = OwnSeq s -> seqToCallback w' !! s = seqToCallback w !! s) ->
  fits w tm -> fits w' tm.
Proof.
  unfold fits. intros H. destruct (fn tm) as [|s m|m|s|s]; cbn [owner] in H; try done.
  - by rewrite (H s eq_refl).
  - by rewrite (H s eq_refl).
  - by rewrite (H s eq_refl).
Qed.

Lemma fits_rearm w tm tm' :
  fn tm' = fn tm -> period tm' = period tm -> fits w tm -> fits w tm'.
Proof. unfold fits. by intros -> ->. Qed.

Lemma Tidy_ext w w' :
  timers w' = timers w -> seqToTimeout w' = seqToTimeout w ->
  seqToCallback w' = seqToCallback w -> Tidy w -> Tidy w'.
Proof.
  intros E1 E2 E3 [H1 H2 H3]. split; rewrite ?E1, ?E2, ?E3; try done.
  intros id tm Htm. apply (fits_ext w); [by rewrite E3|by apply (H2 id)].
Qed.

(** A sequence leaves the tables together with its timer. *)
Lemma Tidy_forget s w w' :
  Inv w -> Tidy w ->
  seqToTimeout w' = delete s (seqToTimeout w) ->
  seqToCallback w' = delete s (seqToCallback w) ->
  timers w' = match seqToTimeout w !! s with
              | Some id => delete id (timers w)
              | None => timers w
              end ->
  Tidy w'.
Proof.
  intros H [L F C] E1 E2 E3.
  assert (timers w' ⊆ timers w) as Hsub.
  { rewrite E3. destruct (seqToTimeout w !! s); [apply delete_subseteq|done]. }
  split; rewrite ?E1, ?E2.
  - intros k id [Hne Hk]%lookup_delete_Some.
    destruct (L k id Hk) as [tm Htm]. exists tm. rewrite E3.
    destruct (seqToTimeout w !! s) as [id0|] eqn:Es; [|done].
    rewrite lookup_delete_ne; [done|]. intros <-.
    destruct (inv_timeout w H k id0 Hk) as (_ & _ & Hk').
    destruct (inv_timeout w H s id0 Es) as (_ & _ & Hs').
    specialize (Hk' tm Htm). specialize (Hs' tm Htm). congruence.
  - intros id tm Htm. pose proof (lookup_weaken _ _ _ _ Htm Hsub) as Htm0.
    apply (fits_ext w); [|by apply (F id)].
    intros s' Hown. rewrite E2. apply lookup_delete_ne. intros <-.
    destruct (inv_timers w H id tm Htm0) as [_ Hk]. specialize (Hk s Hown).
    rewrite E3, Hk in Htm. by rewrite lookup_delete_eq in Htm.
  - intros k [cb [Hne Hk]%lookup_delete_Some].
    destruct (C k) as [id Hid]; [by exists cb|]. exists id.
    by rewrite lookup_delete_ne.
Qed.

(** A timer that belongs to no sequence is taken out. *)
Lemma Tidy_drop t w w' :
  Inv w -> Tidy w ->
  (forall tm k, timers w !! t = Some tm -> owner (fn tm) <> OwnSeq k) ->
  timers w' = delete t (timers w) ->
  seqToTimeout w' = seqToTimeout w -> seqToCallback w' = seqToCallback w ->
  Tidy w'.
Proof.
  intros H [L F C] Hown E1 E2 E3. split; rewrite ?E1, ?E2, ?E3; try done.
  - intros k id Hk. destruct (L k id Hk) as [tm Htm]. exists tm.
    rewrite lookup_delete_ne; [done|]. intros <-.
    destruct (inv_timeout w H k t Hk) as (_ & _ & Hk').
    exact (Hown tm k Htm (Hk' tm Htm)).
  - intros id tm [_ Htm]%lookup_delete_Some.
    apply (fits_ext w); [by rewrite E3|by apply (F id)].
Qed.

(** A fresh sequence number with its timer, and possibly its callback. *)
Lemma Tidy_allocate w w' tm (ocb : option Callback) :
  Inv w -> Tidy w ->
  timers w' = <[nextId w := tm]> (timers w) ->
  seqToTimeout w' = <[seq w := nextId w]> (seqToTimeout w) ->
  seqToCallback w' = match ocb with
                     | Some cb => <[seq w := cb]> (seqToCallback w)
                     | None => seqToCallback w
                     end ->
  fits w' tm ->
  Tidy w'.
Proof.
  intros H [L F C] E1 E2 E3 Hfit. split; rewrite ?E1, ?E2.
  - intros k id [[<- <-]|[Hne Hk]]%lookup_insert_Some.
    + rewrite lookup_insert_eq. by eexists.
    + destruct (inv_timeout w H k id Hk) as (_ & Hid & _).
      rewrite lookup_insert_ne by lia. by apply (L k).
  - intros id tm' [[<- <-]|[Hne Htm]]%lookup_insert_Some; [done|].
    apply (fits_ext w); [|by apply (F id)].
    intros s Hown. destruct (inv_timers w H id tm' Htm) as [_ Hk].
    destruct (inv_timeout w H s id (Hk s Hown)) as (Hs & _).
    rewrite E3. destruct ocb; [|done]. apply lookup_insert_ne. lia.
  - intros k Hk. apply lookup_insert_is_Some.
    destruct (decide (seq w = k)) as [->|Hne]; [by left|right]. split; [done|].
    apply C. rewrite E3 in Hk. destruct ocb; [|done].
    by rewrite lookup_insert_ne in Hk.
Qed.

(** A fresh timer that belongs to no sequence number. *)
Lemma Tidy_new_timer w w' tm :
  Inv w -> Tidy w ->
  timers w' = <[nextId w := tm]> (timers w) ->
  seqToTimeout w' = seqToTimeout w -> seqToCallback w' = seqToCallback w ->
  fits w tm ->
  Tidy w'.
Proof.
  intros H [L F C] E1 E2 E3 Hfit. split; rewrite ?E1, ?E2, ?E3; try done.
  - intros k id Hk. destruct (inv_timeout w H k id Hk) as (_ & Hid & _).
    rewrite lookup_insert_ne by lia. by apply (L k).
  - intros id tm' [[<- <-]|[Hne Htm]]%lookup_insert_Some.
    + apply (fits_ext w); [by rewrite E3|done].
    + apply (fits_ext w); [by rewrite E3|by apply (F id)].
Qed.

(** A repeating timer is re-armed. *)
Lemma Tidy_rearm id tm tm' w w' :
  Tidy w -> timers w !! id = Some tm ->
  fn tm' = fn tm -> period tm' = period tm ->
  timers w' = <[id := tm']> (timers w) ->
  seqToTimeout w' = seqToTimeout w -> seqToCallback w' = seqToCallback w ->
  Tidy w'.
Proof.
  intros [L F C] Htm Ef Ep E1 E2 E3. split; rewrite ?E1, ?E2, ?E3; try done.
  - intros k i Hk. apply lookup_insert_is_Some.
    destruct (decide (id = i)); [by left|right]. split; [done|]. by apply (L k).
  - intros i tm0 [[<- <-]|[Hne Htm0]]%lookup_insert_Some.
    + apply (fits_ext w); [by rewrite E3|].
      apply (fits_rearm w tm); [done..|]. by apply (F id).
    + apply (fits_ext w); [by rewrite E3|by apply (F i)].
Qed.

Lemma Tidy_FailureDetector opts t0 : Tidy (FailureDetector opts t0).
Proof. split; cbn; intros; simplify_map_eq. by destruct H. Qed.

Lemma Tidy_clearSeq s w : Inv w -> Tidy w -> Tidy (clearSeq s w).
Proof. intros H T. by apply (Tidy_forget s w). Qed.

Lemma fresh_seq w : Inv w ->
  seqToTimeout w !! seq w = None /\ seqToCallback w !! seq w = None.
Proof.
  intros H. split.
  - destruct (seqToTimeout w !! seq w) as [id|] eqn:E; [|done].
    destruct (inv_timeout w H _ _ E). lia.
  - destruct (seqToCallback w !! seq w) as [cb|] eqn:E; [|done].
    destruct (inv_callback w H _ _ E). lia.
Qed.

Lemma Tidy_pingMember member w : Inv w -> Tidy w -> Tidy (pingMember member w).
Proof.
  intros H T. destruct member as [m|]; [|done].
  apply (Tidy_allocate w _ {| due := clock w + timer_delay (pingTimeout w);
                              period := None;
                              fn := receiveTimeout_pingMember (seq w) m |} None);
    try done.
  split; [done|]. exact (proj2 (fresh_seq w H)).
Qed.

Lemma Tidy_pingReqThroughMember member relayMember callback w :
  Inv w -> Tidy w -> Tidy (pingReqThroughMember member relayMember callback w).
Proof.
  intros H T. destruct callback as [t].
  apply (Tidy_allocate w _ {| due := clock w + timer_delay (pingReqTimeout w);
                              period := None;
                              fn := receiveTimeout_pingReqThroughMember (seq w) |}
           (Some (pingReqAckReceiveCallback (seq w) (pingReqThroughMemberCallback t))));
    try done.
  split; [done|]. exists t. unfold_ops; fields. apply lookup_insert_eq.
Qed.

Lemma Tidy_pingReq_legs member t relayMembers w :
  t < nextId w ->
  (forall tm, timers w !! t = Some tm -> owner (fn tm) = OwnRound) ->
  Inv w -> Tidy w ->
  Tidy (foldl (fun w relayMember =>
                 pingReqThroughMember member relayMember
                   (pingReqThroughMemberCallback t) w) w relayMembers).
Proof.
  revert w. induction relayMembers as [|r l IH]; intros w Ht Hown H T; [done|].
  cbn [foldl]. apply IH.
  - unfold_ops; fields. lia.
  - unfold_ops; fields. intros tm. rewrite lookup_insert_ne by lia. apply Hown.
  - by apply Inv_pingReqThroughMember.
  - by apply Tidy_pingReqThroughMember.
Qed.

Lemma Tidy_pingReq mb member w : Inv w -> Tidy w -> Tidy (pingReq mb member w).
Proof.
  intros H T. unfold pingReq.
  destruct (length (random mb (pingReqGroupSize w)) =? 0); [done|].
  cbn [setTimeout]. apply Tidy_pingReq_legs; fields.
  - lia.
  - intros tm. rewrite lookup_insert_eq. by intros [= <-].
  - eapply (Inv_new_timer w); fields; try done.
    + by left.
    + by destruct H.
  - by eapply (Tidy_new_timer w).
Qed.

Lemma Tidy_onPing data from w : Tidy w -> Tidy (onPing data from w).
Proof. by apply Tidy_ext. Qed.

Lemma Tidy_onPingReq data from w : Inv w -> Tidy w -> Tidy (onPingReq data from w).
Proof.
  intros H T.
  apply (Tidy_allocate w _ {| due := clock w + timer_delay (pingTimeout w);
                              period := None;
                              fn := receiveTimeout_onPingReq (seq w) |}
           (Some (pingAckReceiveCallback (seq w) data from)));
    try done.
  split; [done|]. exists data, from. unfold_ops; fields. apply lookup_insert_eq.
Qed.

Lemma Tidy_start w : Inv w -> Tidy w -> Tidy (start w).
Proof.
  intros H T.
  by apply (Tidy_new_timer w _ {| due := clock w + timer_delay (interval w);
                                  period := Some (timer_delay (interval w));
                                  fn := ping_bound |}).
Qed.

Lemma Tidy_stop w : Inv w -> Tidy w -> Tidy (stop w).
Proof.
  intros H [L F C]. destruct (stop_tables w) as (T1 & T2 & T3 & _ & T5).
  split.
  - intros k id Hk. by rewrite T1, lookup_empty in Hk.
  - intros id tm Htm. pose proof (lookup_weaken _ _ _ _ Htm T5) as Htm0.
    assert (forall s, owner (fn tm) = OwnSeq s -> False) as Hno.
    { intros s Hs. destruct (inv_timers w H id tm Htm0) as [_ Hk].
      by rewrite (T3 s id (Hk s Hs)) in Htm. }
    specialize (F id tm Htm0). unfold fits in *.
    destruct (fn tm) as [|s m|m|s|s]; cbn [owner] in Hno.
    + exact I.
    + destruct (Hno s eq_refl).
    + exact F.
    + destruct (Hno s eq_refl).
    + destruct (Hno s eq_refl).
  - intros k [cb Hk]. by rewrite T2, lookup_empty in Hk.
Qed.

Lemma Inv_rearm id tm tm' w w' :
  Inv w -> timers w !! id = Some tm ->
  fn tm' = fn tm -> period tm' = period tm ->
  timers w' = <[id := tm']> (timers w) ->
  seq w' = seq w -> nextId w' = nextId w ->
  seqToTimeout w' = seqToTimeout w -> seqToCallback w' = seqToCallback w ->
  tickHandle w' = tickHandle w -> immediates w' = immediates w ->
  sent w' = sent w ->
  Inv w'.
Proof.
  intros [H1 H2 H3 H4 Hp H5 H6] Htm Ef Ep E1 E2 E3 E4 E5 E6 E7 E8.
  split; rewrite ?E1, ?E2, ?E3, ?E4, ?E5, ?E6, ?E7, ?E8; try done.
  - intros k i Hk. destruct (H1 k i Hk) as (?&?&Ht). repeat split; try done.
    intros tm0 [[<- <-]|[_ Htm0]]%lookup_insert_Some; [|by apply Ht].
    rewrite Ef. by apply Ht.
  - intros k cb Hk. destruct (H2 k cb Hk) as (?&?&Ht). repeat split; try done.
    { by apply Ht. }
    destruct (Ht t) as [_ Ht']; [done|].
    intros tm0 [[<- <-]|[_ Htm0]]%lookup_insert_Some; [|by apply Ht'].
    rewrite Ef. by apply Ht'.
  - intros i tm0 [[<- <-]|[_ Htm0]]%lookup_insert_Some; [|by apply H3].
    rewrite Ef. by apply (H3 id tm).
  - intros h Hh. destruct (H4 h Hh) as [? Ht]. split; [done|].
    intros tm0 [[<- <-]|[_ Htm0]]%lookup_insert_Some; [|by apply Ht].
    rewrite Ef. by apply Ht.
  - intros i tm0 [[<- <-]|[_ Htm0]]%lookup_insert_Some; [|by eapply Hp].
    rewrite Ef, Ep. by apply (Hp id).
Qed.

Lemma clearSeq_after_fire s id w :
  seqToTimeout w !! s = Some id ->
  clearSeq s (clearTimeout (Some id) w) = clearSeq s w.
Proof.
  intros Hs. unfold_ops. destruct w; fields. rewrite Hs. by rewrite delete_delete_eq.
Qed.

Lemma Tidy_run_Callback cb k w :
  Inv w -> Tidy w -> seqToCallback w !! k = Some cb ->
  Tidy (run_Callback cb (clearSeq k w)).
Proof.
  intros H T Hk. destruct (inv_callback w H k cb Hk) as (_ & _ & Ht).
  pose proof (Inv_clearSeq k w H) as H1. pose proof (Tidy_clearSeq k w H T) as T1.
  assert (timers (clearSeq k w) ⊆ timers w) as Hsub.
  { unfold_ops; fields. destruct (seqToTimeout w !! k); [apply delete_subseteq|done]. }
  revert H1 T1 Hsub. generalize (clearSeq k w). intros w1 H1 T1 Hsub.
  destruct cb as [s [t]|s data from]; cbn [run_Callback run_RoundCallback].
  - pose proof (Inv_clearSeq s w1 H1) as H2.
    pose proof (Tidy_clearSeq s w1 H1 T1) as T2.
    assert (timers (clearSeq s w1) ⊆ timers w1) as Hsub2.
    { unfold_ops; fields. destruct (seqToTimeout w1 !! s); [apply delete_subseteq|done]. }
    revert H2 T2 Hsub2. generalize (clearSeq s w1). intros w2 H2 T2 Hsub2.
    apply (Tidy_drop t w2); try done.
    intros tm k' Htm Hown. destruct (Ht t eq_refl) as [_ Hround].
    rewrite (Hround tm) in Hown; [done|].
    eapply lookup_weaken; [|exact Hsub]. eapply lookup_weaken; [exact Htm|exact Hsub2].
  - apply (Tidy_ext (clearSeq s w1)); try done. by apply Tidy_clearSeq.
Qed.

Lemma Settled_iter n (f : World -> World) w :
  (forall w, Settled w -> Settled (f w)) -> Settled w -> Settled (Nat.iter n f w).
Proof. intros Hf H. induction n; [done|]. by apply Hf. Qed.

Lemma Settled_FailureDetector opts t0 : Settled (FailureDetector opts t0).
Proof.
  split; [apply Inv_FailureDetector|]. split; [apply Tidy_FailureDetector|done].
Qed.

(** The tables hold nothing stale after every turn of the event loop. *)
Lemma Settled_step e w w' : Settled w -> step e w = Some w' -> Settled w'.
Proof.
  intros (H & T & Hq) Hstep.
  destruct (Stable_step e w w' (conj H Hq) Hstep) as [H' Hq'].
  split; [exact H'|]. split; [|exact Hq']. clear H' Hq'.
  destruct e as [| |dt|mb|id mb|ty data from].
  - rewrite step_CallStart in Hstep by exact Hq. injection Hstep as <-.
    by apply Tidy_start.
  - cbn [step] in Hstep. injection Hstep as <-.
    rewrite drain_nil by (by rewrite (proj1 (proj2 (proj2 (proj2 (proj2 (proj2
                                        (proj2 (stop_frame w))))))))).
    by apply Tidy_stop.
  - cbn [step] in Hstep. injection Hstep as <-. by apply (Tidy_ext w).
  - cbn [step] in Hstep. destruct (immediates w) as [|f rest] eqn:Ei; [done|].
    injection Hstep as <-.
    pose proof (inv_immediates w H) as Hi. rewrite Ei in Hi.
    apply Forall_cons in Hi as [<- Hrest]. cbn [run_TimerFn]. unfold ping.
    rewrite drain_nil by (by destruct (next mb)).
    apply Tidy_pingMember.
    + apply (Inv_shrink w); fields; auto.
    + by apply (Tidy_ext w).
  - cbn [step] in Hstep. destruct (timers w !! id) as [tm|] eqn:Et; [|done].
    destruct (due tm <=? clock w); [|done]. injection Hstep as <-.
    rewrite drain_nil by (rewrite nextTicks_run_TimerFn; by destruct (period tm)).
    pose proof (tidy_fits w T id tm Et) as Hfit. unfold fits in Hfit.
    destruct (period tm) as [p|] eqn:Ep.
    + destruct (fn tm) as [|s m|m|s|s] eqn:Ef; try (by destruct Hfit); [|done].
      cbn [run_TimerFn]. unfold ping.
      set (tm' := {| due := clock w + p; period := Some p; fn := ping_bound |}).
      apply Tidy_pingMember.
      * apply (Inv_rearm id tm tm' w); try done; by rewrite ?Ef, ?Ep.
      * apply (Tidy_rearm id tm tm' w); try done; by rewrite ?Ef, ?Ep.
    + change (set_timers (delete id (timers w)) w) with (clearTimeout (Some id) w).
      destruct (fn tm) as [|s m|m|s|s] eqn:Ef; cbn [run_TimerFn].
      * destruct (inv_period w H id tm Et) as [p Hp]; [by rewrite Ef|].
        by rewrite Ep in Hp.
      * destruct (inv_timers w H id tm Et) as [_ Hk].
        rewrite clearSeq_after_fire by (apply Hk; by rewrite Ef).
        apply Tidy_pingReq; [by apply Inv_clearSeq|by apply Tidy_clearSeq].
      * apply (Tidy_drop id w); try done.
        intros tm' k Htm' Hown. rewrite Et in Htm'. injection Htm' as <-.
        by rewrite Ef in Hown.
      * destruct (inv_timers w H id tm Et) as [_ Hk].
        rewrite clearSeq_after_fire by (apply Hk; by rewrite Ef).
        by apply Tidy_clearSeq.
      * destruct (inv_timers w H id tm Et) as [_ Hk].
        rewrite clearSeq_after_fire by (apply Hk; by rewrite Ef).
        by apply Tidy_clearSeq.
  - destruct ty.
    + cbn [step] in Hstep. injection Hstep as <-.
      assert (Settled (net_emit Ping data from w)) as (_ & T' & Hq').
      { apply Settled_iter; [|done]. intros w1 (H1 & T1 & Hq1).
        split; [by apply Inv_onPing|]. split; [by apply Tidy_onPing|done]. }
      by rewrite drain_nil.
    + cbn [step] in Hstep. injection Hstep as <-.
      assert (Settled (net_emit PingReq data from w)) as (_ & T' & Hq').
      { apply Settled_iter; [|done]. intros w1 (H1 & T1 & Hq1).
        split; [by apply Inv_onPingReq|]. split; [by apply Tidy_onPingReq|done]. }
      by rewrite drain_nil.
    + rewrite step_Recv_Ack in Hstep by exact Hq. injection Hstep as <-.
      destruct (ackListeners w =? 0); [done|].
      destruct (seqToCallback w !! data_seq data) as [cb|] eqn:Ecb.
      * by apply Tidy_run_Callback.
      * by apply Tidy_clearSeq.
Qed.

Lemma Settled_run evs w w' : Settled w -> run evs w = Some w' -> Settled w'.
Proof.
  revert w. induction evs as [|e evs IH]; intros w H Hrun.
  - cbn [run] in Hrun. by injection Hrun as <-.
  - rewrite run_cons in Hrun. destruct (step e w) as [w1|] eqn:E; [|done].
    apply (IH w1); [by apply (Settled_step e w)|done].
Qed.

Lemma reachable_Settled w : reachable w -> Settled w.
Proof.
  intros (opts & t0 & evs & Hrun).
  exact (Settled_run evs _ w (Settled_FailureDetector opts t0) Hrun).
Qed.

(** ** Pending sequences and their timers *)

(** X7: in every world the detector can reach, the tables hold nothing stale.
    The timer of every sequence in [seqToTimeout] is armed, fires once and
    clears that very sequence; no two sequences share a timer; every armed
    timer that clears a sequence is the one [seqToTimeout] holds for it; and
    a callback is stored only under a sequence that has such a timer, a relay
    callback with the timeout of a relay leg, a forwarding callback with the
    timeout of a probe made on behalf of a peer. *)
Theorem pending_sequences_have_live_timers (w : World) :
  reachable w ->
  (forall k id, seqToTimeout w !! k = Some id ->
     exists tm, timers w !! id = Some tm /\ period tm = None /\
                owner (fn tm) = OwnSeq k) /\
  (forall k k' id, seqToTimeout w !! k = Some id -> seqToTimeout w !! k' = Some id ->
     k = k') /\
  (forall id tm k, timers w !! id = Some tm -> owner (fn tm) = OwnSeq k ->
     seqToTimeout w !! k = Some id) /\
  (forall k cb, seqToCallback w !! k = Some cb ->
     exists id tm, seqToTimeout w !! k = Some id /\ timers w !! id = Some tm /\
       fn tm = match cb with
               | pingReqAckReceiveCallback _ _ => receiveTimeout_pingReqThroughMember k
               | pingAckReceiveCallback _ _ _ => receiveTimeout_onPingReq k
               end).
Proof.
  intros Hr. destruct (reachable_Settled w Hr) as (H & T & _).
  assert (forall k id, seqToTimeout w !! k = Some id ->
            exists tm, timers w !! id = Some tm /\ period tm = None /\
                       owner (fn tm) = OwnSeq k) as Hlive.
  { intros k id Hk. destruct (tidy_live w T k id Hk) as [tm Htm].
    destruct (inv_timeout w H k id Hk) as (_ & _ & Hown). specialize (Hown tm Htm).
    exists tm. split; [exact Htm|]. split; [|exact Hown].
    pose proof (tidy_fits w T id tm Htm) as Hfit. unfold fits in Hfit.
    destruct (fn tm) as [|s m|m|s|s]; cbn [owner] in Hown;
      [discriminate Hown|exact (proj1 Hfit)|discriminate Hown
      |exact (proj1 Hfit)|exact (proj1 Hfit)]. }
  split; [exact Hlive|]. split; [|split].
  - intros k k' id Hk Hk'.
    destruct (Hlive k id Hk) as (tm & Htm & _ & Hown).
    destruct (Hlive k' id Hk') as (tm' & Htm' & _ & Hown').
    rewrite Htm in Htm'. injection Htm' as <-. congruence.
  - intros id tm k Htm Hown. by apply (inv_timers w H id tm Htm).
  - intros k cb Hk. destruct (tidy_callback w T k) as [id Hid]; [by exists cb|].
    destruct (Hlive k id Hid) as (tm & Htm & _ & Hown).
    exists id, tm. split; [exact Hid|]. split; [exact Htm|].
    pose proof (tidy_fits w T id tm Htm) as Hfit. unfold fits in Hfit.
    destruct (fn tm) as [|s m|m|s|s]; cbn [owner] in Hown; try discriminate Hown;
      injection Hown as ->.
    + destruct Hfit as [_ Hfit]. rewrite Hk in Hfit. discriminate Hfit.
    + destruct Hfit as [_ [t Hfit]]. rewrite Hk in Hfit. by injection Hfit as ->.
    + destruct Hfit as [_ (d & f & Hfit)]. rewrite Hk in Hfit. by injection Hfit as ->.
Qed.

Lemma pending_sequences_have_live_timers_witness :
  let w := ping Example.mb (set_immediates [] (start Example.w0)) in
  seqToTimeout w !! 0 = Some 1 /\
  exists tm, timers w !! 1 = Some tm /\ period tm = None /\ owner (fn tm) = OwnSeq 0.
Proof.
  intros w.
  destruct (pending_sequences_have_live_timers w) as (Hlive & _).
  - exists Example.opts, 0, [CallStart; RunImmediate Example.mb].
    vm_compute. reflexivity.
  - split; [vm_compute; reflexivity|]. apply Hlive. vm_compute. reflexivity.
Defined.

(** ** Timeouts that only clear *)

Lemma clearSeq_fired s id w :
  seqToTimeout w !! s = Some id ->
  clearSeq s (clearTimeout (Some id) w)
  = set_seqToTimeout (delete s (seqToTimeout w))
      (set_seqToCallback (delete s (seqToCallback w))
         (set_timers (delete id (timers w)) w)).
Proof.
  intros Hs. unfold_ops. destruct w; fields. rewrite Hs. by rewrite delete_delete_eq.
Qed.

(** X8: when the timeout of a relay leg or of a probe made on behalf of a peer
    fires, it removes its own timer and the two table entries of its sequence
    and does nothing else: it sends no message (the requester gets no negative
    answer), emits nothing and leaves every other timer, the suspicion timer
    of the round included; an [Ack] for that sequence that arrives afterwards
    changes nothing. *)
Theorem leg_timeout_only_clears
    (w : World) (id s : nat) (tm : Timer) (mb : Membership) :
  reachable w ->
  timers w !! id = Some tm -> due tm <= clock w ->
  fn tm = receiveTimeout_pingReqThroughMember s \/ fn tm = receiveTimeout_onPingReq s ->
  let w' := set_seqToTimeout (delete s (seqToTimeout w))
              (set_seqToCallback (delete s (seqToCallback w))
                 (set_timers (delete id (timers w)) w)) in
  step (Fire id mb) w = Some w' /\
  forall data from, data_seq data = s -> step (Recv Ack data from) w' = Some w'.
Proof.
  intros Hr Ht Hd Hfn. cbv zeta. destruct (reachable_Settled w Hr) as (H & T & Hq).
  assert (seqToTimeout w !! s = Some id) as Hs.
  { destruct (inv_timers w H id tm Ht) as [_ Hk]. apply Hk.
    by destruct Hfn as [-> | ->]. }
  assert (period tm = None) as Hp.
  { pose proof (tidy_fits w T id tm Ht) as Hfit. unfold fits in Hfit.
    destruct Hfn as [E|E]; rewrite E in Hfit; exact (proj1 Hfit). }
  split.
  - rewrite (step_Fire_once id tm mb w Hq Ht Hp Hd).
    rewrite <- (clearSeq_fired s id w Hs). by destruct Hfn as [-> | ->].
  - intros data from <-. rewrite step_Recv_Ack by exact Hq. f_equal.
    match goal with |- context [ackListeners ?W =? 0] =>
      destruct (ackListeners W =? 0); [done|] end.
    fields. rewrite lookup_delete_eq. apply clearSeq_unknown; fields;
      apply lookup_delete_eq.
Qed.

Lemma leg_timeout_only_clears_witness :
  let d := {| data_seq := 7; data_host := Some "A"; data_destination := Some "C" |} in
  let w := set_clock 4 (onPingReq d "A" (start Example.w0)) in
  exists w',
    step (Fire 1 Example.mb) w = Some w' /\ sent w' = sent w /\
    seqToCallback w' !! 0 = None /\
    step (Recv Ack (Example.ack 0) "C") w' = Some w'.
Proof.
  intros d w.
  destruct (leg_timeout_only_clears w 1 0
              {| due := 4; period := None; fn := receiveTimeout_onPingReq 0 |}
              Example.mb) as [Hfire Hlate].
  - exists Example.opts, 0, [CallStart; Recv PingReq d "A"; Advance 4].
    vm_compute. reflexivity.
  - vm_compute. reflexivity.
  - vm_compute. lia.
  - by right.
  - eexists. split; [exact Hfire|]. split; [vm_compute; reflexivity|].
    split; [vm_compute; reflexivity|]. by apply Hlate.
Defined.

(** ** A direct probe that is acknowledged *)

Lemma clearSeq_probe s t w :
  seqToTimeout w !! s = Some t -> seqToCallback w !! s = None ->
  clearSeq s w
  = set_seqToTimeout (delete s (seqToTimeout w)) (set_timers (delete t (timers w)) w).
Proof.
  intros Hs Hc. unfold_ops. destruct w; fields. rewrite Hs.
  by rewrite (delete_id _ _ Hc).
Qed.

(** X9: while a direct probe waits for its answer, an [Ack] that carries its
    sequence, whoever sent it and whatever host it names, takes the probe's
    timeout out of the timer table and its sequence out of [seqToTimeout], and
    changes nothing else: nothing is sent or emitted.  From then on the
    timeout never fires, so the probe never escalates to [pingReq]. *)
Theorem direct_probe_acknowledged
    (w : World) (s t : nat) (tm : Timer) (member : Member)
    (data : Data) (from : string) :
  reachable w -> 0 < ackListeners w ->
  timers w !! t = Some tm -> fn tm = receiveTimeout_pingMember s member ->
  data_seq data = s ->
  let w' := set_seqToTimeout (delete s (seqToTimeout w))
              (set_timers (delete t (timers w)) w) in
  step (Recv Ack data from) w = Some w' /\
  forall evs w'', run evs w' = Some w'' ->
    Forall (fun e => is_Fire t e = false) evs /\ timers w'' !! t = None.
Proof.
  intros Hr Hn Ht Hfn <-. cbv zeta. destruct (reachable_Settled w Hr) as (H & T & Hq).
  destruct (inv_timers w H t tm Ht) as [Hid Hk].
  assert (seqToTimeout w !! data_seq data = Some t) as Hs
    by (apply Hk; by rewrite Hfn).
  assert (seqToCallback w !! data_seq data = None) as Hc.
  { pose proof (tidy_fits w T t tm Ht) as Hfit. unfold fits in Hfit.
    rewrite Hfn in Hfit. exact (proj2 Hfit). }
  split.
  - rewrite step_Recv_Ack by exact Hq. f_equal.
    destruct (ackListeners w =? 0) eqn:E; [apply Nat.eqb_eq in E; lia|].
    rewrite Hc. by apply clearSeq_probe.
  - intros evs w'' Hrun.
    destruct (gone_never_fires t evs
                (set_seqToTimeout (delete (data_seq data) (seqToTimeout w))
                   (set_timers (delete t (timers w)) w))
                w'' Hid (lookup_delete_eq _ _) Hrun)
      as (Hno & Hgone & _).
    split; [exact Hno|exact Hgone].
Qed.

Lemma direct_probe_acknowledged_witness :
  let w := ping Example.mb (set_immediates [] (start Example.w0)) in
  exists w',
    step (Recv Ack (Example.ack 0) "X") w = Some w' /\
    timers w' !! 1 = None /\ sent w' = sent w /\
    step (Fire 1 Example.mb) (set_clock 4 w') = None.
Proof.
  intros w.
  destruct (direct_probe_acknowledged w 0 1
              {| due := 4; period := None;
                 fn := receiveTimeout_pingMember 0 Example.M |}
              Example.M (Example.ack 0) "X") as [Hack Hnever].
  - exists Example.opts, 0, [CallStart; RunImmediate Example.mb].
    vm_compute. reflexivity.
  - vm_compute. lia.
  - vm_compute. reflexivity.
  - reflexivity.
  - reflexivity.
  - eexists. split; [exact Hack|]. split; [vm_compute; reflexivity|].
    split; vm_compute; reflexivity.
Defined.

(** ** Sequence numbers without gaps *)

Lemma Dense_same w w' :
  seq w' = seq w -> allocated (sent w') = allocated (sent w) -> Dense w -> Dense w'.
Proof. unfold Dense. by intros -> ->. Qed.

Lemma Dense_alloc w w' :
  seq w' = seq w + 1 -> allocated (sent w') = allocated (sent w) ++ [seq w] ->
  Dense w -> Dense w'.
Proof. unfold Dense. intros -> -> ->. by rewrite List.seq_app. Qed.

Lemma Dense_clearSeq s w : Dense w -> Dense (clearSeq s w).
Proof. by apply Dense_same. Qed.

Lemma Dense_pingMember member w : Dense w -> Dense (pingMember member w).
Proof.
  destruct member as [m|]; [|done]. apply Dense_alloc; [done|].
  unfold_ops; fields. by rewrite allocated_snoc.
Qed.

Lemma Dense_pingReqThroughMember member relayMember callback w :
  Dense w -> Dense (pingReqThroughMember member relayMember callback w).
Proof.
  apply Dense_alloc; [done|]. unfold_ops; fields. by rewrite allocated_snoc.
Qed.

Lemma Dense_pingReq mb member w : Dense w -> Dense (pingReq mb member w).
Proof.
  intros H. unfold pingReq.
  destruct (length (random mb (pingReqGroupSize w)) =? 0); [done|].
  cbn [setTimeout].
  apply (foldl_preserves Dense).
  - intros w' r. apply Dense_pingReqThroughMember.
  - by apply (Dense_same w).
Qed.

Lemma Dense_onPing data from w : Dense w -> Dense (onPing data from w).
Proof. apply Dense_same; [done|]. unfold_ops; fields. apply allocated_snoc_Ack. Qed.

Lemma Dense_onPingReq data from w : Dense w -> Dense (onPingReq data from w).
Proof.
  apply Dense_alloc; [done|]. unfold_ops; fields. by rewrite allocated_snoc.
Qed.

Lemma Dense_onAck data w : Dense w -> Dense (onAck data w).
Proof.
  intros H. unfold onAck. apply Dense_clearSeq.
  destruct (seqToCallback w !! data_seq data); [by apply (Dense_same w)|done].
Qed.

Lemma Dense_run_Callback cb w : Dense w -> Dense (run_Callback cb w).
Proof.
  intros H. destruct cb as [s [t]|s data from]; cbn [run_Callback run_RoundCallback].
  - by apply (Dense_same w).
  - apply (Dense_same w); [done| |done]. unfold_ops; fields. apply allocated_snoc_Ack.
Qed.

Lemma Dense_run_TimerFn mb f w : Dense w -> Dense (run_TimerFn mb f w).
Proof.
  intros H. destruct f; cbn [run_TimerFn].
  - by apply Dense_pingMember.
  - by apply Dense_pingReq, Dense_clearSeq.
  - by apply (Dense_same w).
  - by apply Dense_clearSeq.
  - by apply Dense_clearSeq.
Qed.

Lemma Dense_drain w : Dense w -> Dense (drain w).
Proof.
  intros H. unfold drain. apply (foldl_preserves Dense).
  - intros w' cb. apply Dense_run_Callback.
  - by apply (Dense_same w).
Qed.

Lemma Dense_net_emit ty data from w : Dense w -> Dense (net_emit ty data from w).
Proof.
  intros H. destruct ty; cbn [net_emit].
  - induction (pingListeners w); [done|]. by apply Dense_onPing.
  - induction (pingReqListeners w); [done|]. by apply Dense_onPingReq.
  - induction (ackListeners w); [done|]. by apply Dense_onAck.
Qed.

Lemma Dense_step e w w' : Dense w -> step e w = Some w' -> Dense w'.
Proof.
  intros H Hstep. destruct e as [| |dt|mb|id mb|ty data from]; cbn [step] in Hstep.
  - injection Hstep as <-. apply Dense_drain. by apply (Dense_same w).
  - injection Hstep as <-. apply Dense_drain.
    destruct (stop_frame w) as (Es & _ & _ & Em & _).
    apply (Dense_same w); [exact Es|by rewrite Em|exact H].
  - injection Hstep as <-. by apply (Dense_same w).
  - destruct (immediates w) as [|f rest]; [done|]. injection Hstep as <-.
    apply Dense_drain, Dense_run_TimerFn. by apply (Dense_same w).
  - destruct (timers w !! id) as [tm|]; [|done].
    destruct (due tm <=? clock w); [|done]. injection Hstep as <-.
    apply Dense_drain, Dense_run_TimerFn.
    destruct (period tm); by apply (Dense_same w).
  - injection Hstep as <-. by apply Dense_drain, Dense_net_emit.
Qed.

Lemma Dense_run evs w w' : Dense w -> run evs w = Some w' -> Dense w'.
Proof.
  revert w. induction evs as [|e evs IH]; intros w H Hrun.
  - cbn [run] in Hrun. by injection Hrun as <-.
  - rewrite run_cons in Hrun. destruct (step e w) as [w1|] eqn:E; [|done].
    apply (IH w1); [by apply (Dense_step e w)|done].
Qed.

(** X10: in every world the detector can reach, the sequence numbers of the
    [Ping] and [PingReq] messages it has sent are exactly 0, 1, ..., [seq] - 1
    in the order of sending: numbering starts at 0, no number is skipped or
    used twice, and every number given out went out in one message. *)
Theorem sequence_numbers_consecutive (w : World) :
  reachable w -> allocated (sent w) = List.seq 0 (seq w).
Proof.
  intros (opts & t0 & evs & Hrun).
  exact (Dense_run evs (FailureDetector opts t0) w eq_refl Hrun).
Qed.

Lemma sequence_numbers_consecutive_witness :
  exists w, run Example.probe_and_relay Example.w0 = Some w /\
            allocated (sent w) = [0; 1] /\ seq w = 2.
Proof.
  eexists. split; [vm_compute; reflexivity|].
  split; [|vm_compute; reflexivity].
  match goal with |- allocated (sent ?W) = _ =>
    rewrite (sequence_numbers_consecutive W)
  end.
  - vm_compute. reflexivity.
  - exists Example.opts, 0, Example.probe_and_relay. vm_compute. reflexivity.
Defined.

(** ** What precedes a suspicion *)

Lemma pinged_app loc member l l' : pinged loc member l -> pinged loc member (l ++ l').
Proof. intros [s H]. exists s. apply elem_of_app. by left. Qed.

Lemma relayed_app loc member l l' : relayed loc member l -> relayed loc member (l ++ l').
Proof. intros (s & r & H). exists s, r. apply elem_of_app. by left. Qed.

Lemma caused_app loc l l' f : caused loc l f -> caused loc (l ++ l') f.
Proof.
  destruct f; cbn [caused]; try done.
  - apply pinged_app.
  - intros [H1 H2]. split; [by apply pinged_app|by apply relayed_app].
Qed.

(** The log only grows, and every timer is an old one or is accounted for. *)
Lemma Caused_grow w w' l :
  local w' = local w -> sent w' = sent w ++ l -> emitted w' = emitted w ->
  (forall id tm, timers w' !! id = Some tm ->
     (exists id0 tm0, timers w !! id0 = Some tm0 /\ fn tm0 = fn tm) \/
     caused (local w') (sent w') (fn tm)) ->
  Caused w -> Caused w'.
Proof.
  intros El Es Ee Ht [H1 H2]. split.
  - intros id tm Htm. destruct (Ht id tm Htm) as [(id0 & tm0 & Htm0 & <-)|Hc]; [|done].
    rewrite El, Es. apply caused_app. by apply (H1 id0).
  - intros m Hm. rewrite Ee in Hm. destruct (H2 m Hm) as [Hp Hr].
    rewrite El, Es. split; [by apply pinged_app|by apply relayed_app].
Qed.

(** Timers are only removed, nothing is sent or emitted. *)
Lemma Caused_shrink w w' :
  local w' = local w -> sent w' = sent w -> emitted w' = emitted w ->
  timers w' ⊆ timers w -> Caused w -> Caused w'.
Proof.
  intros El Es Ee Hsub. apply (Caused_grow w w' []); try done.
  - by rewrite app_nil_r.
  - intros id tm Htm. left. exists id, tm. split; [|done].
    by eapply lookup_weaken.
Qed.

Lemma Caused_FailureDetector opts t0 : Caused (FailureDetector opts t0).
Proof.
  split; cbn.
  - intros id tm Htm. by rewrite lookup_empty in Htm.
  - intros m Hm. by apply not_elem_of_nil in Hm.
Qed.

Lemma Caused_clearTimeout h w : Caused w -> Caused (clearTimeout h w).
Proof.
  apply Caused_shrink; try done. unfold_ops; fields.
  destruct h; [apply delete_subseteq|done].
Qed.

Lemma Caused_clearSeq s w : Caused w -> Caused (clearSeq s w).
Proof.
  apply Caused_shrink; try done. unfold_ops; fields.
  destruct (seqToTimeout w !! s); [apply delete_subseteq|done].
Qed.

(** One timer is added and one message sent. *)
Lemma Caused_arm w w' id tm m :
  local w' = local w -> sent w' = sent w ++ [m] -> emitted w' = emitted w ->
  timers w' = <[id := tm]> (timers w) ->
  caused (local w) (sent w ++ [m]) (fn tm) ->
  Caused w -> Caused w'.
Proof.
  intros El Es Ee Et Hc. apply (Caused_grow w w' [m]); try done.
  intros i tm' Htm. rewrite Et in Htm.
  apply lookup_insert_Some in Htm as [[<- <-]|[_ Htm]].
  - right. by rewrite El, Es.
  - left. by exists i, tm'.
Qed.

Lemma Caused_pingMember member w : Caused w -> Caused (pingMember member w).
Proof.
  destruct member as [m|]; [|done].
  eapply (Caused_arm w); try reflexivity.
  cbn [fn caused]. exists (seq w). apply elem_of_app. right. by apply list_elem_of_singleton.
Qed.

Lemma Caused_pingReqThroughMember member relayMember callback w :
  Caused w -> Caused (pingReqThroughMember member relayMember callback w).
Proof. eapply (Caused_arm w); try reflexivity; exact I. Qed.

Lemma Caused_onPingReq data from w : Caused w -> Caused (onPingReq data from w).
Proof. eapply (Caused_arm w); try reflexivity; exact I. Qed.

Lemma Caused_onPing data from w : Caused w -> Caused (onPing data from w).
Proof.
  eapply (Caused_grow w _ [_]); try reflexivity.
  intros id tm Htm. left. by exists id, tm.
Qed.

Lemma Caused_onAck data w : Caused w -> Caused (onAck data w).
Proof.
  intros H. unfold onAck. apply Caused_clearSeq.
  destruct (seqToCallback w !! data_seq data); [|done].
  by apply (Caused_shrink w).
Qed.

Lemma Caused_run_Callback cb w : Caused w -> Caused (run_Callback cb w).
Proof.
  intros H. destruct cb as [s [t]|s data from]; cbn [run_Callback run_RoundCallback].
  - by apply Caused_clearTimeout, Caused_clearSeq.
  - eapply (Caused_grow (clearSeq s w) _ [_]); try reflexivity.
    + intros id tm Htm. left. by exists id, tm.
    + by apply Caused_clearSeq.
Qed.

(** A round is started for a member that was probed directly. *)
Lemma Caused_pingReq mb member w :
  pinged (local w) member (sent w) -> Caused w -> Caused (pingReq mb member w).
Proof.
  intros Hp H. unfold pingReq.
  destruct (random mb (pingReqGroupSize w)) as [|r l]; [done|].
  cbn [length Nat.eqb setTimeout foldl].
  apply (foldl_preserves Caused).
  { intros w' r'. apply Caused_pingReqThroughMember. }
  eapply (Caused_grow w _ [_]); try reflexivity; [|exact H].
  intros id tm Htm. unfold_ops; fields.
  apply lookup_insert_Some in Htm as [[<- <-]|[_ Htm]]; [by right|].
  apply lookup_insert_Some in Htm as [[<- <-]|[_ Htm]].
  - right. cbn [fn caused]. split; [by apply pinged_app|].
    exists (seq w), r. apply elem_of_app. right. by apply list_elem_of_singleton.
  - left. by exists id, tm.
Qed.

Lemma Caused_run_TimerFn mb f w :
  caused (local w) (sent w) f -> Caused w -> Caused (run_TimerFn mb f w).
Proof.
  intros Hc H. destruct f as [|s m|m|s|s]; cbn [run_TimerFn caused] in *.
  - by apply Caused_pingMember.
  - apply Caused_pingReq; [exact Hc|by apply Caused_clearSeq].
  - destruct H as [H1 H2]. split; [exact H1|].
    intros m' Hm. unfold_ops; fields.
    apply elem_of_app in Hm as [Hm|Hm%list_elem_of_singleton]; [by apply H2|].
    by subst m'.
  - by apply Caused_clearSeq.
  - by apply Caused_clearSeq.
Qed.

Lemma Caused_start w : Caused w -> Caused (start w).
Proof.
  apply (Caused_grow w _ []); try done.
  - by rewrite app_nil_r.
  - intros id tm Htm. unfold start in Htm; unfold_ops; fields.
    apply lookup_insert_Some in Htm as [[<- <-]|[_ Htm]]; [by right|].
    left. by exists id, tm.
Qed.

Lemma Caused_stop w : Caused w -> Caused (stop w).
Proof.
  destruct (stop_frame w) as (_ & _ & _ & Es & Ee & _ & _ & El & _).
  destruct (stop_tables w) as (_ & _ & _ & _ & Hsub).
  by apply Caused_shrink.
Qed.

Lemma Caused_drain w : Caused w -> Caused (drain w).
Proof.
  intros H. unfold drain. apply (foldl_preserves Caused).
  - intros w' cb. apply Caused_run_Callback.
  - by apply (Caused_shrink w).
Qed.

Lemma Caused_net_emit ty data from w : Caused w -> Caused (net_emit ty data from w).
Proof.
  intros H. destruct ty; cbn [net_emit].
  - induction (pingListeners w); [done|]. by apply Caused_onPing.
  - induction (pingReqListeners w); [done|]. by apply Caused_onPingReq.
  - induction (ackListeners w); [done|]. by apply Caused_onAck.
Qed.

Lemma Caused_step e w w' : Inv w -> Caused w -> step e w = Some w' -> Caused w'.
Proof.
  intros Hi H Hstep. destruct e as [| |dt|mb|id mb|ty data from]; cbn [step] in Hstep.
  - injection Hstep as <-. by apply Caused_drain, Caused_start.
  - injection Hstep as <-. by apply Caused_drain, Caused_stop.
  - injection Hstep as <-. by apply (Caused_shrink w).
  - destruct (immediates w) as [|f rest] eqn:Ei; [done|]. injection Hstep as <-.
    pose proof (inv_immediates w Hi) as Hf. rewrite Ei in Hf.
    apply Forall_cons in Hf as [<- _].
    apply Caused_drain, Caused_run_TimerFn; [exact I|]. by apply (Caused_shrink w).
  - destruct (timers w !! id) as [tm|] eqn:Et; [|done].
    destruct (due tm <=? clock w); [|done]. injection Hstep as <-.
    pose proof (caused_timers w H id tm Et) as Hc.
    apply Caused_drain, Caused_run_TimerFn.
    + by destruct (period tm).
    + destruct (period tm) as [p|].
      * apply (Caused_grow w _ []); try done; [by rewrite app_nil_r|].
        intros i tm' Htm. fields. left.
        apply lookup_insert_Some in Htm as [[<- <-]|[_ Htm]];
          [by exists id, tm|by exists i, tm'].
      * apply (Caused_shrink w); try done. apply delete_subseteq.
  - injection Hstep as <-. by apply Caused_drain, Caused_net_emit.
Qed.

Lemma reachable_Caused w : reachable w -> Caused w.
Proof.
  intros (opts & t0 & evs & Hrun).
  assert (Stable (FailureDetector opts t0)) as Hs
    by (split; [apply Inv_FailureDetector|done]).
  pose proof (Caused_FailureDetector opts t0) as Hc.
  revert Hs Hc Hrun. generalize (FailureDetector opts t0).
  induction evs as [|e evs IH]; intros w0 Hs Hc Hrun.
  - cbn [run] in Hrun. by injection Hrun as <-.
  - rewrite run_cons in Hrun. destruct (step e w0) as [w1|] eqn:E; [|done].
    apply (IH w1); [by apply (Stable_step e w0)| |done].
    by apply (Caused_step e w0); [destruct Hs|..].
Qed.

(** X11: the detector emits [Suspect] for a member only after it has sent
    that member a direct probe, a [Ping] under its own identity, and has asked
    at least one relay to probe it, a [PingReq] that names the member's host
    as destination: in every world it can reach, every member in the log of
    [Suspect] events has both messages in the log of sent messages. *)
Theorem suspect_only_after_ping_and_pingReq (w : World) (member : Member) :
  reachable w -> member ∈ emitted w ->
  (exists s,
     ({| msg_type := Ping;
         msg_data := {| data_seq := s; data_host := Some (local w);
                        data_destination := None |} |},
      Some (host member)) ∈ sent w) /\
  (exists s relayMember,
     ({| msg_type := PingReq;
         msg_data := {| data_seq := s; data_host := Some (local w);
                        data_destination := Some (host member) |} |},
      Some (host relayMember)) ∈ sent w).
Proof.
  intros Hr Hm. exact (caused_emitted w (reachable_Caused w Hr) member Hm).
Qed.

Lemma suspect_only_after_ping_and_pingReq_witness :
  exists w,
    run Scenario.unanswered Example.w0 = Some w /\
    Example.M ∈ emitted w /\
    (exists s,
       ({| msg_type := Ping;
           msg_data := {| data_seq := s; data_host := Some (local w);
                          data_destination := None |} |},
        Some (host Example.M)) ∈ sent w) /\
    (exists s relayMember,
       ({| msg_type := PingReq;
           msg_data := {| data_seq := s; data_host := Some (local w);
                          data_destination := Some (host Example.M) |} |},
        Some (host relayMember)) ∈ sent w).
Proof.
  eexists. split; [vm_compute; reflexivity|].
  split; [vm_compute; constructor|].
  apply suspect_only_after_ping_and_pingReq.
  - exists Example.opts, 0, Scenario.unanswered. vm_compute. reflexivity.
  - vm_compute. constructor.
Defined.

(** ** An indirect probe, end to end *)

Lemma step_Recv_Ping_once data from w :
  nextTicks w = [] -> pingListeners w = 1 ->
  step (Recv Ping data from) w = Some (onPing data from w).
Proof.
  intros Hq Hn. cbn [step net_emit]. rewrite Hn. cbn [Nat.iter nat_rect].
  f_equal. by apply drain_nil.
Qed.

Lemma step_Recv_PingReq_once data from w :
  nextTicks w = [] -> pingReqListeners w = 1 ->
  step (Recv PingReq data from) w = Some (onPingReq data from w).
Proof.
  intros Hq Hn. cbn [step net_emit]. rewrite Hn. cbn [Nat.iter nat_rect].
  f_equal. by apply drain_nil.
Qed.

Lemma step_Recv_Ack_callback data from cb w :
  nextTicks w = [] -> 0 < ackListeners w ->
  seqToCallback w !! data_seq data = Some cb ->
  step (Recv Ack data from) w = Some (run_Callback cb (clearSeq (data_seq data) w)).
Proof.
  intros Hq Hn Hcb. rewrite step_Recv_Ack by exact Hq. rewrite Hcb.
  destruct (ackListeners w =? 0) eqn:E; [apply Nat.eqb_eq in E; lia|done].
Qed.

Lemma run_forward_after_clearSeq s data from w :
  run_Callback (pingAckReceiveCallback s data from) (clearSeq s w)
  = sendMessage {| msg_type := Ack;
                   msg_data := {| data_seq := data_seq data; data_host := None;
                                  data_destination := None |} |}
                (Some from) (clearSeq s w).
Proof. cbn [run_Callback]. by rewrite clearSeq_idem. Qed.

Lemma run_leg_after_clearSeq s t w :
  run_Callback (pingReqAckReceiveCallback s (pingReqThroughMemberCallback t)) (clearSeq s w)
  = clearTimeout (Some t) (clearSeq s w).
Proof. cbn [run_Callback run_RoundCallback]. by rewrite clearSeq_idem. Qed.

Lemma sendMessage_fields m to w :
  sent (sendMessage m to w) = sent w ++ [(m, to)] /\
  seqToTimeout (sendMessage m to w) = seqToTimeout w /\
  seqToCallback (sendMessage m to w) = seqToCallback w.
Proof. done. Qed.

Lemma clearTimeout_fields h w :
  sent (clearTimeout h w) = sent w /\ emitted (clearTimeout h w) = emitted w /\
  seqToTimeout (clearTimeout h w) = seqToTimeout w /\
  seqToCallback (clearTimeout h w) = seqToCallback w.
Proof. done. Qed.

Lemma clearSeq_frame s w :
  sent (clearSeq s w) = sent w /\ emitted (clearSeq s w) = emitted w.
Proof. done. Qed.

Lemma onPingReq_fields data from w :
  sent (onPingReq data from w)
  = sent w ++ [({| msg_type := Ping;
                   msg_data := {| data_seq := seq w; data_host := data_destination data;
                                  data_destination := None |} |},
                data_destination data)] /\
  seqToCallback (onPingReq data from w) !! seq w
  = Some (pingAckReceiveCallback (seq w) data from) /\
  nextTicks (onPingReq data from w) = nextTicks w /\
  ackListeners (onPingReq data from w) = ackListeners w.
Proof.
  split; [done|]. split; [|done]. unfold_ops; fields. apply lookup_insert_eq.
Qed.

Lemma pingReqThroughMember_fields member relayMember callback w :
  sent (pingReqThroughMember member relayMember callback w)
  = sent w ++ [({| msg_type := PingReq;
                   msg_data := {| data_seq := seq w; data_host := Some (local w);
                                  data_destination := Some (host member) |} |},
                Some (host relayMember))] /\
  seqToCallback (pingReqThroughMember member relayMember callback w) !! seq w
  = Some (pingReqAckReceiveCallback (seq w) callback) /\
  nextTicks (pingReqThroughMember member relayMember callback w) = nextTicks w /\
  ackListeners (pingReqThroughMember member relayMember callback w) = ackListeners w /\
  emitted (pingReqThroughMember member relayMember callback w) = emitted w.
Proof.
  split; [done|]. split; [|done]. unfold_ops; fields. apply lookup_insert_eq.
Qed.

(** X12: an indirect probe through three detectors.  Node [a] asks relay [b]
    to probe [member]; [b] probes node [c] under a sequence number of its own;
    [c] answers [b]; [b] recognises the answer by its own sequence number and
    answers [a] with the sequence number [a] used; [a] recognises it, clears
    the leg and cancels the suspicion timer [t] of the round.  Each message
    delivered is the one the previous node sent; each node has its listener
    registered once. *)
Theorem relay_round_trip
    (a b c : World) (member relayMember : Member) (t : nat)
    (hostA hostB hostC hostR : string) :
  nextTicks a = [] -> nextTicks b = [] -> nextTicks c = [] ->
  0 < ackListeners a -> pingReqListeners b = 1 -> 0 < ackListeners b ->
  pingListeners c = 1 ->
  let a1 := pingReqThroughMember member relayMember (pingReqThroughMemberCallback t) a in
  let d1 := {| data_seq := seq a; data_host := Some (local a);
               data_destination := Some (host member) |} in
  let d2 := {| data_seq := seq b; data_host := Some (host member);
               data_destination := None |} in
  let d3 := {| data_seq := seq b; data_host := Some (local c);
               data_destination := None |} in
  let d4 := {| data_seq := seq a; data_host := None; data_destination := None |} in
  exists b1 c1 b2 a2,
    sent a1 = sent a ++ [({| msg_type := PingReq; msg_data := d1 |},
                          Some (host relayMember))] /\
    step (Recv PingReq d1 hostA) b = Some b1 /\
    sent b1 = sent b ++ [({| msg_type := Ping; msg_data := d2 |}, Some (host member))] /\
    step (Recv Ping d2 hostB) c = Some c1 /\
    sent c1 = sent c ++ [({| msg_type := Ack; msg_data := d3 |}, Some hostB)] /\
    step (Recv Ack d3 hostC) b1 = Some b2 /\
    sent b2 = sent b1 ++ [({| msg_type := Ack; msg_data := d4 |}, Some hostA)] /\
    seqToTimeout b2 !! seq b = None /\ seqToCallback b2 !! seq b = None /\
    step (Recv Ack d4 hostR) a1 = Some a2 /\
    timers a2 !! t = None /\
    seqToTimeout a2 !! seq a = None /\ seqToCallback a2 !! seq a = None /\
    sent a2 = sent a1 /\ emitted a2 = emitted a.
Proof.
  intros Hqa Hqb Hqc Hna Hnb Hnb' Hnc. cbv zeta.
  set (d1 := {| data_seq := seq a; data_host := Some (local a);
                data_destination := Some (host member) |}).
  set (d2 := {| data_seq := seq b; data_host := Some (host member);
                data_destination := None |}).
  set (d3 := {| data_seq := seq b; data_host := Some (local c);
                data_destination := None |}).
  set (d4 := {| data_seq := seq a; data_host := None; data_destination := None |}).
  destruct (pingReqThroughMember_fields member relayMember
              (pingReqThroughMemberCallback t) a) as (Sa1 & Ca1 & Qa1 & Na1 & Ea1).
  destruct (onPingReq_fields d1 hostA b) as (Sb1 & Cb1 & Qb1 & Nb1).
  revert Sa1 Ca1 Qa1 Na1 Ea1.
  generalize (pingReqThroughMember member relayMember (pingReqThroughMemberCallback t) a).
  intros a1 Sa1 Ca1 Qa1 Na1 Ea1.
  pose proof (step_Recv_PingReq_once d1 hostA b Hqb Hnb) as Hb1.
  revert Sb1 Cb1 Qb1 Nb1 Hb1. generalize (onPingReq d1 hostA b).
  intros b1 Sb1 Cb1 Qb1 Nb1 Hb1.
  exists b1, (onPing d2 hostB c),
    (sendMessage {| msg_type := Ack; msg_data := d4 |} (Some hostA) (clearSeq (seq b) b1)),
    (clearTimeout (Some t) (clearSeq (seq a) a1)).
  split; [exact Sa1|]. split; [exact Hb1|]. split; [exact Sb1|].
  split; [exact (step_Recv_Ping_once d2 hostB c Hqc Hnc)|].
  split; [reflexivity|].
  split.
  { rewrite (step_Recv_Ack_callback d3 hostC (pingAckReceiveCallback (seq b) d1 hostA) b1).
    - change (data_seq d3) with (seq b).
      by rewrite (run_forward_after_clearSeq (seq b) d1 hostA b1).
    - by rewrite Qb1.
    - by rewrite Nb1.
    - exact Cb1. }
  destruct (sendMessage_fields {| msg_type := Ack; msg_data := d4 |} (Some hostA)
              (clearSeq (seq b) b1)) as (-> & -> & ->).
  destruct (clearSeq_cleared (seq b) b1) as [-> ->].
  destruct (clearSeq_frame (seq b) b1) as [-> _].
  split; [done|]. split; [done|]. split; [done|].
  split.
  { rewrite (step_Recv_Ack_callback d4 hostR
               (pingReqAckReceiveCallback (seq a) (pingReqThroughMemberCallback t)) a1).
    - change (data_seq d4) with (seq a).
      by rewrite (run_leg_after_clearSeq (seq a) t a1).
    - by rewrite Qa1.
    - by rewrite Na1.
    - exact Ca1. }
  destruct (clearTimeout_fields (Some t) (clearSeq (seq a) a1)) as (-> & -> & -> & ->).
  destruct (clearSeq_cleared (seq a) a1) as [-> ->].
  destruct (clearSeq_frame (seq a) a1) as [-> ->].
  split; [apply lookup_delete_eq|]. by rewrite Ea1.
Qed.

Lemma relay_round_trip_witness :
  let a := start Example.w0 in
  let a1 := pingReqThroughMember Example.M Example.R1 (pingReqThroughMemberCallback 7) a in
  exists a2,
    step (Recv Ack {| data_seq := seq a; data_host := None; data_destination := None |}
            "R1") a1 = Some a2 /\
    timers a2 !! 7 = None /\ seqToCallback a2 !! seq a = None /\ sent a2 = sent a1.
Proof.
  intros a a1.
  destruct (relay_round_trip a (start Example.w0) (start Example.w0)
              Example.M Example.R1 7 "B" "R1" "M" "R1")
    as (b1 & c1 & b2 & a2 & _ & _ & _ & _ & _ & _ & _ & _ & _ & Ha2 & Ht & _ & Hc & Hs & _).
  - vm_compute. reflexivity.
  - vm_compute. reflexivity.
  - vm_compute. reflexivity.
  - vm_compute. lia.
  - vm_compute. reflexivity.
  - vm_compute. lia.
  - vm_compute. reflexivity.
  - exists a2. split; [exact Ha2|]. split; [exact Ht|]. split; [exact Hc|exact Hs].
Defined.

(** ** Turns in which nothing is probed *)

(** X13: a probe turn with nobody to probe, [membership.next()] undefined,
    does nothing: the immediate leaves the queue, the repeating schedule gets
    its next deadline, and no sequence number is used, no timer armed, no
    message sent. *)
Theorem probe_turn_without_member (mb : Membership) (w : World) :
  next mb = None -> nextTicks w = [] ->
  (forall rest, immediates w = ping_bound :: rest ->
     step (RunImmediate mb) w = Some (set_immediates rest w)) /\
  (forall h tm p,
     timers w !! h = Some tm -> fn tm = ping_bound -> period tm = Some p ->
     due tm <= clock w ->
     step (Fire h mb) w
     = Some (set_timers (<[h := {| due := clock w + p; period := Some p;
                                   fn := ping_bound |}]> (timers w)) w)).
Proof.
  intros Hn Hq. split.
  - intros rest Hi. cbn [step]. rewrite Hi. cbn [run_TimerFn]. unfold ping.
    rewrite Hn. cbn [pingMember]. f_equal. by apply drain_nil.
  - intros h tm p Ht Hf Hp Hd. cbn [step]. rewrite Ht, Hp, Hf.
    apply Nat.leb_le in Hd. rewrite Hd. cbn [run_TimerFn]. unfold ping.
    rewrite Hn. cbn [pingMember]. f_equal. by apply drain_nil.
Qed.

Lemma probe_turn_without_member_witness :
  step (RunImmediate Scenario.nobody) (start Example.w0)
  = Some (set_immediates [] (start Example.w0)).
Proof.
  destruct (probe_turn_without_member Scenario.nobody (start Example.w0)) as [H _].
  - reflexivity.
  - reflexivity.
  - apply H. reflexivity.
Defined.

Lemma stop_FailureDetector opts t0 :
  stop (FailureDetector opts t0) = FailureDetector opts t0.
Proof.
  rewrite stop_no_tables by done. rewrite stop_head_stopped by done.
  by apply no_listener_removed.
Qed.

(** X14: a detector that was constructed and not yet started is idle: it has
    no listener, so no delivered message does anything; no timer and no
    immediate is there to run; and [stop()] changes nothing. *)
Theorem constructed_detector_is_idle (opts : Opts) (t0 : nat) :
  (forall ty data from,
     step (Recv ty data from) (FailureDetector opts t0) = Some (FailureDetector opts t0)) /\
  (forall mb, step (RunImmediate mb) (FailureDetector opts t0) = None) /\
  (forall id mb, step (Fire id mb) (FailureDetector opts t0) = None) /\
  step CallStop (FailureDetector opts t0) = Some (FailureDetector opts t0).
Proof.
  split; [|split; [|split]].
  - intros ty data from. cbn [step]. rewrite net_emit_no_listener by done.
    by rewrite drain_nil.
  - done.
  - intros id mb. cbn [step].
    change (timers (FailureDetector opts t0)) with (∅ : gmap nat Timer).
    by rewrite lookup_empty.
  - cbn [step]. rewrite stop_FailureDetector. by rewrite drain_nil.
Qed.

(** ** A detector at rest *)

Lemma Quiet_stop_id w : Quiet w -> stop w = w.
Proof.
  intros (Hp & Hr & Ha & Hh & Ht & Hc & _).
  rewrite (stop_no_tables w Ht Hc), (stop_head_stopped w Hh).
  by apply no_listener_removed.
Qed.

Lemma Quiet_step e w w' :
  Quiet w -> is_CallStart e = false -> step e w = Some w' ->
  exists c, w' = set_clock c w.
Proof.
  intros Q He Hstep. pose proof Q as (Hp & Hr & Ha & Hh & Ht & Hc & Htm & Hi & Hq).
  assert (w = set_clock (clock w) w) as Hw by (by destruct w).
  destruct e as [| |dt|mb|id mb|ty data from]; cbn [step] in Hstep.
  - discriminate He.
  - rewrite (Quiet_stop_id w Q), (drain_nil w Hq) in Hstep. injection Hstep as <-.
    by exists (clock w).
  - injection Hstep as <-. by exists (clock w + dt).
  - by rewrite Hi in Hstep.
  - by rewrite Htm, lookup_empty in Hstep.
  - rewrite (net_emit_no_listener ty data from w Hp Hr Ha), (drain_nil w Hq) in Hstep.
    injection Hstep as <-. by exists (clock w).
Qed.

Lemma Quiet_run evs w w' :
  Quiet w -> Forall (fun e => is_CallStart e = false) evs -> run evs w = Some w' ->
  exists c, w' = set_clock c w.
Proof.
  revert w. induction evs as [|e evs IH]; intros w Q Hevs Hrun.
  - cbn [run] in Hrun. injection Hrun as <-. exists (clock w). by destruct w.
  - apply Forall_cons in Hevs as [He Hevs]. rewrite run_cons in Hrun.
    destruct (step e w) as [w1|] eqn:E; [|done].
    destruct (Quiet_step e w w1 Q He E) as [c ->].
    destruct (IH (set_clock c w) Q Hevs Hrun) as [c' ->].
    by exists c'.
Qed.

(** X15: when [stop()] leaves the timer table empty and no immediate is
    queued, on a detector whose listeners were each registered at most once,
    the detector is at rest until the next [start()]: whatever is delivered,
    however much time passes and however often [stop()] is called again, no
    timer or immediate can run and the world stays as [stop()] left it, up to
    the clock; in particular nothing is sent and nothing emitted. *)
Theorem stopped_detector_stays_at_rest (w : World) (evs : list Event) (w' : World) :
  nextTicks w = [] ->
  pingListeners w <= 1 -> pingReqListeners w <= 1 -> ackListeners w <= 1 ->
  timers (stop w) = ∅ -> immediates w = [] ->
  Forall (fun e => is_CallStart e = false) evs ->
  run evs (stop w) = Some w' ->
  w' = set_clock (clock w') (stop w).
Proof.
  intros Hq Hp Hr Ha Ht Hi Hevs Hrun.
  destruct (stop_frame w) as (_ & _ & _ & _ & _ & Fi & Fq & _ & Lp & Lr & La).
  destruct (stop_tables w) as (T1 & T2 & _).
  assert (Quiet (stop w)) as Q.
  { split; [lia|]. split; [lia|]. split; [lia|]. split; [apply tickHandle_stop|].
    split; [exact T1|]. split; [exact T2|]. split; [exact Ht|].
    split; [by rewrite Fi|by rewrite Fq]. }
  destruct (Quiet_run evs (stop w) w' Q Hevs Hrun) as [c ->]. done.
Qed.

Lemma stopped_detector_stays_at_rest_witness :
  let w := set_immediates [] (start Example.w0) in
  exists w',
    run [Recv Ping (Example.ack 3) "A"; Advance 30; CallStop;
         Recv PingReq (Example.ack 4) "A"] (stop w) = Some w' /\
    w' = set_clock (clock w') (stop w).
Proof.
  intros w. eexists. split; [vm_compute; reflexivity|].
  apply (stopped_detector_stays_at_rest w
           [Recv Ping (Example.ack 3) "A"; Advance 30; CallStop;
            Recv PingReq (Example.ack 4) "A"]).
  - vm_compute. reflexivity.
  - vm_compute. lia.
  - vm_compute. lia.
  - vm_compute. lia.
  - vm_compute. reflexivity.
  - vm_compute. reflexivity.
  - repeat constructor.
  - vm_compute. reflexivity.
Defined.
